(** * The client actor of the IRC daemon (package [irc], client.go)

    A shallow embedding of [Client] and of the operations that run on the
    server goroutine ([Reply], [Quit], [Friends], [ChangeNickname], [Touch],
    [Idle], [Register], [destroy]), of the two socket pumps ([readCommands],
    [writeReplies]) and of the timer callbacks, followed by the properties
    of the connection life cycle.

    Pointers ([*Client], [*Channel]) are addresses into two heaps kept in the
    [World]; a method on [*Client] becomes a computation in the monad [M]
    that takes the address of its receiver.  Every effect that another
    goroutine or a collaborator can observe (a send on a channel, a timer
    being armed or stopped, a registry update, a socket write) is also
    appended to the [trace] of the world, so that the order of the effects
    of one call can be stated. *)

From stdpp Require Import gmap strings list fin_maps.

Set Warnings "-clear-no-such-hyp".
Open Scope string_scope.

(** ** Data model *)

(** Addresses of heap-allocated structs. *)
Abbreviation ClientPtr := nat.
Abbreviation ChannelPtr := nat.

(** [ClientSet] is [map[*Client]bool] and [ChannelSet] is
    [map[*Channel]bool], both used as sets. *)
Abbreviation ClientSet := (gset nat).
Abbreviation ChannelSet := (gset nat).

(** Modelled from the spec: the methods [Add] and [Remove] of [ClientSet]
    are declared outside client.go; the spec calls the result of [Friends]
    a de-duplicated set, so they are set insertion and set deletion. *)
Definition ClientSet_Add (client : ClientPtr) (set : ClientSet) : ClientSet :=
  {[client]} ∪ set.
Definition ClientSet_Remove (client : ClientPtr) (set : ClientSet) : ClientSet :=
  set ∖ {[client]}.

(** [Phase]: client.go only names [Normal]; the phases before it are chosen
    by the server ([server.InitPhase()]). *)
Inductive Phase :=
| PreNormal (stage : nat)
| Normal.

(** The [*time.Timer] fields.  The three timers of a client are created by
    [time.AfterFunc] with one of two method values as callback.  A timer is
    active from [AfterFunc]/[Reset] until it fires or is stopped; [when] is
    the instant at which it is due. *)
Inductive TimerFunc :=
| connectionTimeoutFunc
| connectionIdleFunc.

Record Timer := { fn : TimerFunc; when : nat; active : bool }.

Inductive TimerField := loginTimerF | idleTimerF | quitTimerF.

#[global] Instance TimerField_eq_dec : EqDecision TimerField.
Proof. solve_decision. Defined.

(** Modelled from the spec: [Socket] is declared outside client.go ("Line
    Socket contract: write(line) -> success | failure; close()").  The state
    kept here is the lines written so far and the number of [Close] calls. *)
Record Socket := { written : list string; closed : nat }.

Record Conn := { RemoteAddr : string }.

Record Client := {
  atime : nat;
  awayMessage : string;
  channels : ChannelSet;
  ctime : nat;
  flags : gset nat;
  hasQuit : bool;
  hops : nat;
  hostname : string;
  idleTimer : option Timer;
  loginTimer : option Timer;
  lookups : list string;
  nick : string;
  phase : Phase;
  quitTimer : option Timer;
  realname : string;
  replies : list string;
  socket : Socket;
  username : string
}.

(** The zero value of the struct: what a field read yields for a client
    that [NewClient] never built.  All timers are nil.  The nil reply
    channel and the nil server of Go's zero value are not represented. *)
Definition zeroClient : Client :=
  {| atime := 0; awayMessage := ""; channels := ∅; ctime := 0; flags := ∅;
     hasQuit := false; hops := 0; hostname := ""; idleTimer := None;
     loginTimer := None; lookups := []; nick := ""; phase := PreNormal 0;
     quitTimer := None; realname := ""; replies := [];
     socket := {| written := []; closed := 0 |}; username := "" |}.

#[global] Instance Client_inhabited : Inhabited Client := populate zeroClient.

(** Modelled from the spec: [Channel] is declared outside client.go; the
    only field client.go reads is [members]. *)
Record Channel := { members : ClientSet }.

#[global] Instance Channel_inhabited : Inhabited Channel :=
  populate {| members := ∅ |}.

(** Commands travelling on [server.commands].  [QuitCommand] is the one
    client.go builds itself; every other command comes from [ParseCommand]. *)
Inductive Command :=
| QuitCommand (client : option ClientPtr) (message : string)
| ParsedCommand (client : option ClientPtr) (name : string) (args : list string).

Definition SetClient (c : ClientPtr) (msg : Command) : Command :=
  match msg with
  | QuitCommand _ message => QuitCommand (Some c) message
  | ParsedCommand _ name args => ParsedCommand (Some c) name args
  end.

Inductive ParseError :=
| NotEnoughArgsError
| OtherParseError (text : string).

Record HostnameLookup := { hl_client : ClientPtr; hl_hostname : string }.

(** Observable effects, in the order they happen. *)
Inductive Event :=
| EvReply (client : ClientPtr) (reply : string)
    (* client.replies <- reply *)
| EvCommand (msg : Command)
    (* server.commands <- msg *)
| EvIdle (client : ClientPtr)
    (* server.idle <- client *)
| EvHostname (lookup : HostnameLookup)
    (* server.hostnames <- lookup *)
| EvHasQuit (client : ClientPtr)
    (* client.hasQuit = true *)
| EvAfterFunc (client : ClientPtr) (t : TimerField) (d : nat) (f : TimerFunc)
    (* client.t = time.AfterFunc(d, f) *)
| EvTimerReset (client : ClientPtr) (t : TimerField) (d : nat)
| EvTimerStop (client : ClientPtr) (t : TimerField)
| EvDestroy (client : ClientPtr)
    (* marks the entry into client.destroy() *)
| EvChannelQuit (channel : ChannelPtr) (client : ClientPtr)
    (* channel.Quit(client) *)
| EvRegistryRemove (client : ClientPtr) (key : string)
    (* server.clients.Remove(client), keyed by client.nick *)
| EvRegistryAdd (client : ClientPtr) (key : string)
    (* server.clients.Add(client), keyed by client.nick *)
| EvSetNick (client : ClientPtr) (nickname : string)
    (* client.nick = nickname *)
| EvSetPhase (client : ClientPtr) (p : Phase)
| EvSocketWrite (client : ClientPtr) (line : string) (failed : bool)
| EvSocketClose (client : ClientPtr).

(** The server and the two heaps.  [clients], [commands], [idle] and
    [hostnames] are the fields of [Server] that client.go uses; [clock] is
    [time.Now()]; [logged] is the output of [log.Printf]. *)
Record World := {
  clientHeap : gmap nat Client;
  channelHeap : gmap nat Channel;
  clients : gmap string nat;
  commands : list Command;
  idle : list nat;
  hostnames : list HostnameLookup;
  clock : nat;
  logged : list string;
  trace : list Event
}.

Definition emptyWorld : World :=
  {| clientHeap := ∅; channelHeap := ∅; clients := ∅; commands := [];
     idle := []; hostnames := []; clock := 0; logged := []; trace := [] |}.

(** Field updates. *)
Definition set_atime (v : nat) (cl : Client) : Client :=
  {| atime := v; awayMessage := awayMessage cl; channels := channels cl;
     ctime := ctime cl; flags := flags cl; hasQuit := hasQuit cl;
     hops := hops cl; hostname := hostname cl; idleTimer := idleTimer cl;
     loginTimer := loginTimer cl; lookups := lookups cl; nick := nick cl;
     phase := phase cl; quitTimer := quitTimer cl; realname := realname cl;
     replies := replies cl; socket := socket cl; username := username cl |}.
Definition set_channels (v : ChannelSet) (cl : Client) : Client :=
  {| atime := atime cl; awayMessage := awayMessage cl; channels := v;
     ctime := ctime cl; flags := flags cl; hasQuit := hasQuit cl;
     hops := hops cl; hostname := hostname cl; idleTimer := idleTimer cl;
     loginTimer := loginTimer cl; lookups := lookups cl; nick := nick cl;
     phase := phase cl; quitTimer := quitTimer cl; realname := realname cl;
     replies := replies cl; socket := socket cl; username := username cl |}.
Definition set_hasQuit (v : bool) (cl : Client) : Client :=
  {| atime := atime cl; awayMessage := awayMessage cl; channels := channels cl;
     ctime := ctime cl; flags := flags cl; hasQuit := v;
     hops := hops cl; hostname := hostname cl; idleTimer := idleTimer cl;
     loginTimer := loginTimer cl; lookups := lookups cl; nick := nick cl;
     phase := phase cl; quitTimer := quitTimer cl; realname := realname cl;
     replies := replies cl; socket := socket cl; username := username cl |}.
Definition set_idleTimer (v : option Timer) (cl : Client) : Client :=
  {| atime := atime cl; awayMessage := awayMessage cl; channels := channels cl;
     ctime := ctime cl; flags := flags cl; hasQuit := hasQuit cl;
     hops := hops cl; hostname := hostname cl; idleTimer := v;
     loginTimer := loginTimer cl; lookups := lookups cl; nick := nick cl;
     phase := phase cl; quitTimer := quitTimer cl; realname := realname cl;
     replies := replies cl; socket := socket cl; username := username cl |}.
Definition set_loginTimer (v : option Timer) (cl : Client) : Client :=
  {| atime := atime cl; awayMessage := awayMessage cl; channels := channels cl;
     ctime := ctime cl; flags := flags cl; hasQuit := hasQuit cl;
     hops := hops cl; hostname := hostname cl; idleTimer := idleTimer cl;
     loginTimer := v; lookups := lookups cl; nick := nick cl;
     phase := phase cl; quitTimer := quitTimer cl; realname := realname cl;
     replies := replies cl; socket := socket cl; username := username cl |}.
Definition set_lookups (v : list string) (cl : Client) : Client :=
  {| atime := atime cl; awayMessage := awayMessage cl; channels := channels cl;
     ctime := ctime cl; flags := flags cl; hasQuit := hasQuit cl;
     hops := hops cl; hostname := hostname cl; idleTimer := idleTimer cl;
     loginTimer := loginTimer cl; lookups := v; nick := nick cl;
     phase := phase cl; quitTimer := quitTimer cl; realname := realname cl;
     replies := replies cl; socket := socket cl; username := username cl |}.
Definition set_nick (v : string) (cl : Client) : Client :=
  {| atime := atime cl; awayMessage := awayMessage cl; channels := channels cl;
     ctime := ctime cl; flags := flags cl; hasQuit := hasQuit cl;
     hops := hops cl; hostname := hostname cl; idleTimer := idleTimer cl;
     loginTimer := loginTimer cl; lookups := lookups cl; nick := v;
     phase := phase cl; quitTimer := quitTimer cl; realname := realname cl;
     replies := replies cl; socket := socket cl; username := username cl |}.
Definition set_phase (v : Phase) (cl : Client) : Client :=
  {| atime := atime cl; awayMessage := awayMessage cl; channels := channels cl;
     ctime := ctime cl; flags := flags cl; hasQuit := hasQuit cl;
     hops := hops cl; hostname := hostname cl; idleTimer := idleTimer cl;
     loginTimer := loginTimer cl; lookups := lookups cl; nick := nick cl;
     phase := v; quitTimer := quitTimer cl; realname := realname cl;
     replies := replies cl; socket := socket cl; username := username cl |}.
Definition set_quitTimer (v : option Timer) (cl : Client) : Client :=
  {| atime := atime cl; awayMessage := awayMessage cl; channels := channels cl;
     ctime := ctime cl; flags := flags cl; hasQuit := hasQuit cl;
     hops := hops cl; hostname := hostname cl; idleTimer := idleTimer cl;
     loginTimer := loginTimer cl; lookups := lookups cl; nick := nick cl;
     phase := phase cl; quitTimer := v; realname := realname cl;
     replies := replies cl; socket := socket cl; username := username cl |}.
Definition set_replies (v : list string) (cl : Client) : Client :=
  {| atime := atime cl; awayMessage := awayMessage cl; channels := channels cl;
     ctime := ctime cl; flags := flags cl; hasQuit := hasQuit cl;
     hops := hops cl; hostname := hostname cl; idleTimer := idleTimer cl;
     loginTimer := loginTimer cl; lookups := lookups cl; nick := nick cl;
     phase := phase cl; quitTimer := quitTimer cl; realname := realname cl;
     replies := v; socket := socket cl; username := username cl |}.
Definition set_socket (v : Socket) (cl : Client) : Client :=
  {| atime := atime cl; awayMessage := awayMessage cl; channels := channels cl;
     ctime := ctime cl; flags := flags cl; hasQuit := hasQuit cl;
     hops := hops cl; hostname := hostname cl; idleTimer := idleTimer cl;
     loginTimer := loginTimer cl; lookups := lookups cl; nick := nick cl;
     phase := phase cl; quitTimer := quitTimer cl; realname := realname cl;
     replies := replies cl; socket := v; username := username cl |}.

Definition set_clientHeap (v : gmap nat Client) (w : World) : World :=
  {| clientHeap := v; channelHeap := channelHeap w; clients := clients w;
     commands := commands w; idle := idle w; hostnames := hostnames w;
     clock := clock w; logged := logged w; trace := trace w |}.
Definition set_channelHeap (v : gmap nat Channel) (w : World) : World :=
  {| clientHeap := clientHeap w; channelHeap := v; clients := clients w;
     commands := commands w; idle := idle w; hostnames := hostnames w;
     clock := clock w; logged := logged w; trace := trace w |}.
Definition set_clients (v : gmap string nat) (w : World) : World :=
  {| clientHeap := clientHeap w; channelHeap := channelHeap w; clients := v;
     commands := commands w; idle := idle w; hostnames := hostnames w;
     clock := clock w; logged := logged w; trace := trace w |}.
Definition set_commands (v : list Command) (w : World) : World :=
  {| clientHeap := clientHeap w; channelHeap := channelHeap w;
     clients := clients w; commands := v; idle := idle w;
     hostnames := hostnames w; clock := clock w; logged := logged w;
     trace := trace w |}.
Definition set_idle (v : list nat) (w : World) : World :=
  {| clientHeap := clientHeap w; channelHeap := channelHeap w;
     clients := clients w; commands := commands w; idle := v;
     hostnames := hostnames w; clock := clock w; logged := logged w;
     trace := trace w |}.
Definition set_hostnames (v : list HostnameLookup) (w : World) : World :=
  {| clientHeap := clientHeap w; channelHeap := channelHeap w;
     clients := clients w; commands := commands w; idle := idle w;
     hostnames := v; clock := clock w; logged := logged w; trace := trace w |}.
Definition set_clock (v : nat) (w : World) : World :=
  {| clientHeap := clientHeap w; channelHeap := channelHeap w;
     clients := clients w; commands := commands w; idle := idle w;
     hostnames := hostnames w; clock := v; logged := logged w;
     trace := trace w |}.
Definition set_logged (v : list string) (w : World) : World :=
  {| clientHeap := clientHeap w; channelHeap := channelHeap w;
     clients := clients w; commands := commands w; idle := idle w;
     hostnames := hostnames w; clock := clock w; logged := v;
     trace := trace w |}.
Definition set_trace (v : list Event) (w : World) : World :=
  {| clientHeap := clientHeap w; channelHeap := channelHeap w;
     clients := clients w; commands := commands w; idle := idle w;
     hostnames := hostnames w; clock := clock w; logged := logged w;
     trace := v |}.

Definition getTimer (t : TimerField) (cl : Client) : option Timer :=
  match t with
  | loginTimerF => loginTimer cl
  | idleTimerF => idleTimer cl
  | quitTimerF => quitTimer cl
  end.

Definition setTimer (t : TimerField) (v : option Timer) (cl : Client) : Client :=
  match t with
  | loginTimerF => set_loginTimer v cl
  | idleTimerF => set_idleTimer v cl
  | quitTimerF => set_quitTimer v cl
  end.

(** A read through a [*Client] or [*Channel]. *)
Definition deref (w : World) (client : ClientPtr) : Client :=
  clientHeap w !!! client.
Definition derefChannel (w : World) (channel : ChannelPtr) : Channel :=
  channelHeap w !!! channel.

(** ** Collaborators outside client.go

    Constants, reply formatters, the parser and the resolver are declared in
    other files of the package; they are parameters of the development.
    [range_clients] and [range_channels] are the orders in which a
    [for ... range] loop visits a map: Go leaves the order open, so any
    enumeration of the set is allowed. *)
Class Collaborators := {
  EOF : string;
  LOGIN_TIMEOUT : nat;
  IDLE_TIMEOUT : nat;
  QUIT_TIMEOUT : nat;
  DEBUG_CLIENT : bool;
  InitPhase : Phase;
  IPString : string → string;
  LookupHostname : string → string;
  ParseCommand : string → Command + ParseError;
  RplError : string → string;
  RplPing : Client → string;
  RplNick : Client → string → string;
  RplQuit : Client → string → string;
  RplNeedMoreParams : Client → string → string;
  Socket_Write_fails : Socket → string → bool;
  range_clients : gset nat → list nat;
  range_channels : gset nat → list nat;
  range_clients_perm : ∀ s, range_clients s ≡ₚ elements s;
  range_channels_perm : ∀ s, range_channels s ≡ₚ elements s
}.

(** ** The monad of the server goroutine: state, plus the panic of a nil
    dereference. *)
Inductive Result (A : Type) :=
| Ok (a : A) (w : World)
| NilPanic.
Arguments Ok {A} a w.
Arguments NilPanic {A}.

Definition M (A : Type) : Type := World → Result A.

Definition ret {A} (a : A) : M A := λ w, Ok a w.
Definition bind {A B} (m : M A) (k : A → M B) : M B :=
  λ w, match m w with
       | Ok a w' => k a w'
       | NilPanic => NilPanic
       end.
Definition panic {A} : M A := λ _, NilPanic.

Notation "x <- m ;; k" := (bind m (λ x, k))
  (at level 90, m at level 80, right associativity, only parsing).
Notation "m ;;; k" := (bind m (λ _, k))
  (at level 90, right associativity, only parsing).

Definition gets {A} (f : World → A) : M A := λ w, Ok (f w) w.
Definition modify (f : World → World) : M unit := λ w, Ok tt (f w).

Fixpoint forEach {A} (l : list A) (body : A → M unit) : M unit :=
  match l with
  | [] => ret tt
  | x :: rest => body x ;;; forEach rest body
  end.

Definition emit (e : Event) : M unit :=
  modify (λ w, set_trace (trace w ++ [e]) w).

Definition getClient (client : ClientPtr) : M Client :=
  gets (λ w, deref w client).
Definition modifyClient (client : ClientPtr) (f : Client → Client) : M unit :=
  modify (λ w, set_clientHeap (<[client := f (deref w client)]> (clientHeap w)) w).
Definition modifyChannel (channel : ChannelPtr) (f : Channel → Channel) : M unit :=
  modify (λ w,
    set_channelHeap (<[channel := f (derefChannel w channel)]> (channelHeap w)) w).

(** *** time.Timer *)

(** [client.t = time.AfterFunc(d, f)] *)
Definition AfterFunc (client : ClientPtr) (t : TimerField) (d : nat)
    (f : TimerFunc) : M unit :=
  now <- gets clock ;;
  modifyClient client
    (setTimer t (Some {| fn := f; when := now + d; active := true |})) ;;;
  emit (EvAfterFunc client t d f).

(** [client.t.Stop()]; panics when the field is nil. *)
Definition Timer_Stop (client : ClientPtr) (t : TimerField) : M unit :=
  cl <- getClient client ;;
  match getTimer t cl with
  | None => panic
  | Some tm =>
      modifyClient client
        (setTimer t (Some {| fn := fn tm; when := when tm; active := false |})) ;;;
      emit (EvTimerStop client t)
  end.

(** [client.t.Reset(d)]; panics when the field is nil. *)
Definition Timer_Reset (client : ClientPtr) (t : TimerField) (d : nat) : M unit :=
  cl <- getClient client ;;
  now <- gets clock ;;
  match getTimer t cl with
  | None => panic
  | Some tm =>
      modifyClient client
        (setTimer t (Some {| fn := fn tm; when := now + d; active := true |})) ;;;
      emit (EvTimerReset client t d)
  end.

(** *** Collaborators with state *)

(** Modelled from the spec: [Channel.Quit] is declared outside client.go
    ("leave every joined channel by notifying each channel of this client's
    departure"; "a client is a member of channel C iff C lists the client as
    a member").  The channel drops the client from its members and the
    client drops the channel. *)
Definition Channel_Quit (channel : ChannelPtr) (client : ClientPtr) : M unit :=
  emit (EvChannelQuit channel client) ;;;
  modifyChannel channel (λ ch, {| members := ClientSet_Remove client (members ch) |}) ;;;
  modifyClient client (λ cl, set_channels (channels cl ∖ {[channel]}) cl).

(** Modelled from the spec: [server.clients] and its methods are declared
    outside client.go ("Registry contract: add(client), remove(client),
    keyed by current nickname"). *)
Definition ClientNameMap_Remove (client : ClientPtr) : M unit :=
  cl <- getClient client ;;
  emit (EvRegistryRemove client (nick cl)) ;;;
  modify (λ w, set_clients (delete (nick cl) (clients w)) w).

Definition ClientNameMap_Add (client : ClientPtr) : M unit :=
  cl <- getClient client ;;
  emit (EvRegistryAdd client (nick cl)) ;;;
  modify (λ w, set_clients (<[nick cl := client]> (clients w)) w).

(** What the [select] of one loop iteration receives: the pending hostname
    lookup, or the next line of [client.socket.Read()]. *)
Inductive Ready :=
| ReadyLookup
| ReadyLine (line : string).

(** Where a pump stands after it ran: blocked on an empty channel, or
    returned. *)
Inductive PumpState (A : Type) :=
| Waiting
| Exited (unread : A).
Arguments Waiting {A}.
Arguments Exited {A} unread.

(** ** client.go *)

Section Client.
Context `{Collaborators}.

(** [client.replies <- reply], for a send that finds room: the channel is
    made with room for 16 lines and a send blocks while 16 are queued (see
    [repliesCapacity] below); the properties that need the send to return
    state the room it needs. *)
Definition send_replies (client : ClientPtr) (reply : string) : M unit :=
  modifyClient client (λ cl, set_replies (replies cl ++ [reply]) cl) ;;;
  emit (EvReply client reply).

(** [server.commands <- msg] *)
Definition send_commands (msg : Command) : M unit :=
  modify (λ w, set_commands (commands w ++ [msg]) w) ;;;
  emit (EvCommand msg).

Definition Reply (client : ClientPtr) (reply : string) : M unit :=
  cl <- getClient client ;;
  if hasQuit cl then ret tt
  else send_replies client reply.

Definition HasNick (c : Client) : bool := negb (String.eqb (nick c) "").
Definition HasUsername (c : Client) : bool := negb (String.eqb (username c) "").

Definition Nick (c : Client) : string :=
  if HasNick c then nick c else "*".

Definition UserHost (c : Client) : string :=
  let username := if HasUsername c then username c else "*" in
  Nick c ++ "!" ++ username ++ "@" ++ hostname c.

Definition Id (c : Client) : string := UserHost c.
Definition String (c : Client) : string := Id c.

(** [Friends]: reads only. *)
Definition Friends_of (w : World) (client : ClientPtr) : ClientSet :=
  let friends := ClientSet_Add client ∅ in
  foldl (λ friends channel,
           foldl (λ friends member, ClientSet_Add member friends) friends
                 (range_clients (members (derefChannel w channel))))
        friends
        (range_channels (channels (deref w client))).

Definition Friends (client : ClientPtr) : M ClientSet :=
  gets (λ w, Friends_of w client).

Definition Active (client : ClientPtr) : M unit :=
  now <- gets clock ;;
  modifyClient client (set_atime now).

Definition Touch (client : ClientPtr) : M unit :=
  cl <- getClient client ;;
  (if quitTimer cl is Some _ then Timer_Stop client quitTimerF else ret tt) ;;;
  cl <- getClient client ;;
  if idleTimer cl is None
  then AfterFunc client idleTimerF IDLE_TIMEOUT connectionIdleFunc
  else Timer_Reset client idleTimerF IDLE_TIMEOUT.

Definition Idle (client : ClientPtr) : M unit :=
  cl <- getClient client ;;
  Reply client (RplPing cl) ;;;
  cl <- getClient client ;;
  if quitTimer cl is None
  then AfterFunc client quitTimerF QUIT_TIMEOUT connectionTimeoutFunc
  else Timer_Reset client quitTimerF QUIT_TIMEOUT.

Definition Register (client : ClientPtr) : M unit :=
  modifyClient client (set_phase Normal) ;;;
  emit (EvSetPhase client Normal) ;;;
  Timer_Stop client loginTimerF ;;;
  Touch client.

Definition destroy (client : ClientPtr) : M unit :=
  emit (EvDestroy client) ;;;
  (* clean up self *)
  Timer_Stop client loginTimerF ;;;
  cl <- getClient client ;;
  (if idleTimer cl is Some _ then Timer_Stop client idleTimerF else ret tt) ;;;
  cl <- getClient client ;;
  (if quitTimer cl is Some _ then Timer_Stop client quitTimerF else ret tt) ;;;
  (* clean up channels *)
  cl <- getClient client ;;
  forEach (range_channels (channels cl))
          (λ channel, Channel_Quit channel client) ;;;
  (* clean up server *)
  ClientNameMap_Remove client ;;;
  if DEBUG_CLIENT
  then cl <- getClient client ;;
       modify (λ w, set_logged (logged w ++ [String cl ++ ": destroyed"]) w)
  else ret tt.

Definition SetNickname (client : ClientPtr) (nickname : string) : M unit :=
  modifyClient client (set_nick nickname) ;;;
  emit (EvSetNick client nickname) ;;;
  ClientNameMap_Add client.

Definition ChangeNickname (client : ClientPtr) (nickname : string) : M unit :=
  (* Make reply before changing nick to capture original source id. *)
  cl <- getClient client ;;
  let reply := RplNick cl nickname in
  ClientNameMap_Remove client ;;;
  modifyClient client (set_nick nickname) ;;;
  emit (EvSetNick client nickname) ;;;
  ClientNameMap_Add client ;;;
  friends <- Friends client ;;
  forEach (range_clients friends) (λ friend, Reply friend reply).

Definition Quit (client : ClientPtr) (message : string) : M unit :=
  cl <- getClient client ;;
  if hasQuit cl then ret tt
  else
    Reply client (RplError "connection closed") ;;;
    Reply client EOF ;;;
    modifyClient client (set_hasQuit true) ;;;
    emit (EvHasQuit client) ;;;
    friends <- Friends client ;;
    let friends := ClientSet_Remove client friends in
    destroy client ;;;
    if (0 <? size friends)%nat
    then cl <- getClient client ;;
         let reply := RplQuit cl message in
         forEach (range_clients friends) (λ friend, Reply friend reply)
    else ret tt.

(** *** Construction *)

(** Modelled from the spec: [NewSocket] is declared outside client.go; a
    fresh socket has written nothing and is open. *)
Definition NewSocket (conn : Conn) : Socket := {| written := []; closed := 0 |}.

(** [NewClient]: [client] is the address of the freshly allocated struct.
    The three [go] statements start the hostname lookup and the two pumps;
    the lookup goroutine's send on [client.lookups] is recorded as pending,
    the pumps are [readCommands] and [writeReplies] below. *)
Definition NewClient (client : ClientPtr) (conn : Conn) : M ClientPtr :=
  now <- gets clock ;;
  modifyClient client (λ _,
    {| atime := now; awayMessage := ""; channels := ∅; ctime := now;
       flags := ∅; hasQuit := false; hops := 0; hostname := "";
       idleTimer := None; loginTimer := None; lookups := []; nick := "";
       phase := InitPhase; quitTimer := None; realname := ""; replies := [];
       socket := NewSocket conn; username := "" |}) ;;;
  AfterFunc client loginTimerF LOGIN_TIMEOUT connectionTimeoutFunc ;;;
  modifyClient client
    (λ cl, set_lookups (lookups cl ++ [IPString (RemoteAddr conn)]) cl) ;;;
  ret client.

(** *** Timer callbacks *)

Definition connectionClosed (client : ClientPtr) : M unit :=
  let msg := QuitCommand None "connection closed" in
  let msg := SetClient client msg in
  send_commands msg.

Definition connectionTimeout (client : ClientPtr) : M unit :=
  let msg := QuitCommand None "connection timeout" in
  let msg := SetClient client msg in
  send_commands msg.

Definition connectionIdle (client : ClientPtr) : M unit :=
  modify (λ w, set_idle (idle w ++ [client]) w) ;;;
  emit (EvIdle client).

Definition callTimerFunc (f : TimerFunc) (client : ClientPtr) : M unit :=
  match f with
  | connectionTimeoutFunc => connectionTimeout client
  | connectionIdleFunc => connectionIdle client
  end.

(** The runtime firing timer [t] of [client]: it happens only when the timer
    is active and due, deactivates the timer and runs its callback.  The
    result tells whether the timer fired. *)
Definition due (now : nat) (tm : Timer) : bool :=
  active tm && (when tm <=? now)%nat.

Definition fire (client : ClientPtr) (t : TimerField) : M bool :=
  cl <- getClient client ;;
  now <- gets clock ;;
  match getTimer t cl with
  | Some tm =>
      if due now tm then
        modifyClient client
          (setTimer t (Some {| fn := fn tm; when := when tm; active := false |})) ;;;
        callTimerFunc (fn tm) client ;;;
        ret true
      else ret false
  | None => ret false
  end.

(** *** The read pump *)

(** [strings.SplitN(s, sep, 2)] for a one-character separator: cut at the
    first occurrence, or the whole string when there is none. *)
Fixpoint cut (sep : Ascii.ascii) (s : string) : option (string * string) :=
  match s with
  | EmptyString => None
  | String.String a rest =>
      if Ascii.eqb a sep then Some (EmptyString, rest)
      else match cut sep rest with
           | Some (before, after) => Some (String.String a before, after)
           | None => None
           end
  end.

Definition SplitN2 (s : string) (sep : Ascii.ascii) : list string :=
  match cut sep s with
  | Some (before, after) => [before; after]
  | None => [s]
  end.

Definition NewHostnameLookup (client : ClientPtr) (ipAddr : string)
    : HostnameLookup :=
  {| hl_client := client; hl_hostname := LookupHostname ipAddr |}.

(** Modelled from the spec: [ErrNeedMoreParams] is declared outside
    client.go ("an immediate protocol error reply naming the offending
    command verb"); it replies to the client with the formatted error. *)
Definition ErrNeedMoreParams (client : ClientPtr) (command : string) : M unit :=
  cl <- getClient client ;;
  Reply client (RplNeedMoreParams cl command).

(** The loop of [readCommands] over what the pump receives.  The result is
    [Some rest] when the loop was left ([done]) with [rest] not received,
    and [None] when the pump is blocked in [select] with nothing to receive. *)
Fixpoint readLoop (client : ClientPtr) (ready : list Ready)
    : M (option (list Ready)) :=
  match ready with
  | [] => ret None
  | ReadyLookup :: rest =>
      cl <- getClient client ;;
      match lookups cl with
      | ipAddr :: pending =>
          modifyClient client (set_lookups pending) ;;;
          modify (λ w, set_hostnames
                         (hostnames w ++ [NewHostnameLookup client ipAddr]) w) ;;;
          emit (EvHostname (NewHostnameLookup client ipAddr))
      | [] => ret tt
      end ;;;
      readLoop client rest
  | ReadyLine line :: rest =>
      if String.eqb line EOF then ret (Some rest)
      else
        match ParseCommand line with
        | inr err =>
            match err with
            | NotEnoughArgsError =>
                let parts := SplitN2 line Ascii.Space in
                ErrNeedMoreParams client (hd "" parts)
            | _ => ret tt
            end ;;;
            readLoop client rest
        | inl msg =>
            let msg := SetClient client msg in
            send_commands msg ;;;
            readLoop client rest
        end
  end.

Definition readCommands (client : ClientPtr) (ready : list Ready)
    : M (PumpState (list Ready)) :=
  left <- readLoop client ready ;;
  match left with
  | Some rest => connectionClosed client ;;; ret (Exited rest)
  | None => ret Waiting
  end.

(** *** The write pump *)

(** Modelled from the spec: [Socket.Write] and [Socket.Close] are declared
    outside client.go.  [Write] either fails or appends the line; the result
    is [true] when the returned error is not nil. *)
Definition Socket_Write (client : ClientPtr) (line : string) : M bool :=
  cl <- getClient client ;;
  let failed := Socket_Write_fails (socket cl) line in
  (if failed then ret tt
   else modifyClient client
          (λ cl, set_socket {| written := written (socket cl) ++ [line];
                               closed := closed (socket cl) |} cl)) ;;;
  emit (EvSocketWrite client line failed) ;;;
  ret failed.

Definition Socket_Close (client : ClientPtr) : M unit :=
  modifyClient client
    (λ cl, set_socket {| written := written (socket cl);
                         closed := S (closed (socket cl)) |} cl) ;;;
  emit (EvSocketClose client).

(** The loop of [writeReplies] over the items [queued] on [client.replies];
    each iteration receives the head of the channel.  The result is [true]
    when the loop was left by [break], [false] when it is blocked on an
    empty channel. *)
Fixpoint writeLoop (client : ClientPtr) (queued : list string) : M bool :=
  match queued with
  | [] => ret false
  | reply :: rest =>
      modifyClient client (λ cl, set_replies (tail (replies cl)) cl) ;;;
      if String.eqb reply EOF then ret true
      else
        failed <- Socket_Write client reply ;;
        if failed then ret true
        else writeLoop client rest
  end.

Definition writeReplies (client : ClientPtr) : M (PumpState unit) :=
  cl <- getClient client ;;
  left <- writeLoop client (replies cl) ;;
  if left then Socket_Close client ;;; ret (Exited tt)
  else ret Waiting.

(** ** Schedules

    What can happen to the world, one step at a time: a call made by the
    server goroutine, a timer firing, a pump running, time passing. *)
Inductive Op :=
| OpNewClient (client : ClientPtr) (conn : Conn)
| OpReply (client : ClientPtr) (reply : string)
| OpQuit (client : ClientPtr) (message : string)
| OpTouch (client : ClientPtr)
| OpIdle (client : ClientPtr)
| OpRegister (client : ClientPtr)
| OpActive (client : ClientPtr)
| OpSetNickname (client : ClientPtr) (nickname : string)
| OpChangeNickname (client : ClientPtr) (nickname : string)
| OpFire (client : ClientPtr) (t : TimerField)
| OpRead (client : ClientPtr) (ready : list Ready)
| OpWrite (client : ClientPtr)
| OpElapse (d : nat).

Definition step (op : Op) : M unit :=
  match op with
  | OpNewClient client conn => NewClient client conn ;;; ret tt
  | OpReply client reply => Reply client reply
  | OpQuit client message => Quit client message
  | OpTouch client => Touch client
  | OpIdle client => Idle client
  | OpRegister client => Register client
  | OpActive client => Active client
  | OpSetNickname client nickname => SetNickname client nickname
  | OpChangeNickname client nickname => ChangeNickname client nickname
  | OpFire client t => fire client t ;;; ret tt
  | OpRead client ready => readCommands client ready ;;; ret tt
  | OpWrite client => writeReplies client ;;; ret tt
  | OpElapse d => modify (λ w, set_clock (clock w + d) w)
  end.

Definition run (ops : list Op) : M unit := forEach ops step.

End Client.

(** ** Outcomes

    The records and worlds that the operations produce, named so that the
    properties below can state them. *)

(** The parts of the server that no client operation but a send changes. *)
Definition queues (w : World) :=
  (commands w, idle w, hostnames w, clock w).

(** [rs] appended to the reply queue of a client. *)
Definition pushed (rs : list string) (cl : Client) : Client :=
  set_replies (replies cl ++ rs) cl.

(** A timer after [Stop()]; nil stays nil. *)
Definition stopped (t : option Timer) : option Timer :=
  match t with
  | Some tm => Some {| fn := fn tm; when := when tm; active := false |}
  | None => None
  end.

(** The world after one client's record is replaced and some events are
    logged; nothing else changes. *)
Definition commit (client : ClientPtr) (cl : Client) (events : list Event)
    (w : World) : World :=
  set_trace (trace w ++ events)
    (set_clientHeap (<[client := cl]> (clientHeap w)) w).

(** The record of a client after [destroy()]: the three timers stopped and
    every channel left. *)
Definition destroyed (cl : Client) : Client :=
  set_channels ∅
    (set_quitTimer (stopped (quitTimer cl))
       (set_idleTimer (stopped (idleTimer cl))
          (set_loginTimer (stopped (loginTimer cl)) cl))).

(** The record of a client after its first [Quit]. *)
Definition quitted `{Collaborators} (cl : Client) : Client :=
  destroyed (set_hasQuit true (pushed [RplError "connection closed"; EOF] cl)).

(** Whether a timer is pending; a nil timer is not. *)
Definition isActive (t : option Timer) : bool :=
  match t with
  | Some tm => active tm
  | None => false
  end.

(** The channel heap, the registry, the log and the queues are unchanged. *)
Definition sameServer (w w' : World) : Prop :=
  channelHeap w' = channelHeap w ∧ clients w' = clients w
  ∧ logged w' = logged w ∧ queues w' = queues w.

(** [w'] differs from [w] by the record of [client], now [cl], and by the
    events [events] added to the trace. *)
Definition onlyClient (client : ClientPtr) (cl : Client) (events : list Event)
    (w w' : World) : Prop :=
  deref w' client = cl
  ∧ (∀ x, x ≠ client → deref w' x = deref w x)
  ∧ trace w' = (trace w ++ events)%list
  ∧ sameServer w w'.

(** The originator a command is tagged with. *)
Definition Command_client (msg : Command) : option ClientPtr :=
  match msg with
  | QuitCommand client _ => client
  | ParsedCommand client _ _ => client
  end.

(** The socket after [lines] were written. *)
Definition wrote (lines : list string) (s : Socket) : Socket :=
  {| written := written s ++ lines; closed := closed s |}.

Section Outcomes.
Context `{Collaborators}.

(** The record of a client after [Touch()] at time [now]. *)
Definition touched (now : nat) (cl : Client) : Client :=
  set_idleTimer
    (Some {| fn := if idleTimer cl is Some it then fn it else connectionIdleFunc;
             when := now + IDLE_TIMEOUT; active := true |})
    (set_quitTimer (stopped (quitTimer cl)) cl).

Definition touchEvents (client : ClientPtr) (cl : Client) : list Event :=
  (if quitTimer cl is Some _ then [EvTimerStop client quitTimerF] else [])
  ++ [if idleTimer cl is Some _
      then EvTimerReset client idleTimerF IDLE_TIMEOUT
      else EvAfterFunc client idleTimerF IDLE_TIMEOUT connectionIdleFunc].

(** The record of a client after the quit timer is armed or reset at time
    [now]. *)
Definition quitArmed (now : nat) (cl : Client) : Client :=
  set_quitTimer
    (Some {| fn := if quitTimer cl is Some qt then fn qt else connectionTimeoutFunc;
             when := now + QUIT_TIMEOUT; active := true |}) cl.

Definition quitArmEvent (client : ClientPtr) (cl : Client) : Event :=
  if quitTimer cl is Some _
  then EvTimerReset client quitTimerF QUIT_TIMEOUT
  else EvAfterFunc client quitTimerF QUIT_TIMEOUT connectionTimeoutFunc.

(** The record of a client after [Register()] at time [now]. *)
Definition registered (now : nat) (cl : Client) : Client :=
  touched now (set_loginTimer (stopped (loginTimer cl)) (set_phase Normal cl)).

(** The world after a timer of [client] fired. *)
Definition fired (client : ClientPtr) (t : TimerField) (tm : Timer) (w : World)
    : World :=
  let w1 := set_clientHeap
              (<[client := setTimer t (stopped (Some tm)) (deref w client)]>
                 (clientHeap w)) w in
  match fn tm with
  | connectionTimeoutFunc =>
      let msg := QuitCommand (Some client) "connection timeout" in
      set_trace (trace w ++ [EvCommand msg])
                (set_commands (commands w ++ [msg]) w1)
  | connectionIdleFunc =>
      set_trace (trace w ++ [EvIdle client]) (set_idle (idle w ++ [client]) w1)
  end.

(** Every line of [lines] is written without failure, none being the end
    marker, starting from socket state [s]. *)
Fixpoint writable (s : Socket) (lines : list string) : bool :=
  match lines with
  | [] => true
  | line :: rest =>
      negb (String.eqb line EOF) && negb (Socket_Write_fails s line)
      && writable (wrote [line] s) rest
  end.

(** The world after [msg] was sent on [server.commands]. *)
Definition sent (msg : Command) (w : World) : World :=
  set_trace (trace w ++ [EvCommand msg]) (set_commands (commands w ++ [msg]) w).

(** The world after the read pump took the pending hostname lookup. *)
Definition lookupForwarded (client : ClientPtr) (w : World) : World :=
  match lookups (deref w client) with
  | ipAddr :: pending =>
      let lookup := NewHostnameLookup client ipAddr in
      set_trace (trace w ++ [EvHostname lookup])
        (set_hostnames (hostnames w ++ [lookup])
           (set_clientHeap
              (<[client := set_lookups pending (deref w client)]> (clientHeap w))
              w))
  | [] => w
  end.

(** The world after the read pump handled a line that is not the end
    marker. *)
Definition lineHandled (client : ClientPtr) (line : string) (w : World) : World :=
  match ParseCommand line with
  | inl msg => sent (SetClient client msg) w
  | inr NotEnoughArgsError =>
      let reply := RplNeedMoreParams (deref w client)
                     (hd ""%string (SplitN2 line Ascii.Space)) in
      if hasQuit (deref w client) then w
      else commit client (pushed [reply] (deref w client))
                  [EvReply client reply] w
  | inr (OtherParseError _) => w
  end.

End Outcomes.

(** *** The capacity of the reply queue

    [client.replies] is [make(chan string, 16)]: a send finds room when
    fewer than 16 lines are queued and blocks otherwise.  [send_replies] is
    the send that finds room; the properties that need a send to return
    state the room it needs. *)
Definition repliesCapacity : nat := 16.

(** The number of lines queued for a client. *)
Definition queued (w : World) (x : ClientPtr) : nat :=
  length (replies (deref w x)).

(** Room for [n] more lines in the reply queue of a client. *)
Definition hasRoom (n : nat) (cl : Client) : Prop :=
  (length (replies cl) + n ≤ repliesCapacity)%nat.

(** The queue lengths after one more line for [x]. *)
Definition bump (len : ClientPtr → nat) (x : ClientPtr) : ClientPtr → nat :=
  λ y, if decide (y = x) then S (len y) else len y.

(** Whether every send on a reply queue recorded in [events] found room,
    [len x] lines being queued for [x] before the first event and no line
    being taken from a queue meanwhile. *)
Fixpoint sendsFit (len : ClientPtr → nat) (events : list Event) : bool :=
  match events with
  | [] => true
  | EvReply x _ :: rest =>
      (len x <? repliesCapacity)%nat && sendsFit (bump len x) rest
  | _ :: rest => sendsFit len rest
  end.


(** At most one of the idle timer and the quit timer is pending. *)
Definition atMostOnePending (cl : Client) : Prop :=
  ¬ (isActive (idleTimer cl) = true ∧ isActive (quitTimer cl) = true).


(** ** Invariants of schedules *)

(** Partial correctness of a computation against a relation between the
    world before and the world after. *)
Definition preserves {A} (R : World → World → Prop) (m : M A) : Prop :=
  ∀ w a w', m w = Ok a w' → R w w'.

Definition isDestroy (client : ClientPtr) (e : Event) : bool :=
  match e with
  | EvDestroy x => Nat.eqb x client
  | _ => false
  end.

(** How many times [destroy()] was entered for [client]. *)
Definition destroyCount (client : ClientPtr) (w : World) : nat :=
  length (filter (λ e, isDestroy client e = true) (trace w)).

Definition b2n (b : bool) : nat := if b then 1 else 0.

(** The callback each timer field is created with in client.go. *)
Definition defaultFn (t : TimerField) : TimerFunc :=
  match t with
  | idleTimerF => connectionIdleFunc
  | loginTimerF | quitTimerF => connectionTimeoutFunc
  end.

Definition fnOk (t : TimerField) (o : option Timer) : Prop :=
  match o with
  | Some tm => fn tm = defaultFn t
  | None => True
  end.

(** Every timer of the client that is set carries the callback of its
    field. *)
Definition wired (cl : Client) : Prop :=
  fnOk loginTimerF (loginTimer cl)
  ∧ fnOk idleTimerF (idleTimer cl)
  ∧ fnOk quitTimerF (quitTimer cl).

(** [calm c]: the step left [hasQuit] and the login timer of [c] alone and
    did not destroy [c]; time did not go back; callbacks were kept. *)
Definition calm (c : ClientPtr) (w w' : World) : Prop :=
  hasQuit (deref w' c) = hasQuit (deref w c)
  ∧ loginTimer (deref w' c) = loginTimer (deref w c)
  ∧ destroyCount c w' = destroyCount c w
  ∧ (clock w ≤ clock w')%nat
  ∧ (wired (deref w c) → wired (deref w' c)).

(** [ages c]: what every step but a new allocation at [c] guarantees. *)
Definition ages (c : ClientPtr) (w w' : World) : Prop :=
  (hasQuit (deref w c) = true → hasQuit (deref w' c) = true)
  ∧ (is_Some (loginTimer (deref w c)) → is_Some (loginTimer (deref w' c)))
  ∧ (isActive (loginTimer (deref w' c)) = true →
     loginTimer (deref w' c) = loginTimer (deref w c))
  ∧ (destroyCount c w' + b2n (hasQuit (deref w c))
     = destroyCount c w + b2n (hasQuit (deref w' c)))%nat
  ∧ (clock w ≤ clock w')%nat
  ∧ (wired (deref w c) → wired (deref w' c)).

(** The login timer is never nil once it is set, and callbacks are kept:
    these survive a new allocation at the same address too. *)
Definition keeps (c : ClientPtr) (w w' : World) : Prop :=
  (is_Some (loginTimer (deref w c)) → is_Some (loginTimer (deref w' c)))
  ∧ (wired (deref w c) → wired (deref w' c)).

(** A step that allocates a client at address [c]. *)
Definition allocates (c : ClientPtr) (op : Op) : bool :=
  match op with
  | OpNewClient x _ => bool_decide (x = c)
  | _ => false
  end.

(** A step that sets [hasQuit] of [c] or touches its login timer. *)
Definition disturbs (c : ClientPtr) (op : Op) : bool :=
  match op with
  | OpNewClient x _ | OpRegister x | OpQuit x _ => bool_decide (x = c)
  | OpFire x t => bool_decide (x = c ∧ t = loginTimerF)
  | _ => false
  end.

(** A call of [Register()] on [c]. *)
Definition isRegister (c : ClientPtr) (op : Op) : bool :=
  match op with
  | OpRegister x => bool_decide (x = c)
  | _ => false
  end.

(** The client whose login timer a step stops without a nil check. *)
Definition stopsLogin (op : Op) : option ClientPtr :=
  match op with
  | OpQuit x _ | OpRegister x => Some x
  | _ => None
  end.

(** The client a step is a call on. *)
Definition target (op : Op) : option ClientPtr :=
  match op with
  | OpNewClient x _ | OpReply x _ | OpQuit x _ | OpTouch x | OpIdle x
  | OpRegister x | OpActive x | OpSetNickname x _ | OpChangeNickname x _
  | OpFire x _ | OpRead x _ | OpWrite x => Some x
  | OpElapse _ => None
  end.

(** A schedule whose every call is on a client of [known] or on a client
    that an earlier step of the schedule built with [NewClient]. *)
Fixpoint wellTargeted (known : gset nat) (ops : list Op) : bool :=
  match ops with
  | [] => true
  | OpNewClient x _ :: rest => wellTargeted ({[x]} ∪ known) rest
  | op :: rest =>
      match target op with
      | Some x => bool_decide (x ∈ known) && wellTargeted known rest
      | None => wellTargeted known rest
      end
  end.

(** The steps of the timer state machine: [Touch()], [Idle()], a timer
    firing, time passing. *)
Definition machineStep (op : Op) : bool :=
  match op with
  | OpTouch _ | OpIdle _ | OpFire _ _ | OpElapse _ => true
  | _ => false
  end.

(** Every call of [Idle()] on [c] in the schedule finds the idle timer of
    [c] not pending: so it is when the server calls [Idle()] for the client
    it received on [server.idle] and no [Touch()] came in between. *)
Fixpoint idleInTurn `{Collaborators} (c : ClientPtr) (ops : list Op) (w : World)
    : bool :=
  match ops with
  | [] => true
  | op :: rest =>
      match op with
      | OpIdle x =>
          if bool_decide (x = c) then negb (isActive (idleTimer (deref w c)))
          else true
      | _ => true
      end
      && match step op w with
         | Ok _ w1 => idleInTurn c rest w1
         | NilPanic => true
         end
  end.

(** The invariant of the timers, read literally: whatever steps the timer
    state machine takes, at most one of the idle timer and the quit timer
    is pending. *)
Definition timers_invariant_kept `{Collaborators} : Prop :=
  ∀ client ops w w',
    Forall (λ op, machineStep op = true) ops →
    atMostOnePending (deref w client) →
    run ops w = Ok tt w' →
    atMostOnePending (deref w' client).

(** The second half of the login-timeout sentence, read literally: on a
    schedule that never calls [Register()] on the client, once the login
    timeout has elapsed a timeout quit has been enqueued or the login
    timer can still fire. *)
Definition login_timeout_unless_registered `{Collaborators} : Prop :=
  ∀ client conn w ops w1 w2,
    NewClient client conn w = Ok client w1 →
    Forall (λ op, isRegister client op = false) ops →
    run ops w1 = Ok tt w2 →
    (clock w + LOGIN_TIMEOUT ≤ clock w2)%nat →
    QuitCommand (Some client) "connection timeout" ∈ commands w2
    ∨ ∃ w3, fire client loginTimerF w2 = Ok true w3.

(** ** The rest of client.go *)

(** *** Times

    [time.Duration] is a signed 64-bit count of nanoseconds; the clock
    counts the nanoseconds since the Unix epoch. *)
Definition maxDuration : Z := (2 ^ 63 - 1)%Z.
Definition minDuration : Z := (- 2 ^ 63)%Z.

(** [t.Sub(u)]: the difference, kept within the range of a duration. *)
Definition Time_Sub (t u : nat) : Z :=
  Z.max minDuration (Z.min maxDuration (Z.of_nat t - Z.of_nat u)).

(** [time.Since(t)] *)
Definition Since (t : nat) : M Z :=
  now <- gets clock ;;
  ret (Time_Sub now t).

(** [t.Unix()]: whole seconds since the epoch. *)
Definition Time_Unix (t : nat) : Z := (Z.of_nat t / 1000000000)%Z.

Definition IdleTime (client : ClientPtr) : M Z :=
  cl <- getClient client ;;
  Since (atime cl).

Definition SignonTime (client : ClientPtr) : M Z :=
  cl <- getClient client ;;
  ret (Time_Unix (ctime cl)).

(** *** Modes

    [UserMode] and its [String] method are declared outside client.go, and
    Go leaves open the order in which the loop visits the flags: both are
    parameters.  The loop ranges over the keys of [flags]. *)
Section Modes.
Context (UserMode_String : nat → string) (range_flags : gset nat → list nat).

Definition ModeString (c : Client) : string :=
  let str := foldl (λ str flag, str ++ UserMode_String flag) ""
                   (range_flags (flags c)) in
  if (0 <? String.length str)%nat then "+" ++ str else str.

End Modes.

(** *** What a schedule leaves alone *)

(** A relation between the values that a field, or a view [g] of the
    record, takes for client [c] before and after. *)
Definition field {A} (R : relation A) (g : Client → A) (c : ClientPtr)
    (w w' : World) : Prop :=
  R (g (deref w c)) (g (deref w' c)).

(** A step that is a call on [c]. *)
Definition calls (c : ClientPtr) (op : Op) : bool :=
  match target op with
  | Some x => bool_decide (x = c)
  | None => false
  end.

(** Kinds of steps. *)
Definition isActiveCall (op : Op) : bool :=
  match op with OpActive _ => true | _ => false end.
Definition isRegisterCall (op : Op) : bool :=
  match op with OpRegister _ => true | _ => false end.
Definition isWritePump (op : Op) : bool :=
  match op with OpWrite _ => true | _ => false end.
Definition isRename (op : Op) : bool :=
  match op with
  | OpSetNickname _ _ | OpChangeNickname _ _ => true
  | _ => false
  end.
Definition armsTimer (op : Op) : bool :=
  match op with OpTouch _ | OpIdle _ | OpRegister _ => true | _ => false end.
Definition isTimerCall (op : Op) : bool :=
  match op with
  | OpTouch _ | OpIdle _ | OpRegister _ | OpQuit _ _ | OpFire _ _ => true
  | _ => false
  end.
Definition isQuitCall (op : Op) : bool :=
  match op with OpQuit _ _ => true | _ => false end.
Definition noCall (op : Op) : bool := false.

(** [op] is neither [NewClient] at the address [c] nor a step of the kind
    [kind] on [c]. *)
Definition spares (kind : Op → bool) (c : ClientPtr) (op : Op) : Prop :=
  allocates c op = false ∧ (calls c op && kind op = false).

(** The fields that client.go writes in [NewClient] only. *)
Definition stamps (cl : Client) :=
  (ctime cl, username cl, hostname cl, realname cl, flags cl, hops cl,
   awayMessage cl).

Definition timers (cl : Client) := (loginTimer cl, idleTimer cl, quitTimer cl).

(** [Normal] is kept. *)
Definition settled (p p' : Phase) : Prop := p = Normal → p' = Normal.

(** Whether some timer of the client is pending. *)
Definition anyActive (cl : Client) : bool :=
  isActive (loginTimer cl) || isActive (idleTimer cl) || isActive (quitTimer cl).

(** No pending timer before, no pending timer after. *)
Definition hushed (b b' : bool) : Prop := b = false → b' = false.

(** [hasQuit] with the reply queue, and what holds of them once [hasQuit]
    is true: they stay as they are. *)
Definition outbox (cl : Client) : bool * list string := (hasQuit cl, replies cl).
Definition frozen (a b : bool * list string) : Prop := a.1 = true → b = a.

(** The steps that send on [server.commands]: a read pump running, a timer
    firing. *)
Definition enqueues (op : Op) : bool :=
  match op with
  | OpRead _ _ | OpFire _ _ => true
  | _ => false
  end.

(** [msg] carries the client whose read pump or timer the step [op] is. *)
Definition sentBy (op : Op) (msg : Command) : Prop :=
  enqueues op = true ∧ Command_client msg = target op.

(** [server.commands] gained commands that satisfy [P] only, at its tail. *)
Definition intake (P : Command → Prop) (w w' : World) : Prop :=
  ∃ more, commands w' = (commands w ++ more)%list ∧ Forall P more.

(** The channel set of [c] and the channels themselves are the same. *)
Definition circle (c : ClientPtr) (w w' : World) : Prop :=
  channels (deref w c) = channels (deref w' c) ∧ channelHeap w = channelHeap w'.

(** The two sides of channel membership agree. *)
Definition membershipAgrees (w : World) : Prop :=
  ∀ x ch, ch ∈ channels (deref w x) ↔ x ∈ members (derefChannel w ch).

Section Parsed.
Context `{Collaborators}.

(** The commands that the lines which parse give, each tagged with [c]. *)
Definition parsedOf (c : ClientPtr) (lines : list string) : list Command :=
  omap (λ line, match ParseCommand line with
                | inl msg => Some (SetClient c msg)
                | inr _ => None
                end) lines.

End Parsed.

(** ** A world to run examples in *)

Module Demo.

#[export] Instance demo : Collaborators := {|
  EOF := "";
  LOGIN_TIMEOUT := 30;
  IDLE_TIMEOUT := 60;
  QUIT_TIMEOUT := 60;
  DEBUG_CLIENT := true;
  InitPhase := PreNormal 0;
  IPString := λ a, a;
  LookupHostname := λ a, "host-" ++ a;
  ParseCommand := λ line,
    match SplitN2 line Ascii.Space with
    | [name] => if String.eqb name "PING" then inr NotEnoughArgsError
                else if String.eqb name "QUIT" then inl (QuitCommand None "")
                else inr (OtherParseError name)
    | name :: rest => inl (ParsedCommand None name rest)
    | [] => inr (OtherParseError "")
    end;
  RplError := λ m, "ERROR :" ++ m;
  RplPing := λ c, "PING " ++ Nick c;
  RplNick := λ c n, ":" ++ UserHost c ++ " NICK " ++ n;
  RplQuit := λ c m, ":" ++ UserHost c ++ " QUIT :" ++ m;
  RplNeedMoreParams := λ c v, "461 " ++ Nick c ++ " " ++ v ++ " :Not enough parameters";
  Socket_Write_fails := λ s line, String.eqb line "boom";
  range_clients := elements;
  range_channels := elements;
  range_clients_perm := λ s, reflexivity _;
  range_channels_perm := λ s, reflexivity _
|}.

Definition conn (n : string) : Conn := {| RemoteAddr := n |}.

(** Joining a channel is done outside client.go; the memberships of the
    example are put in place directly, on both sides. *)
Definition joined (channel : ChannelPtr) (client : ClientPtr) (w : World) : World :=
  set_clientHeap
    (<[client := set_channels ({[channel]} ∪ channels (deref w client))
                   (deref w client)]> (clientHeap w))
    (set_channelHeap
       (<[channel := {| members := {[client]} ∪ members (derefChannel w channel) |}]>
          (channelHeap w)) w).

Definition after (ops : list Op) (w : World) : World :=
  match run ops w with
  | Ok _ w' => w'
  | NilPanic => w
  end.

(** alice (1) and bob (2) are registered, carol (3) is not; alice and bob
    share channel 10, alice and carol share channel 11. *)
Definition world : World :=
  joined 11 3 (joined 11 1 (joined 10 2 (joined 10 1
    (after [OpNewClient 1 (conn "10.0.0.1"); OpNewClient 2 (conn "10.0.0.2");
            OpNewClient 3 (conn "10.0.0.3");
            OpSetNickname 1 "alice"; OpSetNickname 2 "bob";
            OpSetNickname 3 "carol"; OpRegister 1; OpRegister 2]
           emptyWorld)))).
End Demo.

(** ** Properties *)

Section Properties.
Context `{Collaborators}.
#[local] Open Scope list_scope.
#[local] Open Scope nat_scope.

(** *** Reading the heaps after an update *)

Lemma deref_insert w heap client cl :
  deref (set_clientHeap (<[client := cl]> heap) w) client = cl.
Proof. unfold deref; simpl. apply lookup_total_insert_eq. Qed.

Lemma deref_insert_ne w heap client other cl :
  client ≠ other →
  deref (set_clientHeap (<[client := cl]> heap) w) other = heap !!! other.
Proof. intros. unfold deref; simpl. by apply lookup_total_insert_ne. Qed.

Lemma range_clients_elem (s : ClientSet) x : x ∈ range_clients s ↔ x ∈ s.
Proof. rewrite (range_clients_perm s). apply elem_of_elements. Qed.

Lemma range_channels_elem (s : ChannelSet) x : x ∈ range_channels s ↔ x ∈ s.
Proof. rewrite (range_channels_perm s). apply elem_of_elements. Qed.

Lemma range_clients_NoDup (s : ClientSet) : NoDup (range_clients s).
Proof. rewrite (range_clients_perm s). apply NoDup_elements. Qed.

Lemma range_channels_NoDup (s : ChannelSet) : NoDup (range_channels s).
Proof. rewrite (range_channels_perm s). apply NoDup_elements. Qed.

Lemma range_clients_empty : range_clients ∅ = [].
Proof.
  apply Permutation_nil_r. rewrite (range_clients_perm ∅).
  by rewrite elements_empty.
Qed.

Lemma range_clients_set (s : ClientSet) : list_to_set (range_clients s) = s.
Proof.
  apply set_eq. intros x. rewrite elem_of_list_to_set.
  apply range_clients_elem.
Qed.

(** *** Friends *)

Lemma add_members_fold (l : list nat) (friends : ClientSet) :
  foldl (λ friends member, ClientSet_Add member friends) friends l
  = list_to_set l ∪ friends.
Proof.
  revert friends. induction l as [|m l IH]; intros friends; simpl.
  - set_solver.
  - rewrite IH. unfold ClientSet_Add. set_solver.
Qed.

Lemma add_channels_fold w (l : list nat) (friends : ClientSet) x :
  x ∈ foldl (λ friends channel,
               foldl (λ friends member, ClientSet_Add member friends) friends
                     (range_clients (members (derefChannel w channel))))
            friends l
  ↔ x ∈ friends ∨ ∃ channel, channel ∈ l ∧ x ∈ members (derefChannel w channel).
Proof.
  revert friends. induction l as [|ch l IH]; intros friends; simpl.
  - split; [by left|]. intros [?|(ch & Hch & _)]; [done|]. by inversion Hch.
  - rewrite IH, add_members_fold, range_clients_set. split.
    + intros [[Hx|Hx]%elem_of_union|(ch' & Hin & Hx)].
      * right. exists ch. split; [left|done].
      * by left.
      * right. exists ch'. split; [by right|done].
    + intros [Hx|(ch' & Hin & Hx)].
      * left. set_solver.
      * apply elem_of_cons in Hin as [->|Hin].
        -- left. set_solver.
        -- right. by exists ch'.
Qed.

Lemma Friends_of_elem w client x :
  x ∈ Friends_of w client
  ↔ x = client
    ∨ ∃ channel, channel ∈ channels (deref w client)
                 ∧ x ∈ members (derefChannel w channel).
Proof.
  unfold Friends_of. rewrite add_channels_fold. unfold ClientSet_Add.
  split.
  - intros [Hx|(ch & Hin & Hx)]; [left; set_solver|].
    right. exists ch. by rewrite <- range_channels_elem.
  - intros [->|(ch & Hin & Hx)]; [left; set_solver|].
    right. exists ch. by rewrite range_channels_elem.
Qed.

(** [Friends] only looks at the channel set of the client and at the
    channel heap. *)
Lemma Friends_of_ext w w' client :
  channels (deref w' client) = channels (deref w client) →
  channelHeap w' = channelHeap w →
  Friends_of w' client = Friends_of w client.
Proof.
  intros Hc Hh. unfold Friends_of, derefChannel. by rewrite Hc, Hh.
Qed.

(** C3: [Friends()] is the set made of the client itself and of every member
    of every channel in the client's channel set, each counted once: it
    never changes the world, membership is exactly "self, or a member of a
    joined channel", a client in the two channels [a] and [b] gets the union
    of their members plus itself, and a client in no channel gets the
    singleton of itself. *)
Theorem Friends_is_self_and_channel_members (w : World) (client : ClientPtr) :
  Friends client w = Ok (Friends_of w client) w
  ∧ (∀ x, x ∈ Friends_of w client
          ↔ x = client
            ∨ ∃ channel, channel ∈ channels (deref w client)
                         ∧ x ∈ members (derefChannel w channel))
  ∧ Friends_of w client
    = {[client]} ∪
      ⋃ ((λ channel, members (derefChannel w channel))
           <$> elements (channels (deref w client)))
  ∧ (∀ a b : ChannelPtr,
       channels (deref w client) = {[a; b]} →
       Friends_of w client
       = members (derefChannel w a) ∪ members (derefChannel w b) ∪ {[client]})
  ∧ (channels (deref w client) = ∅ → Friends_of w client = {[client]}).
Proof.
  split; [reflexivity|]. split; [apply Friends_of_elem|].
  split; [|split].
  - apply set_eq. intros x. rewrite Friends_of_elem, elem_of_union,
      elem_of_singleton, elem_of_union_list.
    split; (intros [->|Hx]; [by left|right]).
    + destruct Hx as (ch & Hin & Hx).
      exists (members (derefChannel w ch)). split; [|done].
      apply list_elem_of_fmap. exists ch. split; [done|].
      by apply elem_of_elements.
    + destruct Hx as (X & HX & Hx).
      apply list_elem_of_fmap in HX as (ch & -> & Hin).
      exists ch. split; [|done]. by apply elem_of_elements.
  - intros a b Hab. apply set_eq. intros x.
    rewrite Friends_of_elem, Hab. split.
    + intros [->|(ch & Hin & Hx)]; [set_solver|].
      apply elem_of_union in Hin as [Hin|Hin];
        apply elem_of_singleton in Hin; subst ch; set_solver.
    + intros [[Hx|Hx]%elem_of_union|Hx%elem_of_singleton]%elem_of_union.
      * right. exists a. split; [set_solver|done].
      * right. exists b. split; [set_solver|done].
      * by left.
  - intros Hnone. apply set_eq. intros x.
    rewrite Friends_of_elem, Hnone, elem_of_singleton.
    split; [|by left]. intros [->|(ch & Hin & _)]; [done|set_solver].
Qed.

(** *** Replies, departure from channels, destruction *)

Lemma deref_set_trace w t client : deref (set_trace t w) client = deref w client.
Proof. reflexivity. Qed.

Lemma deref_set_clients w t client : deref (set_clients t w) client = deref w client.
Proof. reflexivity. Qed.

Lemma deref_set_logged w t client : deref (set_logged t w) client = deref w client.
Proof. reflexivity. Qed.

Lemma deref_commit client cl events w :
  deref (commit client cl events w) client = cl.
Proof. unfold commit. by rewrite deref_set_trace, deref_insert. Qed.

Lemma deref_commit_ne client cl events w x :
  x ≠ client → deref (commit client cl events w) x = deref w x.
Proof.
  intros. unfold commit. by rewrite deref_set_trace, deref_insert_ne.
Qed.

Lemma commit_commit client cl1 ev1 cl2 ev2 w :
  commit client cl2 ev2 (commit client cl1 ev1 w)
  = commit client cl2 (ev1 ++ ev2) w.
Proof.
  unfold commit, set_trace, set_clientHeap; simpl.
  by rewrite insert_insert_eq, app_assoc.
Qed.

Lemma Reply_live client reply w :
  hasQuit (deref w client) = false →
  Reply client reply w
  = Ok tt (commit client (pushed [reply] (deref w client))
             [EvReply client reply] w).
Proof.
  intros Hlive. unfold Reply, bind, getClient, gets. rewrite Hlive.
  reflexivity.
Qed.

Lemma Reply_quit client reply w :
  hasQuit (deref w client) = true → Reply client reply w = Ok tt w.
Proof.
  intros Hq. unfold Reply, bind, getClient, gets. by rewrite Hq.
Qed.

Lemma forEach_Reply reply l w :
  ∃ w', forEach l (λ friend, Reply friend reply) w = Ok tt w'
    ∧ trace w' = trace w ++ map (λ f, EvReply f reply)
                               (filter (λ f, hasQuit (deref w f) = false) l)
    ∧ channelHeap w' = channelHeap w ∧ clients w' = clients w
    ∧ logged w' = logged w ∧ queues w' = queues w
    ∧ (∀ x, x ∉ l → deref w' x = deref w x)
    ∧ (∀ x, hasQuit (deref w x) = true → deref w' x = deref w x)
    ∧ (NoDup l → ∀ x, x ∈ l → hasQuit (deref w x) = false →
       deref w' x = pushed [reply] (deref w x)).
Proof.
  revert w. induction l as [|f l IH]; intros w.
  - exists w. simpl. rewrite app_nil_r. repeat split; try done.
    intros _ x Hx. by inversion Hx.
  - simpl. unfold bind at 1.
    destruct (hasQuit (deref w f)) eqn:Hf.
    + rewrite Reply_quit by done.
      destruct (IH w) as (w' & Hrun & Htr & Hch & Hcl & Hlog & Hq & Hout & Hgone & Hin).
      exists w'. rewrite filter_cons_False by congruence.
      repeat split; try done.
      * intros x Hx. apply Hout. intros ?. apply Hx. by right.
      * intros Hnd x Hx Hlive. apply NoDup_cons in Hnd as [_ Hnd].
        apply elem_of_cons in Hx as [->|Hx]; [congruence|]. by apply Hin.
    + rewrite Reply_live by done.
      set (w1 := commit _ _ _ _).
      assert (Hsame : ∀ x, hasQuit (deref w1 x) = hasQuit (deref w x)).
      { intros x. unfold w1, commit, deref at 1. simpl.
        destruct (decide (f = x)) as [->|Hne].
        - by rewrite lookup_total_insert_eq.
        - by rewrite lookup_total_insert_ne. }
      destruct (IH w1) as (w' & Hrun & Htr & Hch & Hcl & Hlog & Hq & Hout & Hgone & Hin).
      exists w'. rewrite filter_cons_True by done.
      split; [done|]. split.
      { rewrite Htr. unfold w1 at 1, commit. simpl. rewrite <- app_assoc. simpl.
        do 3 f_equal. apply list_filter_iff. intros x. by rewrite Hsame. }
      repeat split; try done.
      * intros x Hx. rewrite Hout by (intros ?; apply Hx; by right).
        unfold w1, commit, deref at 1. simpl. rewrite lookup_total_insert_ne; [done|].
        intros ->. apply Hx. by left.
      * intros x Hx. rewrite Hgone by (by rewrite Hsame).
        unfold w1, commit, deref at 1. simpl. rewrite lookup_total_insert_ne; [done|].
        intros ->. congruence.
      * intros Hnd x Hx Hlive. apply NoDup_cons in Hnd as [Hnotin Hnd].
        apply elem_of_cons in Hx as [->|Hx].
        -- rewrite Hout by done. unfold w1, commit, deref at 1. simpl.
           by rewrite lookup_total_insert_eq.
        -- rewrite Hin by (try done; by rewrite Hsame).
           unfold w1, commit, deref at 1. simpl. rewrite lookup_total_insert_ne; [done|].
           intros ->. done.
Qed.

Lemma set_channels_id cl s : s = channels cl → set_channels s cl = cl.
Proof. intros ->. by destruct cl. Qed.

Lemma forEach_Channel_Quit client chs w :
  ∃ w', forEach chs (λ channel, Channel_Quit channel client) w = Ok tt w'
    ∧ trace w' = trace w ++ map (λ channel, EvChannelQuit channel client) chs
    ∧ clients w' = clients w ∧ logged w' = logged w ∧ queues w' = queues w
    ∧ (∀ x, x ≠ client → deref w' x = deref w x)
    ∧ deref w' client
      = set_channels (channels (deref w client) ∖ list_to_set chs) (deref w client)
    ∧ (∀ ch, ch ∉ chs → derefChannel w' ch = derefChannel w ch)
    ∧ (∀ ch, ch ∈ chs →
       members (derefChannel w' ch)
       = ClientSet_Remove client (members (derefChannel w ch))).
Proof.
  revert w. induction chs as [|a l IH]; intros w.
  - exists w. simpl. rewrite app_nil_r. repeat split; try done.
    + symmetry. apply set_channels_id. set_solver.
    + intros ch Hch. by inversion Hch.
  - simpl. unfold bind at 1.
    unfold Channel_Quit at 1, bind, emit, modifyChannel, modifyClient, modify.
    set (w1 := set_clientHeap _ _).
    destruct (IH w1) as (w' & Hrun & Htr & Hcl & Hlog & Hq & Hother & Hself & Hout & Hin).
    exists w'. split; [done|]. split.
    { rewrite Htr. unfold w1. simpl. by rewrite <- app_assoc. }
    repeat split; try done.
    + intros x Hx. rewrite Hother by done. unfold w1.
      rewrite deref_insert_ne by done. done.
    + rewrite Hself. unfold w1. rewrite deref_insert. simpl.
      unfold set_channels; simpl. f_equal. set_solver.
    + intros ch Hch. rewrite Hout by (intros ?; apply Hch; by right).
      unfold w1, derefChannel. simpl. rewrite lookup_total_insert_ne; [done|].
      intros ->. apply Hch. by left.
    + intros ch Hch.
      assert (Ha : members (derefChannel w1 a)
                   = ClientSet_Remove client (members (derefChannel w a))).
      { unfold w1, derefChannel. simpl. by rewrite lookup_total_insert_eq. }
      assert (Hne : ∀ c', c' ≠ a → derefChannel w1 c' = derefChannel w c').
      { intros c' Hc'. unfold w1, derefChannel. simpl.
        by rewrite lookup_total_insert_ne. }
      destruct (decide (ch ∈ l)) as [Hl|Hl].
      * rewrite Hin by done. destruct (decide (ch = a)) as [->|Hca].
        -- rewrite Ha. unfold ClientSet_Remove. set_solver.
        -- by rewrite Hne.
      * rewrite Hout by done. apply elem_of_cons in Hch as [->|Hch]; [done|].
        done.
Qed.

Lemma bind_Ok {A B} (m : M A) (k : A → M B) w a w1 :
  m w = Ok a w1 → bind m k w = k a w1.
Proof. intros Hm. unfold bind. by rewrite Hm. Qed.

Lemma Timer_Stop_set client t tm w :
  getTimer t (deref w client) = Some tm →
  Timer_Stop client t w
  = Ok tt (commit client (setTimer t (stopped (Some tm)) (deref w client))
             [EvTimerStop client t] w).
Proof.
  intros Ht. unfold Timer_Stop, bind, getClient, gets. by rewrite Ht.
Qed.

Lemma destroy_spec client w lt :
  loginTimer (deref w client) = Some lt →
  let cl := deref w client in
  ∃ w', destroy client w = Ok tt w'
    ∧ trace w' = trace w
        ++ [EvDestroy client; EvTimerStop client loginTimerF]
        ++ (if idleTimer cl is Some _ then [EvTimerStop client idleTimerF] else [])
        ++ (if quitTimer cl is Some _ then [EvTimerStop client quitTimerF] else [])
        ++ map (λ channel, EvChannelQuit channel client)
               (range_channels (channels cl))
        ++ [EvRegistryRemove client (nick cl)]
    ∧ clients w' = delete (nick cl) (clients w)
    ∧ queues w' = queues w
    ∧ logged w' = logged w
        ++ (if DEBUG_CLIENT then [(String (destroyed cl) ++ ": destroyed")%string]
            else [])
    ∧ (∀ x, x ≠ client → deref w' x = deref w x)
    ∧ deref w' client = destroyed cl
    ∧ (∀ ch, ch ∉ channels cl → derefChannel w' ch = derefChannel w ch)
    ∧ (∀ ch, ch ∈ channels cl →
       members (derefChannel w' ch)
       = ClientSet_Remove client (members (derefChannel w ch))).
Proof.
  intros Hlogin cl. unfold destroy.
  unfold bind at 1, emit at 1, modify.
  erewrite bind_Ok; [|by apply Timer_Stop_set].
  set (w1 := commit _ _ _ _).
  assert (Hcl1 : deref w1 client = set_loginTimer (stopped (loginTimer cl)) cl).
  { unfold w1. rewrite deref_commit, deref_set_trace. fold cl.
    unfold cl. by rewrite Hlogin. }
  unfold bind at 1, getClient at 1, gets. rewrite Hcl1. cbn [idleTimer set_loginTimer].
  assert (∃ w2, (if idleTimer cl is Some _ then Timer_Stop client idleTimerF else ret tt) w1 = Ok tt w2
     ∧ trace w2 = trace w1 ++ (if idleTimer cl is Some _ then [EvTimerStop client idleTimerF] else [])
     ∧ deref w2 client = set_idleTimer (stopped (idleTimer cl)) (deref w1 client)
     ∧ (∀ x, x ≠ client → deref w2 x = deref w1 x)
     ∧ channelHeap w2 = channelHeap w1 ∧ clients w2 = clients w1
     ∧ logged w2 = logged w1 ∧ queues w2 = queues w1) as (w2 & Hrun2 & Htr2 & Hcl2 & Hoth2 & Hch2 & Hreg2 & Hlog2 & Hq2).
  { destruct (idleTimer cl) as [it|] eqn:Hidle.
    - eexists. split; [apply Timer_Stop_set; by rewrite Hcl1|].
      rewrite deref_commit. repeat split; try done.
      intros x Hx. by rewrite deref_commit_ne.
    - exists w1. split; [done|]. rewrite app_nil_r. repeat split; try done.
      rewrite Hcl1. unfold cl in *. destruct (deref w client); simpl in *.
      by subst. }
  erewrite bind_Ok by exact Hrun2.
  unfold bind at 1, getClient at 1, gets. rewrite Hcl2, Hcl1. cbn [quitTimer set_loginTimer set_idleTimer].
  assert (∃ w3, (if quitTimer cl is Some _ then Timer_Stop client quitTimerF else ret tt) w2 = Ok tt w3
     ∧ trace w3 = trace w2 ++ (if quitTimer cl is Some _ then [EvTimerStop client quitTimerF] else [])
     ∧ deref w3 client = set_quitTimer (stopped (quitTimer cl)) (deref w2 client)
     ∧ (∀ x, x ≠ client → deref w3 x = deref w2 x)
     ∧ channelHeap w3 = channelHeap w2 ∧ clients w3 = clients w2
     ∧ logged w3 = logged w2 ∧ queues w3 = queues w2) as (w3 & Hrun3 & Htr3 & Hcl3 & Hoth3 & Hch3 & Hreg3 & Hlog3 & Hq3).
  { destruct (quitTimer cl) as [qt|] eqn:Hquit.
    - eexists. split; [apply Timer_Stop_set; by rewrite Hcl2, Hcl1|].
      rewrite deref_commit. repeat split; try done.
      intros x Hx. by rewrite deref_commit_ne.
    - exists w2. split; [done|]. rewrite app_nil_r. repeat split; try done.
      rewrite Hcl2, Hcl1. unfold cl in *. destruct (deref w client); simpl in *.
      by subst. }
  erewrite bind_Ok by exact Hrun3.
  unfold bind at 1, getClient at 1, gets.
  assert (Hchans : channels (deref w3 client) = channels cl).
  { by rewrite Hcl3, Hcl2, Hcl1. }
  rewrite Hchans.
  destruct (forEach_Channel_Quit client (range_channels (channels cl)) w3)
    as (w4 & Hrun4 & Htr4 & Hreg4 & Hlog4 & Hq4 & Hoth4 & Hcl4 & Hout4 & Hin4).
  erewrite bind_Ok by exact Hrun4.
  assert (Hfinal : deref w4 client = destroyed cl).
  { rewrite Hcl4, Hcl3, Hcl2, Hcl1. unfold destroyed. unfold set_channels; simpl.
    f_equal. apply set_eq; intros x.
    rewrite elem_of_difference, elem_of_list_to_set, range_channels_elem.
    set_solver. }
  assert (Hnick : nick (destroyed cl) = nick cl) by done.
  assert (Htrace : trace w4 = trace w
        ++ [EvDestroy client; EvTimerStop client loginTimerF]
        ++ (if idleTimer cl is Some _ then [EvTimerStop client idleTimerF] else [])
        ++ (if quitTimer cl is Some _ then [EvTimerStop client quitTimerF] else [])
        ++ map (λ channel, EvChannelQuit channel client)
               (range_channels (channels cl))).
  { rewrite Htr4, Htr3, Htr2. unfold w1. simpl. by rewrite <- !app_assoc. }
  assert (Hothers : ∀ x, x ≠ client → deref w4 x = deref w x).
  { intros x Hx. rewrite Hoth4, Hoth3, Hoth2 by done. unfold w1.
    by rewrite deref_commit_ne. }
  assert (Hchan_out : ∀ ch, ch ∉ channels cl → derefChannel w4 ch = derefChannel w ch).
  { intros ch Hch. rewrite Hout4 by (by rewrite range_channels_elem).
    unfold derefChannel. by rewrite Hch3, Hch2. }
  assert (Hchan_in : ∀ ch, ch ∈ channels cl →
       members (derefChannel w4 ch) = ClientSet_Remove client (members (derefChannel w ch))).
  { intros ch Hch. rewrite Hin4 by (by rewrite range_channels_elem).
    unfold derefChannel. by rewrite Hch3, Hch2. }
  unfold bind at 1, ClientNameMap_Remove, bind, getClient, gets, emit, modify.
  rewrite Hfinal, Hnick.
  assert (Hqueues : queues w4 = queues w) by (by rewrite Hq4, Hq3, Hq2).
  clear Hq4 Hq3 Hq2.
  destruct DEBUG_CLIENT.
  - eexists. split; [reflexivity|].
    rewrite ?deref_set_clients, ?deref_set_trace, ?deref_set_logged, Hfinal.
    unfold derefChannel, queues in *. simpl in *.
    rewrite Htrace, Hreg4, Hreg3, Hreg2, Hlog4, Hlog3, Hlog2.
    repeat split; try done.
    by repeat (rewrite <- ?app_assoc; simpl).
  - eexists. split; [reflexivity|].
    rewrite ?deref_set_clients, ?deref_set_trace, ?deref_set_logged, Hfinal.
    unfold derefChannel, queues in *. simpl in *.
    rewrite Htrace, Hreg4, Hreg3, Hreg2, Hlog4, Hlog3, Hlog2, app_nil_r.
    repeat split; try done.
    by repeat (rewrite <- ?app_assoc; simpl).
Qed.

Lemma filter_agree {A} (P Q : A → Prop) `{∀ x, Decision (P x)} `{∀ x, Decision (Q x)}
    (l : list A) :
  (∀ x, x ∈ l → (P x ↔ Q x)) → filter P l = filter Q l.
Proof.
  induction l as [|a l IH]; intros Hpq; [done|].
  assert (Hl : filter P l = filter Q l).
  { apply IH. intros x Hx. apply Hpq. by right. }
  destruct (decide (P a)) as [Hp|Hp].
  - rewrite !filter_cons_True; [by rewrite Hl|..|done].
    apply Hpq; [by left|done].
  - rewrite !filter_cons_False; [done|..|done].
    intros Hq. apply Hp. apply Hpq; [by left|done].
Qed.

(** The first [Quit] on a client, in full. *)
Lemma Quit_spec (w : World) (client : ClientPtr) (message : string) :
  hasQuit (deref w client) = false →
  is_Some (loginTimer (deref w client)) →
  let cl := deref w client in
  let friends := ClientSet_Remove client (Friends_of w client) in
  ∃ w', Quit client message w = Ok tt w'
    ∧ trace w' = trace w
        ++ [EvReply client (RplError "connection closed"); EvReply client EOF;
            EvHasQuit client;
            EvDestroy client; EvTimerStop client loginTimerF]
        ++ (if idleTimer cl is Some _ then [EvTimerStop client idleTimerF] else [])
        ++ (if quitTimer cl is Some _ then [EvTimerStop client quitTimerF] else [])
        ++ map (λ channel, EvChannelQuit channel client)
               (range_channels (channels cl))
        ++ [EvRegistryRemove client (nick cl)]
        ++ map (λ friend, EvReply friend (RplQuit (quitted cl) message))
               (filter (λ friend, hasQuit (deref w friend) = false)
                       (range_clients friends))
    ∧ (client ∉ range_clients friends)
    ∧ (friends = ∅ ↔ range_clients friends = [])
    ∧ deref w' client = quitted cl
    ∧ clients w' = delete (nick cl) (clients w)
    ∧ (∀ ch, ch ∈ channels cl →
         members (derefChannel w' ch)
         = ClientSet_Remove client (members (derefChannel w ch)))
    ∧ (∀ friend, friend ∈ friends → hasQuit (deref w friend) = false →
         deref w' friend = pushed [RplQuit (quitted cl) message] (deref w friend))
    ∧ (∀ other, other ≠ client →
         other ∉ friends ∨ hasQuit (deref w other) = true →
         deref w' other = deref w other)
    ∧ queues w' = queues w.
Proof.
  intros Hlive [lt Hlogin] cl friends.
  assert (Hself : client ∉ range_clients friends).
  { rewrite range_clients_elem. unfold friends, ClientSet_Remove. set_solver. }
  assert (Hempty : friends = ∅ ↔ range_clients friends = []).
  { split; [intros ->; apply range_clients_empty|].
    intros Hnil. apply set_eq. intros x. rewrite <- range_clients_elem, Hnil.
    set_solver. }
  unfold Quit. unfold bind at 1, getClient at 1, gets. rewrite Hlive.
  erewrite bind_Ok; [|by apply Reply_live].
  erewrite bind_Ok; [|apply Reply_live; by rewrite deref_commit].
  unfold bind at 1, modifyClient at 1, modify.
  unfold bind at 1, emit at 1, modify.
  rewrite !deref_commit.
  set (wd := set_trace _ _).
  assert (Hcld : deref wd client
                 = set_hasQuit true (pushed [RplError "connection closed"; EOF] cl)).
  { unfold wd. rewrite deref_set_trace, deref_insert. unfold pushed; simpl.
    by rewrite <- app_assoc. }
  assert (Hothd : ∀ x, x ≠ client → deref wd x = deref w x).
  { intros x Hx. unfold wd. rewrite deref_set_trace, deref_insert_ne by done.
    simpl. rewrite !lookup_total_insert_ne by done. done. }
  unfold bind at 1, Friends at 1, gets.
  rewrite (Friends_of_ext w wd) by (by rewrite ?Hcld).
  fold friends.
  destruct (destroy_spec client wd lt) as
    (w5 & Hrun5 & Htr5 & Hreg5 & Hq5 & Hlog5 & Hoth5 & Hcl5 & Hout5 & Hin5);
    [by rewrite Hcld|].
  rewrite Hcld in Htr5, Hreg5, Hcl5, Hout5, Hin5. simpl in Htr5, Hreg5, Hout5, Hin5.
  fold (quitted cl) in Hcl5.
  erewrite bind_Ok by exact Hrun5.
  destruct (forEach_Reply (RplQuit (quitted cl) message) (range_clients friends) w5)
    as (w6 & Hrun6 & Htr6 & Hch6 & Hreg6 & Hlog6 & Hq6 & Hout6 & Hgone6 & Hin6).
  assert (Hfilter :
    filter (λ f, hasQuit (deref w5 f) = false) (range_clients friends)
    = filter (λ f, hasQuit (deref w f) = false) (range_clients friends)).
  { apply filter_agree. intros x Hx.
    assert (x ≠ client) by (intros ->; done).
    by rewrite Hoth5, Hothd. }
  assert (Htrace5 : trace w5 = trace w
        ++ [EvReply client (RplError "connection closed"); EvReply client EOF;
            EvHasQuit client;
            EvDestroy client; EvTimerStop client loginTimerF]
        ++ (if idleTimer cl is Some _ then [EvTimerStop client idleTimerF] else [])
        ++ (if quitTimer cl is Some _ then [EvTimerStop client quitTimerF] else [])
        ++ map (λ channel, EvChannelQuit channel client)
               (range_channels (channels cl))
        ++ [EvRegistryRemove client (nick cl)]).
  { rewrite Htr5. unfold wd. simpl. by repeat (rewrite <- ?app_assoc; simpl). }
  assert (Hmembers5 : ∀ ch, ch ∈ channels cl →
         members (derefChannel w5 ch)
         = ClientSet_Remove client (members (derefChannel w ch))).
  { intros ch Hch. by rewrite Hin5. }
  destruct (0 <? size friends)%nat eqn:Hsize.
  - unfold bind at 1, getClient at 1, gets. rewrite Hcl5, Hrun6.
    exists w6. split; [done|]. split.
    { rewrite Htr6, Hfilter, Htrace5. by repeat (rewrite <- ?app_assoc; simpl). }
    split; [done|]. split; [done|]. split.
    { by rewrite Hout6. }
    split; [by rewrite Hreg6|]. split.
    { intros ch Hch. unfold derefChannel. rewrite Hch6. by apply Hmembers5. }
    split; [|split].
    + intros f Hf Hflive.
      assert (f ≠ client) by (unfold friends, ClientSet_Remove in Hf; set_solver).
      rewrite Hin6; [by rewrite Hoth5, Hothd|apply range_clients_NoDup|
                     by rewrite range_clients_elem|by rewrite Hoth5, Hothd].
    + intros x Hx [Hnot|Hgone].
      * rewrite Hout6 by (by rewrite range_clients_elem).
        by rewrite Hoth5, Hothd.
      * rewrite Hgone6 by (by rewrite Hoth5, Hothd). by rewrite Hoth5, Hothd.
    + by rewrite Hq6, Hq5.
  - assert (Hnone : friends = ∅).
    { apply Nat.ltb_ge in Hsize. apply leibniz_equiv, size_empty_iff. lia. }
    exists w5. split; [done|]. split.
    { rewrite Htrace5. rewrite (proj1 Hempty Hnone). simpl.
      by repeat (rewrite <- ?app_assoc, ?app_nil_r; simpl). }
    split; [done|]. split; [done|]. split; [done|]. split; [done|].
    split; [done|]. split; [|split].
    + intros f Hf. rewrite Hnone in Hf. set_solver.
    + intros x Hx _. by rewrite Hoth5, Hothd.
    + by rewrite Hq5.
Qed.

(** *** Room in the reply queues *)






(** *** Timers *)

Lemma clock_commit client cl events w : clock (commit client cl events w) = clock w.
Proof. reflexivity. Qed.

Lemma AfterFunc_spec client t d f w :
  AfterFunc client t d f w
  = Ok tt (commit client
             (setTimer t (Some {| fn := f; when := clock w + d; active := true |})
                       (deref w client))
             [EvAfterFunc client t d f] w).
Proof. reflexivity. Qed.

Lemma Timer_Reset_set client t d tm w :
  getTimer t (deref w client) = Some tm →
  Timer_Reset client t d w
  = Ok tt (commit client
             (setTimer t (Some {| fn := fn tm; when := clock w + d; active := true |})
                       (deref w client))
             [EvTimerReset client t d] w).
Proof.
  intros Ht. unfold Timer_Reset, bind, getClient, gets. by rewrite Ht.
Qed.

Lemma Touch_spec client w :
  let cl := deref w client in
  Touch client w
  = Ok tt (commit client (touched (clock w) cl) (touchEvents client cl) w).
Proof.
  intros cl. unfold Touch. unfold bind at 1, getClient at 1, gets. fold cl.
  destruct (quitTimer cl) as [qt|] eqn:Hq.
  - erewrite bind_Ok; [|by apply Timer_Stop_set].
    unfold bind at 1, getClient at 1, gets. rewrite deref_commit.
    fold cl. cbn [setTimer idleTimer set_quitTimer].
    destruct (idleTimer cl) as [it|] eqn:Hi.
    + erewrite Timer_Reset_set by (rewrite deref_commit; exact Hi).
      rewrite commit_commit, deref_commit, clock_commit.
      unfold touched, touchEvents. by rewrite Hq, Hi.
    + rewrite AfterFunc_spec.
      rewrite commit_commit, deref_commit, clock_commit.
      unfold touched, touchEvents. by rewrite Hq, Hi.
  - unfold bind at 1, ret. unfold bind at 1, getClient at 1, gets. fold cl.
    assert (Hsame : set_quitTimer (stopped (quitTimer cl)) cl = cl).
    { rewrite Hq. unfold cl in *. by destruct (deref w client); simpl in *; subst. }
    destruct (idleTimer cl) as [it|] eqn:Hi.
    + erewrite Timer_Reset_set by exact Hi.
      unfold touched, touchEvents. rewrite Hsame. by rewrite Hq, Hi.
    + rewrite AfterFunc_spec.
      unfold touched, touchEvents. rewrite Hsame. by rewrite Hq, Hi.
Qed.

Lemma Idle_spec client w :
  let cl := deref w client in
  Idle client w
  = Ok tt (if hasQuit cl
           then commit client (quitArmed (clock w) cl) [quitArmEvent client cl] w
           else commit client (quitArmed (clock w) (pushed [RplPing cl] cl))
                       [EvReply client (RplPing cl); quitArmEvent client cl] w).
Proof.
  intros cl. unfold Idle. unfold bind at 1, getClient at 1, gets. fold cl.
  destruct (hasQuit cl) eqn:Hquit.
  - erewrite bind_Ok; [|by apply Reply_quit].
    unfold bind at 1, getClient at 1, gets. fold cl.
    destruct (quitTimer cl) as [qt|] eqn:Hq.
    + erewrite Timer_Reset_set by exact Hq.
      unfold quitArmed, quitArmEvent. by rewrite Hq.
    + rewrite AfterFunc_spec. unfold quitArmed, quitArmEvent. by rewrite Hq.
  - erewrite bind_Ok; [|by apply Reply_live].
    unfold bind at 1, getClient at 1, gets. rewrite deref_commit. fold cl.
    cbn [quitTimer pushed set_replies].
    destruct (quitTimer cl) as [qt|] eqn:Hq.
    + erewrite Timer_Reset_set by (rewrite deref_commit; exact Hq).
      rewrite commit_commit, deref_commit, clock_commit.
      unfold quitArmed, quitArmEvent. cbn [quitTimer pushed set_replies].
      by rewrite Hq.
    + rewrite AfterFunc_spec.
      rewrite commit_commit, deref_commit, clock_commit.
      unfold quitArmed, quitArmEvent. cbn [quitTimer pushed set_replies].
      by rewrite Hq.
Qed.

Lemma modifyClient_emit {A} client f e (k : M A) w :
  bind (modifyClient client f) (λ _, bind (emit e) (λ _, k)) w
  = k (commit client (f (deref w client)) [e] w).
Proof. reflexivity. Qed.

Lemma Register_spec client w :
  let cl := deref w client in
  is_Some (loginTimer cl) →
  Register client w
  = Ok tt (commit client (registered (clock w) cl)
             ([EvSetPhase client Normal; EvTimerStop client loginTimerF]
              ++ touchEvents client cl) w).
Proof.
  intros cl [lt Hlt]. unfold Register.
  rewrite modifyClient_emit. fold cl.
  erewrite bind_Ok; [|apply Timer_Stop_set; rewrite deref_commit; exact Hlt].
  rewrite commit_commit, deref_commit.
  rewrite Touch_spec, commit_commit, deref_commit, clock_commit.
  unfold registered. rewrite Hlt. by rewrite <- app_assoc.
Qed.

Lemma Register_nil client w :
  loginTimer (deref w client) = None → Register client w = NilPanic.
Proof.
  intros Hnil. unfold Register.
  rewrite modifyClient_emit.
  unfold bind at 1, Timer_Stop, bind, getClient, gets.
  rewrite deref_commit. cbn [getTimer loginTimer set_phase].
  by rewrite Hnil.
Qed.

Lemma fire_spec client t w :
  fire client t w
  = match getTimer t (deref w client) with
    | Some tm => if due (clock w) tm then Ok true (fired client t tm w)
                 else Ok false w
    | None => Ok false w
    end.
Proof.
  unfold fire, bind, getClient, gets.
  destruct (getTimer t (deref w client)) as [tm|]; [|done].
  destruct (due (clock w) tm); [|done].
  unfold fired. cbn [stopped]. by destruct (fn tm).
Qed.

Lemma deref_fired client t tm w :
  deref (fired client t tm w) client
  = setTimer t (stopped (Some tm)) (deref w client).
Proof.
  unfold fired. destruct (fn tm); unfold deref; simpl;
    by rewrite lookup_total_insert_eq.
Qed.

Lemma deref_fired_ne client t tm w x :
  x ≠ client → deref (fired client t tm w) x = deref w x.
Proof.
  intros. unfold fired. destruct (fn tm); unfold deref; simpl;
    by rewrite lookup_total_insert_ne.
Qed.

Lemma isActive_stopped t : isActive (stopped t) = false.
Proof. by destruct t. Qed.

Lemma NewClient_spec client conn w :
  NewClient client conn w
  = Ok client
      (commit client
         {| atime := clock w; awayMessage := ""; channels := ∅;
            ctime := clock w; flags := ∅; hasQuit := false; hops := 0;
            hostname := "";
            idleTimer := None;
            loginTimer := Some {| fn := connectionTimeoutFunc;
                                  when := clock w + LOGIN_TIMEOUT;
                                  active := true |};
            lookups := [IPString (RemoteAddr conn)]; nick := "";
            phase := InitPhase; quitTimer := None; realname := "";
            replies := []; socket := NewSocket conn; username := "" |}
         [EvAfterFunc client loginTimerF LOGIN_TIMEOUT connectionTimeoutFunc] w).
Proof.
  unfold NewClient, bind, gets, modifyClient, modify, AfterFunc, emit, ret.
  f_equal. unfold commit, deref. simpl.
  rewrite !lookup_total_insert_eq. simpl.
  unfold set_trace, set_clientHeap; simpl. by rewrite !insert_insert_eq.
Qed.

(** *** Renaming *)

(** [ChangeNickname], step by step. *)
Lemma ChangeNickname_spec (w : World) (client : ClientPtr) (nickname : string) :
  let cl := deref w client in
  let notice := RplNick cl nickname in
  let friends := Friends_of w client in
  ∃ w1 w2 w3 w',
    ClientNameMap_Remove client w = Ok tt w1
    ∧ bind (modifyClient client (set_nick nickname))
           (λ _, emit (EvSetNick client nickname)) w1 = Ok tt w2
    ∧ ClientNameMap_Add client w2 = Ok tt w3
    ∧ forEach (range_clients friends) (λ friend, Reply friend notice) w3
      = Ok tt w'
    ∧ ChangeNickname client nickname w = Ok tt w'
    ∧ (nick (deref w1 client) = nick cl
       ∧ clients w1 = delete (nick cl) (clients w))
    ∧ (nick (deref w2 client) = nickname ∧ clients w2 = clients w1)
    ∧ (nick (deref w3 client) = nickname
       ∧ clients w3 = <[nickname := client]> (clients w1))
    ∧ (nick (deref w' client) = nickname ∧ clients w' = clients w3)
    ∧ ((∀ key, clients w !! key = Some client → key = nick cl) →
       (∀ key, clients w1 !! key ≠ Some client)
       ∧ (∀ key, clients w3 !! key = Some client ↔ key = nickname))
    ∧ trace w' = trace w
        ++ [EvRegistryRemove client (nick cl); EvSetNick client nickname;
            EvRegistryAdd client nickname]
        ++ map (λ friend, EvReply friend notice)
               (filter (λ friend, hasQuit (deref w friend) = false)
                       (range_clients friends))
    ∧ client ∈ range_clients friends
    ∧ (∀ friend, friend ∈ friends → hasQuit (deref w friend) = false →
       replies (deref w' friend) = replies (deref w friend) ++ [notice])
    ∧ (∀ other, other ≠ client →
       other ∉ friends ∨ hasQuit (deref w other) = true →
       deref w' other = deref w other).
Proof.
  intros cl notice friends.
  set (w1 := set_clients (delete (nick cl) (clients w))
               (set_trace (trace w ++ [EvRegistryRemove client (nick cl)]) w)).
  set (w2 := commit client (set_nick nickname cl) [EvSetNick client nickname] w1).
  set (w3 := set_clients (<[nickname := client]> (clients w2))
               (set_trace (trace w2 ++ [EvRegistryAdd client nickname]) w2)).
  assert (Hself : client ∈ friends) by (apply Friends_of_elem; by left).
  assert (Hcl3 : deref w3 client = set_nick nickname cl).
  { unfold w3. rewrite deref_set_clients, deref_set_trace. apply deref_commit. }
  assert (Hoth3 : ∀ x, x ≠ client → deref w3 x = deref w x).
  { intros x Hx. unfold w3. rewrite deref_set_clients, deref_set_trace.
    unfold w2. by rewrite deref_commit_ne. }
  assert (Hq3 : ∀ x, hasQuit (deref w3 x) = hasQuit (deref w x)).
  { intros x. destruct (decide (x = client)) as [->|Hne].
    - by rewrite Hcl3. - by rewrite Hoth3. }
  assert (Hfr : Friends_of w3 client = friends).
  { apply Friends_of_ext; [by rewrite Hcl3|done]. }
  destruct (forEach_Reply notice (range_clients friends) w3)
    as (w' & Hrun & Htr & Hch & Hreg & Hlog & Hq & Hout & Hgone & Hin).
  exists w1, w2, w3, w'.
  assert (Hadd : ClientNameMap_Add client w2 = Ok tt w3).
  { unfold ClientNameMap_Add, bind, getClient, gets, emit, modify.
    assert (Hd : deref w2 client = set_nick nickname cl) by apply deref_commit.
    by rewrite Hd. }
  split; [reflexivity|]. split; [reflexivity|]. split; [exact Hadd|].
  split; [exact Hrun|]. split.
  { unfold ChangeNickname. unfold bind at 1, getClient at 1, gets.
    fold cl. fold notice.
    assert (Hrm : ClientNameMap_Remove client w = Ok tt w1) by reflexivity.
    erewrite bind_Ok by exact Hrm.
    rewrite modifyClient_emit.
    assert (Hw2 : commit client (set_nick nickname (deref w1 client))
                    [EvSetNick client nickname] w1 = w2) by reflexivity.
    rewrite Hw2.
    erewrite bind_Ok by exact Hadd.
    unfold bind, Friends, gets. by rewrite Hfr. }
  split; [done|]. split.
  { split; [|done]. unfold w2. by rewrite deref_commit. }
  split; [by rewrite Hcl3|].
  assert (Hnick' : nick (deref w' client) = nickname).
  { destruct (hasQuit (deref w client)) eqn:Hquit.
    - rewrite Hgone by (by rewrite Hq3). by rewrite Hcl3.
    - rewrite Hin; [by rewrite Hcl3|apply range_clients_NoDup|
                    by apply range_clients_elem|by rewrite Hq3]. }
  split; [done|]. split.
  { intros Honly. split.
    - intros key Hkey. unfold w1 in Hkey. simpl in Hkey.
      destruct (decide (key = nick cl)) as [->|Hne].
      + by rewrite lookup_delete_eq in Hkey.
      + rewrite lookup_delete_ne in Hkey by done. by apply Honly in Hkey.
    - intros key. unfold w3, w2, w1. simpl.
      destruct (decide (key = nickname)) as [->|Hne].
      + by rewrite lookup_insert_eq.
      + rewrite lookup_insert_ne by done. split; [|done]. intros Hkey.
        destruct (decide (key = nick cl)) as [->|Hne'].
        * by rewrite lookup_delete_eq in Hkey.
        * rewrite lookup_delete_ne in Hkey by done. by apply Honly in Hkey. }
  split.
  { assert (Hfilter :
      filter (λ f, hasQuit (deref w3 f) = false) (range_clients friends)
      = filter (λ f, hasQuit (deref w f) = false) (range_clients friends)).
    { apply list_filter_iff. intros x. by rewrite Hq3. }
    rewrite Htr, Hfilter. unfold w3, w2, w1. simpl.
    by repeat (rewrite <- ?app_assoc; simpl). }
  split; [by apply range_clients_elem|]. split.
  - intros f Hf Hlive. rewrite Hin; [|apply range_clients_NoDup|
      by apply range_clients_elem|by rewrite Hq3].
    destruct (decide (f = client)) as [->|Hne].
    + by rewrite Hcl3.
    + by rewrite Hoth3.
  - intros x Hne Hx.
    assert (Hsame : deref w' x = deref w3 x).
    { destruct Hx as [Hx|Hx].
      - apply Hout. by rewrite range_clients_elem.
      - apply Hgone. by rewrite Hq3. }
    rewrite Hsame. by apply Hoth3.
Qed.


(** *** The pumps *)

Lemma onlyClient_commit client cl events w :
  onlyClient client cl events w (commit client cl events w).
Proof.
  split; [apply deref_commit|]. split; [intros; by apply deref_commit_ne|].
  done.
Qed.

Lemma onlyClient_trans client cl1 ev1 cl2 ev2 w w1 w2 :
  onlyClient client cl1 ev1 w w1 → onlyClient client cl2 ev2 w1 w2 →
  onlyClient client cl2 (ev1 ++ ev2) w w2.
Proof.
  intros (H1 & H2 & H3 & H4 & H5 & H6 & H7) (G1 & G2 & G3 & G4 & G5 & G6 & G7).
  split; [done|]. split; [intros x Hx; by rewrite G2, H2|].
  split; [by rewrite G3, H3, app_assoc|].
  repeat split; congruence.
Qed.

(** **** The read pump *)

Lemma cut_spec sep s :
  match cut sep s with
  | Some (before, after) =>
      s = (before ++ String.String sep after)%string
      ∧ ∀ a b, before ≠ (a ++ String.String sep b)%string
  | None => ∀ a b, s ≠ (a ++ String.String sep b)%string
  end.
Proof.
  induction s as [|c s IH]; simpl.
  - intros [|? ?] b; discriminate.
  - destruct (Ascii.eqb_spec c sep) as [->|Hne].
    + split; [done|]. intros [|? ?] b; discriminate.
    + destruct (cut sep s) as [[before after]|].
      * destruct IH as [-> Hno]. split; [done|].
        intros [|a0 a] b; simpl.
        -- intros Heq. injection Heq as Hc _. by apply Hne.
        -- intros Heq. injection Heq as _ Heq. by apply Hno in Heq.
      * intros [|a0 a] b; simpl.
        -- intros Heq. injection Heq as Hc _. by apply Hne.
        -- intros Heq. injection Heq as _ Heq. by apply IH in Heq.
Qed.

Lemma SplitN2_verb line :
  let verb := hd ""%string (SplitN2 line Ascii.Space) in
  (line = verb ∨ ∃ tail, line = (verb ++ String.String Ascii.Space tail)%string)
  ∧ ∀ a b, verb ≠ (a ++ String.String Ascii.Space b)%string.
Proof.
  unfold SplitN2. pose proof (cut_spec Ascii.Space line) as Hcut.
  destruct (cut Ascii.Space line) as [[before after]|]; simpl.
  - destruct Hcut as [-> Hno]. split; [right; by exists after|done].
  - split; [by left|done].
Qed.

Lemma readLoop_lookup client rest w :
  readLoop client (ReadyLookup :: rest) w
  = readLoop client rest (lookupForwarded client w).
Proof.
  simpl. unfold bind at 1. unfold bind at 1, getClient at 1, gets.
  unfold lookupForwarded. by destruct (lookups (deref w client)).
Qed.

Lemma readLoop_EOF client rest w :
  readLoop client (ReadyLine EOF :: rest) w = Ok (Some rest) w.
Proof. simpl. by rewrite String.eqb_refl. Qed.

Lemma readLoop_line client line rest w :
  line ≠ EOF →
  readLoop client (ReadyLine line :: rest) w
  = readLoop client rest (lineHandled client line w).
Proof.
  intros Hline. apply String.eqb_neq in Hline. simpl. rewrite Hline.
  unfold lineHandled. destruct (ParseCommand line) as [msg|[|e]]; try done.
  unfold bind at 1, ErrNeedMoreParams, bind at 1, getClient at 1, gets.
  destruct (hasQuit (deref w client)) eqn:Hq.
  - by rewrite Reply_quit.
  - by rewrite Reply_live.
Qed.

Lemma readLoop_total client ready w :
  ∃ r w', readLoop client ready w = Ok r w'.
Proof.
  revert w. induction ready as [|[|line] rest IH]; intros w.
  - by eexists _, _.
  - rewrite readLoop_lookup. apply IH.
  - destruct (decide (line = EOF)) as [->|Hline].
    + rewrite readLoop_EOF. by eexists _, _.
    + rewrite readLoop_line by done. apply IH.
Qed.

Lemma readLoop_until_EOF client pre rest w :
  ReadyLine EOF ∉ pre →
  ∃ w1, readLoop client pre w = Ok None w1
        ∧ readLoop client (pre ++ ReadyLine EOF :: rest) w = Ok (Some rest) w1.
Proof.
  revert w. induction pre as [|[|line] pre IH]; intros w Hno.
  - exists w. split; [done|]. apply readLoop_EOF.
  - rewrite <- app_comm_cons, !readLoop_lookup. apply IH.
    intros ?. apply Hno. by right.
  - assert (Hline : line ≠ EOF) by (intros ->; apply Hno; by left).
    rewrite <- app_comm_cons, !readLoop_line by done. apply IH.
    intros ?. apply Hno. by right.
Qed.

(** C6: what the read pump does with a line that is not the end marker.
    A line that parses is tagged with this client and sent on
    [server.commands], and the loop goes on with the rest.  A parse failure
    classified "not enough arguments" makes exactly one call of [Reply] on
    the client, with the error rendered for the verb, and the loop goes on;
    on a client that has not quit that is exactly one line on its reply
    queue and nothing on [server.commands].  The verb is the part of the
    raw line before its first space.  Any other parse failure changes
    nothing and the loop goes on. *)
Theorem readCommands_per_line (client : ClientPtr) (line : string)
    (rest : list Ready) (w : World) :
  line ≠ EOF →
  (∀ msg, ParseCommand line = inl msg →
     readLoop client (ReadyLine line :: rest) w
     = readLoop client rest (sent (SetClient client msg) w)
     ∧ Command_client (SetClient client msg) = Some client)
  ∧ (ParseCommand line = inr NotEnoughArgsError →
     let verb := hd ""%string (SplitN2 line Ascii.Space) in
     let reply := RplNeedMoreParams (deref w client) verb in
     readLoop client (ReadyLine line :: rest) w
     = bind (Reply client reply) (λ _, readLoop client rest) w
     ∧ (hasQuit (deref w client) = false →
        readLoop client (ReadyLine line :: rest) w
        = readLoop client rest
            (commit client (pushed [reply] (deref w client))
                    [EvReply client reply] w)
        ∧ commands (commit client (pushed [reply] (deref w client))
                           [EvReply client reply] w) = commands w)
     ∧ (line = verb
        ∨ ∃ tail, line = (verb ++ String.String Ascii.Space tail)%string)
     ∧ (∀ a b, verb ≠ (a ++ String.String Ascii.Space b)%string))
  ∧ (∀ e, ParseCommand line = inr (OtherParseError e) →
     readLoop client (ReadyLine line :: rest) w = readLoop client rest w).
Proof.
  intros Hline. rewrite readLoop_line by done. unfold lineHandled.
  split; [|split].
  - intros msg Hparse. rewrite Hparse. split; [done|]. by destruct msg.
  - intros Hparse. cbv zeta. rewrite Hparse. split; [|split].
    + unfold bind. destruct (hasQuit (deref w client)) eqn:Hq.
      * by rewrite Reply_quit.
      * by rewrite Reply_live.
    + intros Hlive. by rewrite Hlive.
    + apply SplitN2_verb.
  - intros e Hparse. by rewrite Hparse.
Qed.


(** **** The write pump *)

Lemma writeLoop_end client w : writeLoop client [] w = Ok false w.
Proof. reflexivity. Qed.

Lemma writeLoop_EOF client rest w :
  writeLoop client (EOF :: rest) w
  = Ok true (commit client
               (set_replies (tail (replies (deref w client))) (deref w client))
               [] w).
Proof.
  simpl. unfold bind, modifyClient, modify. rewrite String.eqb_refl.
  unfold ret, commit. simpl. unfold set_trace; simpl. by rewrite app_nil_r.
Qed.

Lemma writeLoop_write client line rest w :
  line ≠ EOF →
  let cl := deref w client in
  writeLoop client (line :: rest) w
  = if Socket_Write_fails (socket cl) line
    then Ok true (commit client (set_replies (tail (replies cl)) cl)
                         [EvSocketWrite client line true] w)
    else writeLoop client rest
           (commit client
              (set_socket (wrote [line] (socket cl))
                          (set_replies (tail (replies cl)) cl))
              [EvSocketWrite client line false] w).
Proof.
  intros Hline cl. apply String.eqb_neq in Hline. simpl.
  unfold bind at 1, modifyClient at 1, modify. rewrite Hline.
  cbv beta iota delta [bind modifyClient modify Socket_Write getClient gets emit ret].
  rewrite !deref_insert. fold cl. cbn [socket set_replies].
  destruct (Socket_Write_fails (socket cl) line) eqn:Hfail.
  - done.
  - rewrite ?deref_insert. f_equal.
    unfold commit, wrote. simpl. unfold set_trace, set_clientHeap; simpl.
    by rewrite insert_insert_eq.
Qed.

Lemma Socket_Close_spec client w :
  Socket_Close client w
  = Ok tt (commit client
             (set_socket {| written := written (socket (deref w client));
                            closed := S (closed (socket (deref w client))) |}
                         (deref w client))
             [EvSocketClose client] w).
Proof. reflexivity. Qed.

Lemma writeLoop_writable client pre post w :
  let cl := deref w client in
  replies cl = pre ++ post →
  writable (socket cl) pre = true →
  ∃ w1, writeLoop client (pre ++ post) w = writeLoop client post w1
    ∧ onlyClient client
        (set_socket (wrote pre (socket cl)) (set_replies post cl))
        (map (λ line, EvSocketWrite client line false) pre) w w1.
Proof.
  revert w. induction pre as [|line pre IH]; intros w cl Hq Hok.
  - exists w. split; [done|]. split; [|split; [done|split; [|done]]].
    + unfold cl in *. destruct (deref w client) as [? ? ? ? ? ? ? ? ? ? ? ? ? ? ? ? [? ?] ?].
      simpl in *. subst. unfold set_socket, wrote; simpl. by rewrite app_nil_r.
    + simpl. by rewrite app_nil_r.
  - simpl in Hok. apply andb_true_iff in Hok as [Hok Hrest].
    apply andb_true_iff in Hok as [Hline Hwrite].
    apply negb_true_iff in Hline, Hwrite. apply String.eqb_neq in Hline.
    rewrite <- app_comm_cons, writeLoop_write by done. fold cl. rewrite Hwrite.
    set (w0 := commit _ _ _ w).
    destruct (IH w0) as (w1 & Hrun & Honly).
    { unfold w0. rewrite deref_commit. simpl. by rewrite Hq. }
    { unfold w0. by rewrite deref_commit. }
    exists w1. split; [done|].
    pose proof (onlyClient_trans _ _ _ _ _ _ _ _
                  (onlyClient_commit client _ _ w) Honly) as Hboth.
    unfold w0 in Hboth. rewrite deref_commit in Hboth.
    simpl in Hboth. simpl.
    replace (wrote (line :: pre) (socket cl))
      with (wrote pre (wrote [line] (socket cl)));
      [exact Hboth|].
    unfold wrote; simpl. by rewrite <- app_assoc.
Qed.

Lemma writable_cases (s : Socket) (queued : list string) :
  writable s queued = true
  ∨ (∃ pre post, queued = pre ++ EOF :: post ∧ writable s pre = true)
  ∨ (∃ pre line post, queued = pre ++ line :: post ∧ writable s pre = true
       ∧ line ≠ EOF ∧ Socket_Write_fails (wrote pre s) line = true).
Proof.
  revert s. induction queued as [|line rest IH]; intros s; [by left|].
  destruct (decide (line = EOF)) as [->|Hline].
  { right; left. by exists [], rest. }
  destruct (Socket_Write_fails s line) eqn:Hfail.
  { right; right. exists [], line, rest. repeat split; try done.
    destruct s. unfold wrote; simpl. by rewrite app_nil_r. }
  assert (Hhead : negb (String.eqb line EOF) && negb (Socket_Write_fails s line)
                  = true).
  { rewrite Hfail. apply String.eqb_neq in Hline. by rewrite Hline. }
  destruct (IH (wrote [line] s)) as [Hall|[(pre & post & -> & Hpre)
                                          |(pre & x & post & -> & Hpre & Hx & Hf)]].
  - left. simpl. by rewrite Hhead, Hall.
  - right; left. exists (line :: pre), post. split; [done|].
    simpl. by rewrite Hhead, Hpre.
  - right; right. exists (line :: pre), x, post. split; [done|].
    split; [simpl; by rewrite Hhead, Hpre|]. split; [done|].
    replace (wrote (line :: pre) s) with (wrote pre (wrote [line] s)); [done|].
    unfold wrote; simpl. by rewrite <- app_assoc.
Qed.

(** C8: the write pump takes the items of the reply queue from the head and
    writes them to the socket in that order.  It returns at the first item
    that is the end marker, or at the first write that fails; either way
    the last thing it does is to close the socket, once.  While neither has
    happened it has written the whole queue, has not closed the socket and
    is blocked.  One of the three cases always applies. *)
Theorem writeReplies_fifo_and_close (client : ClientPtr) (w : World) :
  let cl := deref w client in
  let wrote_ok := map (λ line, EvSocketWrite client line false) in
  (∀ pre post,
     replies cl = pre ++ EOF :: post →
     writable (socket cl) pre = true →
     ∃ w', writeReplies client w = Ok (Exited tt) w'
       ∧ onlyClient client
           (set_socket {| written := written (socket cl) ++ pre;
                          closed := S (closed (socket cl)) |}
                       (set_replies post cl))
           (wrote_ok pre ++ [EvSocketClose client]) w w')
  ∧ (∀ pre line post,
       replies cl = pre ++ line :: post →
       writable (socket cl) pre = true →
       line ≠ EOF →
       Socket_Write_fails (wrote pre (socket cl)) line = true →
       ∃ w', writeReplies client w = Ok (Exited tt) w'
         ∧ onlyClient client
             (set_socket {| written := written (socket cl) ++ pre;
                            closed := S (closed (socket cl)) |}
                         (set_replies post cl))
             (wrote_ok pre
              ++ [EvSocketWrite client line true; EvSocketClose client]) w w')
  ∧ (writable (socket cl) (replies cl) = true →
       ∃ w', writeReplies client w = Ok Waiting w'
         ∧ onlyClient client
             (set_socket {| written := written (socket cl) ++ replies cl;
                            closed := closed (socket cl) |}
                         (set_replies [] cl))
             (wrote_ok (replies cl)) w w')
  ∧ (writable (socket cl) (replies cl) = true
     ∨ (∃ pre post, replies cl = pre ++ EOF :: post
                    ∧ writable (socket cl) pre = true)
     ∨ (∃ pre line post, replies cl = pre ++ line :: post
          ∧ writable (socket cl) pre = true
          ∧ line ≠ EOF
          ∧ Socket_Write_fails (wrote pre (socket cl)) line = true)).
Proof.
  intros cl wrote_ok. split; [|split; [|split]].
  - intros pre post Hq Hok.
    destruct (writeLoop_writable client pre (EOF :: post) w Hq Hok)
      as (w1 & Hrun & Honly).
    unfold writeReplies. unfold bind at 1, getClient at 1, gets. fold cl.
    rewrite Hq. unfold bind at 1. rewrite Hrun, writeLoop_EOF.
    erewrite bind_Ok by apply Socket_Close_spec. unfold ret.
    rewrite commit_commit, deref_commit.
    eexists. split; [reflexivity|].
    pose proof (onlyClient_trans _ _ _ _ _ _ _ _ Honly
                  (onlyClient_commit client
                     (set_socket {| written := written (socket cl) ++ pre;
                          closed := S (closed (socket cl)) |}
                       (set_replies post cl)) [EvSocketClose client] w1)) as Hb.
    destruct Honly as (Hcl1 & _). rewrite Hcl1. simpl. exact Hb.
  - intros pre line post Hq Hok Hline Hfail.
    destruct (writeLoop_writable client pre (line :: post) w Hq Hok)
      as (w1 & Hrun & Honly).
    unfold writeReplies. unfold bind at 1, getClient at 1, gets. fold cl.
    rewrite Hq. unfold bind at 1. rewrite Hrun, writeLoop_write by done.
    pose proof Honly as (Hcl1 & _). rewrite Hcl1. simpl. fold cl.
    rewrite Hfail.
    erewrite bind_Ok by apply Socket_Close_spec. unfold ret.
    rewrite commit_commit, deref_commit.
    eexists. split; [reflexivity|]. simpl.
    exact (onlyClient_trans _ _ _ _ _ _ _ _ Honly
             (onlyClient_commit client _ _ w1)).
  - intros Hok.
    destruct (writeLoop_writable client (replies cl) [] w) as (w1 & Hrun & Honly);
      [by rewrite app_nil_r|done|].
    unfold writeReplies. unfold bind at 1, getClient at 1, gets. fold cl.
    rewrite app_nil_r in Hrun. unfold bind at 1. rewrite Hrun, writeLoop_end.
    exists w1. split; [done|]. exact Honly.
  - apply writable_cases.
Qed.

(** *** Schedules *)

Section Preserves.
Context (R : World → World → Prop) `{!Reflexive R} `{!Transitive R}.

Lemma preserves_ret {A} (a : A) : preserves R (ret a).
Proof. intros w a' w' Hrun. inversion Hrun; subst. reflexivity. Qed.

Lemma preserves_gets {A} (f : World → A) : preserves R (gets f).
Proof. intros w a' w' Hrun. inversion Hrun; subst. reflexivity. Qed.

Lemma preserves_getClient client : preserves R (getClient client).
Proof. apply preserves_gets. Qed.

Lemma preserves_panic {A} : preserves R (@panic A).
Proof. intros w a w' Hrun. discriminate. Qed.

Lemma preserves_bind {A B} (m : M A) (k : A → M B) :
  preserves R m → (∀ a, preserves R (k a)) → preserves R (bind m k).
Proof.
  intros Hm Hk w b w' Hrun. unfold bind in Hrun.
  destruct (m w) as [a w1|] eqn:Hmw; [|discriminate].
  transitivity w1; [by eapply Hm|by eapply Hk].
Qed.

Lemma preserves_forEach {A} (l : list A) (body : A → M unit) :
  (∀ x, preserves R (body x)) → preserves R (forEach l body).
Proof.
  intros Hbody. induction l as [|x l IH]; simpl.
  - apply preserves_ret.
  - apply preserves_bind; [apply Hbody|intros _; apply IH].
Qed.

Lemma preserves_modify (f : World → World) :
  (∀ w, R w (f w)) → preserves R (modify f).
Proof. intros Hf w a w' Hrun. inversion Hrun; subst. apply Hf. Qed.

End Preserves.

(** Counting [destroy()] in a trace *)

Lemma destroyCount_commit c x cl events w :
  destroyCount c (commit x cl events w)
  = destroyCount c w + length (filter (λ e, isDestroy c e = true) events).
Proof. unfold destroyCount, commit. simpl. by rewrite filter_app, length_app. Qed.

Lemma no_destroy_map {A} c (f : A → Event) (l : list A) :
  (∀ x, isDestroy c (f x) = false) →
  filter (λ e, isDestroy c e = true) (map f l) = [].
Proof.
  intros Hf. induction l as [|x l IH]; [done|]. simpl.
  rewrite filter_cons_False by (by rewrite Hf). exact IH.
Qed.

#[local] Instance calm_refl c : Reflexive (calm c).
Proof. intros w. unfold calm. split; [done|]. do 3 (split; [done|]). auto. Qed.

#[local] Instance calm_trans c : Transitive (calm c).
Proof.
  intros w1 w2 w3 (A1 & A2 & A3 & A4 & A5) (B1 & B2 & B3 & B4 & B5).
  unfold calm. split; [congruence|]. split; [congruence|].
  split; [congruence|]. split; [lia|auto].
Qed.

#[local] Instance ages_refl c : Reflexive (ages c).
Proof. intros w. unfold ages. do 5 (split; [done|]). auto. Qed.

#[local] Instance ages_trans c : Transitive (ages c).
Proof.
  intros w1 w2 w3 (A1 & A2 & A3 & A4 & A5 & A6) (B1 & B2 & B3 & B4 & B5 & B6).
  unfold ages. split; [auto|]. split; [auto|]. split.
  { intros Hact. rewrite (B3 Hact). apply A3. by rewrite <- (B3 Hact). }
  split; [lia|]. split; [lia|auto].
Qed.

Lemma calm_ages c w w' : calm c w w' → ages c w w'.
Proof.
  intros (A1 & A2 & A3 & A4 & A5). unfold ages. rewrite A1, A2, A3.
  do 5 (split; [done|]). auto.
Qed.

Lemma preserves_weaken {A} (R S : World → World → Prop) (m : M A) :
  (∀ w w', R w w' → S w w') → preserves R m → preserves S m.
Proof. intros HRS Hm w a w' Hrun. eapply HRS, Hm, Hrun. Qed.

(** Callbacks *)

Lemma fnOk_stopped t o : fnOk t o → fnOk t (stopped o).
Proof. by destruct o. Qed.

Lemma wired_getTimer cl t tm :
  wired cl → getTimer t cl = Some tm → fn tm = defaultFn t.
Proof.
  intros (Hl & Hi & Hq) Ht. destruct t; simpl in Ht.
  - by rewrite Ht in Hl.
  - by rewrite Ht in Hi.
  - by rewrite Ht in Hq.
Qed.

Lemma wired_setTimer cl t tm :
  wired cl → fn tm = defaultFn t → wired (setTimer t (Some tm) cl).
Proof. intros (Hl & Hi & Hq) Hfn. by destruct t. Qed.

Lemma wired_same_timers cl cl' :
  (∀ t, getTimer t cl' = getTimer t cl) → wired cl → wired cl'.
Proof.
  intros Hsame (Hl & Hi & Hq). unfold wired.
  pose proof (Hsame loginTimerF) as Hsl. pose proof (Hsame idleTimerF) as Hsi.
  pose proof (Hsame quitTimerF) as Hsq. simpl in Hsl, Hsi, Hsq.
  by rewrite Hsl, Hsi, Hsq.
Qed.

Lemma wired_zero : wired zeroClient.
Proof. by unfold wired. Qed.

(** Primitives *)

Lemma calm_server c (f : World → World) :
  (∀ w, clientHeap (f w) = clientHeap w ∧ trace (f w) = trace w
        ∧ clock w ≤ clock (f w)) →
  preserves (calm c) (modify f).
Proof.
  intros Hf. apply preserves_modify. intros w.
  destruct (Hf w) as (Hh & Ht & Hc).
  unfold calm, deref, destroyCount. by rewrite Hh, Ht.
Qed.

Lemma calm_emit c e : isDestroy c e = false → preserves (calm c) (emit e).
Proof.
  intros He. apply preserves_modify. intros w.
  unfold calm, destroyCount. simpl. rewrite filter_app.
  rewrite (filter_cons_False _ e) by (by rewrite He).
  rewrite filter_nil, app_nil_r. auto.
Qed.

Lemma calm_commit c x cl events w :
  (x = c → hasQuit cl = hasQuit (deref w c)
           ∧ loginTimer cl = loginTimer (deref w c)
           ∧ (wired (deref w c) → wired cl)) →
  filter (λ e, isDestroy c e = true) events = [] →
  calm c w (commit x cl events w).
Proof.
  intros Hcl Hev. unfold calm. rewrite destroyCount_commit, Hev. simpl.
  destruct (decide (x = c)) as [->|Hne].
  - rewrite deref_commit. destruct (Hcl eq_refl) as (H1 & H2 & H3).
    split; [done|]. split; [done|]. split; [lia|]. split; [lia|done].
  - rewrite deref_commit_ne by done.
    split; [done|]. split; [done|]. split; [lia|]. split; [lia|done].
Qed.

Lemma calm_modifyClient c x (f : Client → Client) :
  (x = c → ∀ cl, hasQuit (f cl) = hasQuit cl
                 ∧ loginTimer (f cl) = loginTimer cl
                 ∧ (wired cl → wired (f cl))) →
  preserves (calm c) (modifyClient x f).
Proof.
  intros Hf. apply preserves_modify. intros w.
  unfold calm, destroyCount. simpl.
  destruct (decide (x = c)) as [->|Hne].
  - rewrite deref_insert. destruct (Hf eq_refl (deref w c)) as (H1 & H2 & H3).
    split; [done|]. split; [done|]. split; [done|]. split; [lia|done].
  - rewrite deref_insert_ne by done.
    split; [done|]. split; [done|]. split; [done|]. split; [lia|done].
Qed.

Lemma calm_modifyChannel c ch f : preserves (calm c) (modifyChannel ch f).
Proof. apply preserves_modify. intros w. unfold calm. auto. Qed.

Ltac calm_side :=
  try reflexivity;
  try (intros; simpl; repeat split; auto with lia; fail);
  try (intros ? ?; subst; simpl; split; [reflexivity|];
       split; [reflexivity|]; apply wired_same_timers; by intros []);
  try (simpl; apply Nat.eqb_neq; congruence).

Ltac calm_step :=
  match goal with
  | |- preserves _ (bind _ _) => apply preserves_bind; [apply _| |intros ?]
  | |- preserves _ (ret _) => apply preserves_ret; apply _
  | |- preserves _ (gets _) => apply preserves_gets; apply _
  | |- preserves _ (getClient _) => apply preserves_getClient; apply _
  | |- preserves _ panic => apply preserves_panic
  | |- preserves _ (forEach _ _) =>
      apply preserves_forEach; [apply _|apply _|intros ?]
  | |- preserves _ (emit _) => apply calm_emit; calm_side
  | |- preserves _ (modifyClient _ _) => apply calm_modifyClient; calm_side
  | |- preserves _ (modifyChannel _ _) => apply calm_modifyChannel
  | |- preserves _ (modify _) => apply calm_server; calm_side
  | |- preserves _ (if ?b then _ else _) => destruct b
  | |- preserves _ (match ?x with _ => _ end) => destruct x
  end.

Ltac calm_auto := repeat calm_step.

Lemma setTimer_calm c x t tm w :
  (x = c → t ≠ loginTimerF) →
  (wired (deref w x) → fn tm = defaultFn t) →
  ∀ e, isDestroy c e = false →
  calm c w (commit x (setTimer t (Some tm) (deref w x)) [e] w).
Proof.
  intros Hside Hfn e He. apply calm_commit.
  - intros ->. split; [by destruct t|]. split.
    + destruct t; try done. by destruct Hside.
    + intros Hw. apply wired_setTimer; auto.
  - by rewrite filter_cons_False by (by rewrite He).
Qed.

Lemma Timer_Stop_calm c x t :
  (x = c → t ≠ loginTimerF) → preserves (calm c) (Timer_Stop x t).
Proof.
  intros Hside w [] w' Hrun.
  destruct (getTimer t (deref w x)) as [tm|] eqn:Ht.
  - rewrite (Timer_Stop_set _ _ tm) in Hrun by done. injection Hrun as <-.
    apply setTimer_calm; [done| |done].
    intros Hw. simpl. by apply (wired_getTimer (deref w x)).
  - unfold Timer_Stop, bind, getClient, gets in Hrun. by rewrite Ht in Hrun.
Qed.

Lemma Timer_Reset_calm c x t d :
  (x = c → t ≠ loginTimerF) → preserves (calm c) (Timer_Reset x t d).
Proof.
  intros Hside w [] w' Hrun.
  destruct (getTimer t (deref w x)) as [tm|] eqn:Ht.
  - rewrite (Timer_Reset_set _ _ _ tm) in Hrun by done. injection Hrun as <-.
    apply setTimer_calm; [done| |done].
    intros Hw. simpl. by apply (wired_getTimer (deref w x)).
  - unfold Timer_Reset, bind, getClient, gets in Hrun. by rewrite Ht in Hrun.
Qed.

Lemma AfterFunc_calm c x t d :
  (x = c → t ≠ loginTimerF) →
  preserves (calm c) (AfterFunc x t d (defaultFn t)).
Proof.
  intros Hside w [] w' Hrun. rewrite AfterFunc_spec in Hrun.
  injection Hrun as <-. by apply setTimer_calm.
Qed.

Lemma Reply_calm c x reply : preserves (calm c) (Reply x reply).
Proof. unfold Reply, send_replies. calm_auto. Qed.

Lemma Touch_calm c x : preserves (calm c) (Touch x).
Proof.
  unfold Touch. calm_auto;
    first [by apply Timer_Stop_calm|by apply Timer_Reset_calm
          |by apply (AfterFunc_calm c x idleTimerF)].
Qed.

Lemma Idle_calm c x : preserves (calm c) (Idle x).
Proof.
  unfold Idle. calm_auto;
    first [apply Reply_calm|by apply Timer_Reset_calm
          |by apply (AfterFunc_calm c x quitTimerF)].
Qed.

Lemma Active_calm c x : preserves (calm c) (Active x).
Proof. unfold Active. calm_auto. Qed.

Lemma ClientNameMap_Remove_calm c x : preserves (calm c) (ClientNameMap_Remove x).
Proof. unfold ClientNameMap_Remove. calm_auto. Qed.

Lemma ClientNameMap_Add_calm c x : preserves (calm c) (ClientNameMap_Add x).
Proof. unfold ClientNameMap_Add. calm_auto. Qed.

Lemma Channel_Quit_calm c ch x : preserves (calm c) (Channel_Quit ch x).
Proof. unfold Channel_Quit. calm_auto. Qed.

Lemma SetNickname_calm c x n : preserves (calm c) (SetNickname x n).
Proof. unfold SetNickname. calm_auto. apply ClientNameMap_Add_calm. Qed.

Lemma ChangeNickname_calm c x n : preserves (calm c) (ChangeNickname x n).
Proof.
  unfold ChangeNickname, Friends. calm_auto;
    first [apply ClientNameMap_Remove_calm|apply ClientNameMap_Add_calm
          |apply Reply_calm].
Qed.

Lemma destroy_calm c x : x ≠ c → preserves (calm c) (destroy x).
Proof.
  intros Hne. unfold destroy. calm_auto;
    first [by apply Timer_Stop_calm|apply Channel_Quit_calm
          |apply ClientNameMap_Remove_calm].
Qed.

Lemma Quit_calm c x message : x ≠ c → preserves (calm c) (Quit x message).
Proof.
  intros Hne. unfold Quit, Friends. calm_auto;
    first [apply Reply_calm|by apply destroy_calm].
Qed.

Lemma Register_calm c x : x ≠ c → preserves (calm c) (Register x).
Proof.
  intros Hne. unfold Register. calm_auto;
    first [by apply Timer_Stop_calm|apply Touch_calm].
Qed.

Lemma NewClient_calm c x conn : x ≠ c → preserves (calm c) (NewClient x conn).
Proof.
  intros Hne. unfold NewClient. calm_auto.
  by apply (AfterFunc_calm c x loginTimerF).
Qed.

Lemma fire_calm c x t :
  (x = c → t ≠ loginTimerF) → preserves (calm c) (fire x t).
Proof.
  intros Hside w b w' Hrun. rewrite fire_spec in Hrun.
  destruct (getTimer t (deref w x)) as [tm|] eqn:Ht;
    [destruct (due (clock w) tm)|]; inversion Hrun; subst; try reflexivity.
  unfold calm.
  assert (Hcount : destroyCount c (fired x t tm w) = destroyCount c w).
  { unfold destroyCount, fired.
    destruct (fn tm); simpl; rewrite filter_app, filter_cons_False by done;
      by rewrite filter_nil, app_nil_r. }
  assert (Hclock : clock (fired x t tm w) = clock w)
    by (unfold fired; by destruct (fn tm)).
  rewrite Hcount, Hclock.
  destruct (decide (x = c)) as [->|Hne].
  - rewrite deref_fired. split; [by destruct t|]. split.
    + destruct t; try done. by destruct Hside.
    + split; [lia|]. split; [lia|]. intros Hw. apply wired_setTimer; [done|].
      simpl. by apply (wired_getTimer (deref w c)).
  - rewrite deref_fired_ne by done.
    split; [done|]. split; [done|]. split; [lia|]. split; [lia|done].
Qed.

Lemma readLoop_calm c x ready : preserves (calm c) (readLoop x ready).
Proof.
  induction ready as [|[|line] rest IH]; simpl.
  - calm_auto.
  - calm_auto; apply IH.
  - unfold ErrNeedMoreParams, send_commands.
    calm_auto; first [apply IH|apply Reply_calm].
Qed.

Lemma readCommands_calm c x ready : preserves (calm c) (readCommands x ready).
Proof.
  unfold readCommands, connectionClosed, send_commands.
  calm_auto. apply readLoop_calm.
Qed.

Lemma writeLoop_calm c x queued : preserves (calm c) (writeLoop x queued).
Proof.
  induction queued as [|reply rest IH]; simpl.
  - calm_auto.
  - unfold Socket_Write. calm_auto. apply IH.
Qed.

Lemma writeReplies_calm c x : preserves (calm c) (writeReplies x).
Proof.
  unfold writeReplies, Socket_Close. calm_auto. apply writeLoop_calm.
Qed.

Lemma Quit_quit client message w :
  hasQuit (deref w client) = true → Quit client message w = Ok tt w.
Proof.
  intros Hq. unfold Quit, bind, getClient, gets. by rewrite Hq.
Qed.

Lemma Quit_nil client message w :
  hasQuit (deref w client) = false →
  loginTimer (deref w client) = None →
  Quit client message w = NilPanic.
Proof.
  intros Hlive Hnil. unfold Quit. unfold bind at 1, getClient at 1, gets.
  rewrite Hlive.
  erewrite bind_Ok; [|by apply Reply_live].
  erewrite bind_Ok; [|apply Reply_live; by rewrite deref_commit].
  rewrite modifyClient_emit. unfold bind at 1, Friends, gets.
  unfold bind at 1, destroy. unfold bind at 1, emit at 1, modify.
  unfold bind at 1, Timer_Stop, bind at 1, getClient at 1, gets.
  rewrite deref_set_trace, !deref_commit. simpl. by rewrite Hnil.
Qed.

Lemma Quit_ages c x message : preserves (ages c) (Quit x message).
Proof.
  destruct (decide (x = c)) as [->|Hne];
    [|eapply preserves_weaken; [apply calm_ages|by apply Quit_calm]].
  intros w [] w' Hrun.
  destruct (hasQuit (deref w c)) eqn:Hquit.
  { rewrite Quit_quit in Hrun by done. injection Hrun as <-. reflexivity. }
  destruct (loginTimer (deref w c)) as [lt|] eqn:Hlt;
    [|by rewrite Quit_nil in Hrun].
  destruct (Quit_spec w c message Hquit) as
    (w'' & Hrun' & Htr & _ & _ & Hcl & _ & _ & _ & _ & Hq); [by rewrite Hlt|].
  rewrite Hrun in Hrun'. injection Hrun' as <-.
  unfold ages. rewrite Hquit, Hcl. simpl. rewrite Hlt. simpl.
  split; [done|]. split; [by eexists|]. split; [done|]. split; [|split].
  - unfold destroyCount. rewrite Htr. rewrite !filter_app, !length_app.
    rewrite !no_destroy_map by done.
    assert (Hstop : ∀ (o : option Timer) t,
      filter (λ e, isDestroy c e = true)
             (if o is Some _ then [EvTimerStop c t] else []) = []).
    { intros [tm|] tf; [|done]. by rewrite filter_cons_False. }
    rewrite !Hstop. simpl.
    rewrite !(filter_cons_False _ (EvReply _ _)) by done.
    rewrite (filter_cons_False _ (EvHasQuit _)) by done.
    rewrite (filter_cons_True _ (EvDestroy c)) by (simpl; apply Nat.eqb_refl).
    rewrite ?filter_cons_False by done.
    rewrite ?filter_nil. simpl. lia.
  - unfold queues in Hq. injection Hq as _ _ _ Hclock. lia.
  - intros (Hl & Hi & Hqt). unfold wired. simpl.
    repeat split; by apply fnOk_stopped.
Qed.

Lemma no_destroy_touchEvents c x cl :
  filter (λ e, isDestroy c e = true) (touchEvents x cl) = [].
Proof.
  unfold touchEvents. rewrite filter_app.
  destruct (quitTimer cl), (idleTimer cl); simpl;
    by rewrite ?filter_cons_False, ?filter_nil.
Qed.

Lemma Register_ages c x : preserves (ages c) (Register x).
Proof.
  destruct (decide (x = c)) as [->|Hne];
    [|eapply preserves_weaken; [apply calm_ages|by apply Register_calm]].
  intros w [] w' Hrun.
  destruct (loginTimer (deref w c)) as [lt|] eqn:Hlt;
    [|by rewrite Register_nil in Hrun].
  rewrite Register_spec in Hrun by (by rewrite Hlt). injection Hrun as <-.
  unfold ages. rewrite deref_commit, destroyCount_commit. simpl.
  rewrite Hlt. simpl. split; [done|]. split; [by eexists|]. split; [done|].
  split; [|split; [done|]].
  - rewrite !filter_cons_False by done. rewrite no_destroy_touchEvents.
    simpl. lia.
  - intros (Hl & Hi & Hqt). unfold wired. simpl.
    repeat split; [by apply fnOk_stopped| |by apply fnOk_stopped].
    by destruct (idleTimer (deref w c)).
Qed.

Lemma fire_ages c x t : preserves (ages c) (fire x t).
Proof.
  destruct (decide (x = c ∧ t = loginTimerF)) as [[-> ->]|Hne].
  2: { eapply preserves_weaken; [apply calm_ages|apply fire_calm].
       intros -> ->. by apply Hne. }
  intros w b w' Hrun. rewrite fire_spec in Hrun. simpl in Hrun.
  destruct (loginTimer (deref w c)) as [lt|] eqn:Hlt;
    [destruct (due (clock w) lt)|]; inversion Hrun; subst; try reflexivity.
  unfold ages. rewrite deref_fired. simpl. rewrite Hlt.
  split; [done|]. split; [by eexists|]. split; [done|].
  assert (Hwired : wired (deref w c) →
                   wired (set_loginTimer (stopped (Some lt)) (deref w c))).
  { intros (Hl & Hi & Hqt). rewrite Hlt in Hl. unfold wired. simpl. auto. }
  split; [|split; [|exact Hwired]].
  - unfold destroyCount, fired.
    destruct (fn lt); simpl; rewrite filter_app, filter_cons_False by done;
      by rewrite filter_nil, app_nil_r.
  - unfold fired. destruct (fn lt); simpl; lia.
Qed.

(** Schedules *)

Lemma step_calm c op : disturbs c op = false → preserves (calm c) (step op).
Proof.
  intros Hop. destruct op; simpl in *;
    try apply bool_decide_eq_false in Hop;
    (apply preserves_bind; [apply _| |intros ?; apply preserves_ret; apply _])
    || idtac.
  - by apply NewClient_calm.
  - apply Reply_calm.
  - by apply Quit_calm.
  - apply Touch_calm.
  - apply Idle_calm.
  - by apply Register_calm.
  - apply Active_calm.
  - apply SetNickname_calm.
  - apply ChangeNickname_calm.
  - apply fire_calm. intros -> ->. by apply Hop.
  - apply readCommands_calm.
  - apply writeReplies_calm.
  - apply calm_server. intros w. simpl. repeat split; lia.
Qed.

Lemma step_ages c op : allocates c op = false → preserves (ages c) (step op).
Proof.
  intros Hop.
  destruct (disturbs c op) eqn:Hd;
    [|eapply preserves_weaken; [apply calm_ages|by apply step_calm]].
  destruct op; simpl in *; try congruence.
  - apply Quit_ages.
  - apply Register_ages.
  - apply preserves_bind; [apply _|apply fire_ages|].
    intros ?. apply preserves_ret. apply _.
Qed.

Lemma run_calm c ops :
  Forall (λ op, disturbs c op = false) ops → preserves (calm c) (run ops).
Proof.
  intros Hops. unfold run. induction Hops as [|op ops Hop _ IH]; simpl.
  - apply preserves_ret. apply _.
  - apply preserves_bind; [apply _|by apply step_calm|intros _; apply IH].
Qed.

Lemma run_ages c ops :
  Forall (λ op, allocates c op = false) ops → preserves (ages c) (run ops).
Proof.
  intros Hops. unfold run. induction Hops as [|op ops Hop _ IH]; simpl.
  - apply preserves_ret. apply _.
  - apply preserves_bind; [apply _|by apply step_ages|intros _; apply IH].
Qed.

(** What survives a new allocation at the same address *)

#[local] Instance keeps_refl c : Reflexive (keeps c).
Proof. intros w. by unfold keeps. Qed.

#[local] Instance keeps_trans c : Transitive (keeps c).
Proof. intros w1 w2 w3 [A1 A2] [B1 B2]. unfold keeps. auto. Qed.

Lemma step_keeps c op : preserves (keeps c) (step op).
Proof.
  destruct (allocates c op) eqn:Halloc.
  - destruct op; simpl in Halloc; try discriminate.
    apply bool_decide_eq_true in Halloc as ->.
    intros w [] w' Hstep. simpl in Hstep. unfold bind in Hstep.
    rewrite NewClient_spec in Hstep. injection Hstep as <-.
    unfold keeps. rewrite deref_commit. split; [by eexists|].
    intros _. by unfold wired.
  - eapply preserves_weaken; [|by apply step_ages].
    intros w w' (_ & Hset & _ & _ & _ & Hwired). by split.
Qed.

Lemma run_keeps c ops : preserves (keeps c) (run ops).
Proof.
  unfold run. induction ops as [|op ops IH]; simpl.
  - apply preserves_ret. apply _.
  - apply preserves_bind; [apply _|apply step_keeps|intros _; apply IH].
Qed.

(** C5: the timers of a client only ever carry the callback of their
    field: [connectionTimeout] for the login timer and the quit timer.
    [NewClient] establishes this and every schedule keeps it.  When the
    login timer or the quit timer of such a client fires, a quit command
    tagged with the client and carrying "connection timeout" is sent on
    [server.commands] and nothing else changes but the timer, which is no
    longer active: [Quit()] is not called ([hasQuit], the reply queue, the
    channels and the registry are as before).  When the read pump receives
    the end marker it sends one quit command tagged with the client and
    carrying "connection closed" on the same queue and returns, leaving
    what follows unread; before the end marker it has not returned. *)
Theorem timeouts_and_hangup_enqueue_quit (client : ClientPtr) :
  (∀ conn w, ∃ w', NewClient client conn w = Ok client w'
       ∧ wired (deref w' client)
       ∧ fn <$> loginTimer (deref w' client) = Some connectionTimeoutFunc)
  ∧ (∀ ops w w', wired (deref w client) → run ops w = Ok tt w' →
       wired (deref w' client))
  ∧ (∀ t tm w,
       t = loginTimerF ∨ t = quitTimerF →
       wired (deref w client) →
       getTimer t (deref w client) = Some tm →
       due (clock w) tm = true →
       let msg := QuitCommand (Some client) "connection timeout" in
       ∃ w', fire client t w = Ok true w'
         ∧ commands w' = commands w ++ [msg]
         ∧ trace w' = trace w ++ [EvCommand msg]
         ∧ deref w' client = setTimer t (stopped (Some tm)) (deref w client)
         ∧ hasQuit (deref w' client) = hasQuit (deref w client)
         ∧ replies (deref w' client) = replies (deref w client)
         ∧ (∀ x, x ≠ client → deref w' x = deref w x)
         ∧ channelHeap w' = channelHeap w ∧ clients w' = clients w
         ∧ logged w' = logged w ∧ idle w' = idle w)
  ∧ (∀ pre rest w,
       ReadyLine EOF ∉ pre →
       let msg := QuitCommand (Some client) "connection closed" in
       ∃ w1, readCommands client pre w = Ok Waiting w1
         ∧ readCommands client (pre ++ ReadyLine EOF :: rest) w
           = Ok (Exited rest) (sent msg w1)
         ∧ commands (sent msg w1) = commands w1 ++ [msg]
         ∧ trace (sent msg w1) = trace w1 ++ [EvCommand msg]
         ∧ (∀ x, deref (sent msg w1) x = deref w1 x)).
Proof.
  split; [|split; [|split]].
  - intros conn w. eexists. split; [apply NewClient_spec|].
    rewrite deref_commit. by unfold wired.
  - intros ops w w' Hwired Hrun.
    by apply (run_keeps client ops w tt w' Hrun).
  - intros t tm w Ht Hwired Htm Hdue msg.
    assert (Hfn : fn tm = connectionTimeoutFunc).
    { rewrite (wired_getTimer _ _ _ Hwired Htm). by destruct Ht as [-> | ->]. }
    rewrite fire_spec, Htm, Hdue.
    eexists. split; [reflexivity|].
    rewrite deref_fired. split; [|split; [|split; [done|]]].
    + unfold fired. by rewrite Hfn.
    + unfold fired. by rewrite Hfn.
    + split; [by destruct Ht as [-> | ->]|].
      split; [by destruct Ht as [-> | ->]|].
      split; [intros; by apply deref_fired_ne|].
      unfold fired. by rewrite Hfn.
  - intros pre rest w Hno msg.
    destruct (readLoop_until_EOF client pre rest w Hno) as (w1 & Hpre & Hall).
    exists w1. unfold readCommands, bind. rewrite Hpre, Hall.
    repeat split; done.
Qed.

(** Totality *)

Lemma writeLoop_total client queued w :
  ∃ b w', writeLoop client queued w = Ok b w'.
Proof.
  revert w. induction queued as [|reply rest IH]; intros w.
  - by eexists _, _.
  - destruct (decide (reply = EOF)) as [->|Hne].
    + rewrite writeLoop_EOF. by eexists _, _.
    + rewrite writeLoop_write by done.
      destruct (Socket_Write_fails _ _); [by eexists _, _|apply IH].
Qed.

Lemma readCommands_total client ready w :
  ∃ r w', readCommands client ready w = Ok r w'.
Proof.
  unfold readCommands, bind at 1.
  destruct (readLoop_total client ready w) as ([rest|] & w1 & ->);
    by eexists _, _.
Qed.

Lemma writeReplies_total client w :
  ∃ r w', writeReplies client w = Ok r w'.
Proof.
  unfold writeReplies. unfold bind at 1, getClient at 1, gets.
  unfold bind at 1.
  destruct (writeLoop_total client (replies (deref w client)) w)
    as ([|] & w1 & ->); [|by eexists _, _].
  erewrite bind_Ok by apply Socket_Close_spec. by eexists _, _.
Qed.

Lemma step_total op w :
  (∀ x, stopsLogin op = Some x → is_Some (loginTimer (deref w x))) →
  ∃ w', step op w = Ok tt w'.
Proof.
  intros Hset. destruct op as [x conn|x reply|x message|x|x|x|x|x n|x n|x t
                               |x ready|x|d]; simpl.
  - unfold bind. rewrite NewClient_spec. by eexists.
  - destruct (hasQuit (deref w x)) eqn:Hq.
    + rewrite Reply_quit by done. by eexists.
    + rewrite Reply_live by done. by eexists.
  - destruct (hasQuit (deref w x)) eqn:Hq.
    + rewrite Quit_quit by done. by eexists.
    + destruct (Quit_spec w x message Hq) as (w' & Hrun & _); [by apply Hset|].
      by exists w'.
  - rewrite Touch_spec. by eexists.
  - rewrite Idle_spec. by eexists.
  - rewrite Register_spec by (by apply Hset). by eexists.
  - by eexists.
  - by eexists.
  - destruct (ChangeNickname_spec w x n) as (_ & _ & _ & w' & _ & _ & _ & _ & Hrun & _).
    by exists w'.
  - unfold bind. rewrite fire_spec.
    destruct (getTimer t (deref w x)) as [tm|];
      [destruct (due (clock w) tm)|]; by eexists.
  - unfold bind. destruct (readCommands_total x ready w) as (r & w' & ->).
    by eexists.
  - unfold bind. destruct (writeReplies_total x w) as (r & w' & ->).
    by eexists.
  - by eexists.
Qed.

Lemma run_total known ops w :
  (∀ x, x ∈ known → is_Some (loginTimer (deref w x))) →
  wellTargeted known ops = true →
  ∃ w', run ops w = Ok tt w'.
Proof.
  revert known w. unfold run.
  induction ops as [|op ops IH]; intros known w Hknown Hops; simpl.
  - by eexists.
  - assert (Hstep : ∃ w1, step op w = Ok tt w1
              ∧ ∃ known', wellTargeted known' ops = true
                  ∧ ∀ x, x ∈ known' → is_Some (loginTimer (deref w1 x))).
    { assert (Hkeep : ∀ w1, step op w = Ok tt w1 →
                ∀ x, x ∈ known → is_Some (loginTimer (deref w1 x))).
      { intros w1 Hw1 x Hx.
        by apply (step_keeps x op w tt w1 Hw1), Hknown. }
      destruct op as [x conn|x reply|x message|x|x|x|x|x n|x n|x t
                      |x ready|x|d]; simpl in Hops;
        try (apply andb_true_iff in Hops as [Hin Hrest];
             apply bool_decide_eq_true in Hin;
             match goal with
             | |- ∃ w1, step ?op w = _ ∧ _ =>
                 destruct (step_total op w) as (w1 & Hw1);
                   [by intros ? [= <-]; apply Hknown|]
             end;
             exists w1; split; [done|]; exists known; split; [done|];
             by apply Hkeep).
      - eexists. split; [simpl; unfold bind; by rewrite NewClient_spec|].
        exists ({[x]} ∪ known). split; [done|]. intros y Hy.
        destruct (decide (y = x)) as [->|Hne].
        + rewrite deref_commit. by eexists.
        + rewrite deref_commit_ne by done. apply Hknown. set_solver.
      - eexists. split; [reflexivity|]. exists known. by split. }
    destruct Hstep as (w1 & Hw1 & known' & Hrest & Hknown').
    unfold bind at 1. rewrite Hw1. by apply (IH known').
Qed.

Lemma range_channels_empty : range_channels ∅ = [].
Proof.
  apply Permutation_nil_r. rewrite (range_channels_perm ∅).
  by rewrite elements_empty.
Qed.

(** C2: once [hasQuit] is true the client is terminal.  [Reply] leaves the
    world as it is, so nothing is enqueued; [Quit] leaves the world as it
    is, so there is no enqueue, no broadcast and no change to the registry
    or to a channel.  On every schedule that does not allocate a new client
    at the same address, [hasQuit] stays true and [destroy()] has been
    entered for the client once if it has quit and never if it has not;
    and any number of [Quit] calls in a row does what the first one does. *)
Theorem hasQuit_is_terminal (client : ClientPtr) :
  (∀ w reply, hasQuit (deref w client) = true →
     Reply client reply w = Ok tt w)
  ∧ (∀ w message, hasQuit (deref w client) = true →
       Quit client message w = Ok tt w)
  ∧ (∀ ops w w',
       Forall (λ op, allocates client op = false) ops →
       run ops w = Ok tt w' →
       (hasQuit (deref w client) = true → hasQuit (deref w' client) = true)
       ∧ (destroyCount client w = b2n (hasQuit (deref w client)) →
          destroyCount client w' = b2n (hasQuit (deref w' client))))
  ∧ (∀ w first more,
       hasQuit (deref w client) = false →
       is_Some (loginTimer (deref w client)) →
       ∃ w', Quit client first w = Ok tt w'
         ∧ run (map (OpQuit client) (first :: more)) w = Ok tt w'
         ∧ hasQuit (deref w' client) = true
         ∧ destroyCount client w' = destroyCount client w + 1).
Proof.
  split; [intros; by apply Reply_quit|].
  split; [intros; by apply Quit_quit|]. split.
  - intros ops w w' Hops Hrun.
    destruct (run_ages client ops Hops w tt w' Hrun) as (Hq & _ & _ & Hcount & _).
    split; [done|]. intros Hinv. rewrite Hinv in Hcount. lia.
  - intros w first more Hlive Hlogin.
    destruct (Quit_spec w client first Hlive Hlogin)
      as (w' & Hrun & _ & _ & _ & Hcl & _).
    assert (Hquit : hasQuit (deref w' client) = true) by (by rewrite Hcl).
    exists w'. split; [done|]. split; [|split; [done|]].
    + unfold run. simpl. unfold bind at 1. rewrite Hrun.
      clear Hrun. induction more as [|m more IH]; [done|].
      simpl. unfold bind at 1. by rewrite Quit_quit.
    + destruct (Quit_ages client client first w tt w' Hrun)
        as (_ & _ & _ & Hcount & _).
      rewrite Hlive, Hquit in Hcount. simpl in Hcount. lia.
Qed.

(** C9, amended: [Register()] sets the phase to [Normal], stops the login
    timer and then calls [Touch()], which arms the idle timer; from then on,
    on every schedule that does not allocate a new client at the same
    address, the login timer is never active again and its firing enqueues
    nothing.  If neither [Register()] nor [Quit()] is called and the login
    timer has not fired by the time the login timeout has elapsed, the
    login timer armed by [NewClient] fires and enqueues a quit command
    carrying "connection timeout". *)
Theorem Register_and_login_timeout (client : ClientPtr) :
  (∀ w, is_Some (loginTimer (deref w client)) →
     ∃ w1 w',
       bind (modifyClient client (set_phase Normal))
            (λ _, bind (emit (EvSetPhase client Normal))
                       (λ _, Timer_Stop client loginTimerF)) w = Ok tt w1
       ∧ Touch client w1 = Ok tt w'
       ∧ Register client w = Ok tt w'
       ∧ phase (deref w' client) = Normal
       ∧ isActive (loginTimer (deref w' client)) = false
       ∧ trace w' = trace w
           ++ [EvSetPhase client Normal; EvTimerStop client loginTimerF]
           ++ touchEvents client (deref w client)
       ∧ isActive (quitTimer (deref w' client)) = false
       ∧ ∃ it, idleTimer (deref w' client) = Some it
               ∧ active it = true ∧ when it = clock w + IDLE_TIMEOUT)
  ∧ (∀ ops w w',
       isActive (loginTimer (deref w client)) = false →
       Forall (λ op, allocates client op = false) ops →
       run ops w = Ok tt w' →
       isActive (loginTimer (deref w' client)) = false
       ∧ fire client loginTimerF w' = Ok false w')
  ∧ (∀ conn w ops w1 w2,
       NewClient client conn w = Ok client w1 →
       Forall (λ op, disturbs client op = false) ops →
       run ops w1 = Ok tt w2 →
       clock w + LOGIN_TIMEOUT ≤ clock w2 →
       let msg := QuitCommand (Some client) "connection timeout" in
       ∃ w3, fire client loginTimerF w2 = Ok true w3
         ∧ commands w3 = commands w2 ++ [msg]
         ∧ trace w3 = trace w2 ++ [EvCommand msg]).
Proof.
  split; [|split].
  - intros w [lt Hlt].
    assert (Hstop : bind (modifyClient client (set_phase Normal))
            (λ _, bind (emit (EvSetPhase client Normal))
                       (λ _, Timer_Stop client loginTimerF)) w
            = Ok tt (commit client
                       (set_loginTimer (stopped (Some lt))
                          (set_phase Normal (deref w client)))
                       [EvSetPhase client Normal; EvTimerStop client loginTimerF]
                       w)).
    { rewrite modifyClient_emit.
      erewrite Timer_Stop_set by (rewrite deref_commit; exact Hlt).
      by rewrite commit_commit, deref_commit. }
    eexists _, _. split; [exact Hstop|]. split; [apply Touch_spec|].
    rewrite commit_commit, deref_commit, clock_commit.
    split.
    { rewrite Register_spec by (by rewrite Hlt). unfold registered.
      by rewrite Hlt. }
    rewrite deref_commit. unfold touched, touchEvents. simpl.
    rewrite isActive_stopped. repeat split; try done.
    eexists. by split.
  - intros ops w w' Hoff Hops Hrun.
    destruct (run_ages client ops Hops w tt w' Hrun) as (_ & _ & Hact & _).
    assert (Hoff' : isActive (loginTimer (deref w' client)) = false).
    { destruct (isActive (loginTimer (deref w' client))) eqn:Hon; [|done].
      rewrite (Hact eq_refl) in Hon. congruence. }
    split; [done|]. rewrite fire_spec. simpl.
    destruct (loginTimer (deref w' client)) as [lt|]; [|done].
    simpl in Hoff'. unfold due. by rewrite Hoff'.
  - intros conn w ops w1 w2 Hnew Hops Hrun Hclock msg.
    rewrite NewClient_spec in Hnew. injection Hnew as <-.
    destruct (run_calm client ops Hops _ tt w2 Hrun) as (_ & Hlt & _ & _).
    rewrite deref_commit in Hlt. simpl in Hlt.
    rewrite fire_spec. simpl. rewrite Hlt. unfold due. simpl.
    assert (Hdue : (clock w + LOGIN_TIMEOUT <=? clock w2) = true)
      by (by apply Nat.leb_le).
    rewrite Hdue. eexists. split; [reflexivity|]. by unfold fired.
Qed.

(** C10: [NewClient] always sets the login timer, and leaves the idle and
    quit timers nil; [Quit] on the client just built returns, stopping the
    login timer only.  After [NewClient] and any schedule that returns,
    [Quit] returns: the login timer is never nil again.  [destroy()] returns
    whenever the login timer is set, and stops the idle timer and the quit
    timer only when they are not nil.  The stop of the login timer is not
    guarded: on a client whose login timer is nil, the first [Quit]
    panics.  A schedule of calls on clients that [NewClient] built never
    panics. *)
Theorem Quit_safe_whatever_the_phase (client : ClientPtr) :
  (∀ conn w,
     ∃ w1, NewClient client conn w = Ok client w1
       ∧ is_Some (loginTimer (deref w1 client))
       ∧ idleTimer (deref w1 client) = None
       ∧ quitTimer (deref w1 client) = None
       ∧ phase (deref w1 client) = InitPhase
       ∧ ∀ message,
           ∃ w2, Quit client message w1 = Ok tt w2
             ∧ trace w2 = trace w1
                 ++ [EvReply client (RplError "connection closed");
                     EvReply client EOF; EvHasQuit client; EvDestroy client;
                     EvTimerStop client loginTimerF;
                     EvRegistryRemove client ""])
  ∧ (∀ conn w ops w1 w2 message,
       NewClient client conn w = Ok client w1 →
       run ops w1 = Ok tt w2 →
       ∃ w3, Quit client message w2 = Ok tt w3)
  ∧ (∀ w, is_Some (loginTimer (deref w client)) →
       let cl := deref w client in
       ∃ w', destroy client w = Ok tt w'
         ∧ trace w' = trace w
             ++ [EvDestroy client; EvTimerStop client loginTimerF]
             ++ (if idleTimer cl is Some _
                 then [EvTimerStop client idleTimerF] else [])
             ++ (if quitTimer cl is Some _
                 then [EvTimerStop client quitTimerF] else [])
             ++ map (λ channel, EvChannelQuit channel client)
                    (range_channels (channels cl))
             ++ [EvRegistryRemove client (nick cl)])
  ∧ (∀ w message,
       hasQuit (deref w client) = false →
       loginTimer (deref w client) = None →
       Quit client message w = NilPanic)
  ∧ (∀ known ops w,
       (∀ x, x ∈ known → is_Some (loginTimer (deref w x))) →
       wellTargeted known ops = true →
       ∃ w', run ops w = Ok tt w').
Proof.
  split; [|split; [|split; [|split]]]; [..|apply run_total].
  - intros conn w. eexists. split; [apply NewClient_spec|].
    rewrite deref_commit. simpl. split; [by eexists|]. do 3 (split; [done|]).
    intros message. set (w1 := commit _ _ _ w).
    destruct (Quit_spec w1 client message) as (w2 & Hrun & Htr & _);
      [by unfold w1; rewrite deref_commit..|].
    exists w2. split; [done|]. rewrite Htr.
    assert (Hfriends : ClientSet_Remove client (Friends_of w1 client) = ∅).
    { apply set_eq. intros x. unfold ClientSet_Remove.
      rewrite elem_of_difference, Friends_of_elem. unfold w1 at 1.
      rewrite deref_commit. simpl. set_solver. }
    rewrite Hfriends, range_clients_empty. unfold w1 at 2 3 4 5.
    rewrite deref_commit. simpl. by rewrite range_channels_empty.
  - intros conn w ops w1 w2 message Hnew Hrun.
    rewrite NewClient_spec in Hnew. injection Hnew as <-.
    assert (Hset : is_Some (loginTimer (deref w2 client))).
    { apply (run_keeps client ops _ tt w2 Hrun).
      rewrite deref_commit. by eexists. }
    destruct (hasQuit (deref w2 client)) eqn:Hquit.
    + exists w2. by apply Quit_quit.
    + destruct (Quit_spec w2 client message Hquit Hset) as (w3 & Hq & _).
      by exists w3.
  - intros w [lt Hlt] cl.
    destruct (destroy_spec client w lt Hlt) as (w' & Hrun & Htr & _).
    by exists w'.
  - intros w message. apply Quit_nil.
Qed.

End Properties.

(** ** Further properties *)

Section Further.
Import Stdlib.Strings.Ascii.
Context `{Collaborators}.
#[local] Open Scope list_scope.
#[local] Open Scope nat_scope.

#[local] Instance field_refl {A} (R : relation A) `{!Reflexive R} g c :
  Reflexive (field R g c).
Proof. intros w. unfold field. reflexivity. Qed.

#[local] Instance field_trans {A} (R : relation A) `{!Transitive R} g c :
  Transitive (field R g c).
Proof. intros w1 w2 w3 H1 H2. unfold field in *. by etransitivity. Qed.

#[local] Instance settled_refl : Reflexive settled.
Proof. intros p Hp. exact Hp. Qed.
#[local] Instance settled_trans : Transitive settled.
Proof. intros p q r Hpq Hqr. unfold settled in *. auto. Qed.
#[local] Instance hushed_refl : Reflexive hushed.
Proof. intros p Hp. exact Hp. Qed.
#[local] Instance hushed_trans : Transitive hushed.
Proof. intros p q r Hpq Hqr. unfold hushed in *. auto. Qed.
#[local] Instance frozen_refl : Reflexive frozen.
Proof. intros p Hp. reflexivity. Qed.
#[local] Instance frozen_trans : Transitive frozen.
Proof.
  intros p q r Hpq Hqr Hp. unfold frozen in *.
  rewrite <- (Hpq Hp). apply Hqr. by rewrite (Hpq Hp).
Qed.
#[local] Instance intake_refl P : Reflexive (intake P).
Proof. intros w. exists []. by rewrite app_nil_r. Qed.
#[local] Instance intake_trans P : Transitive (intake P).
Proof.
  intros w1 w2 w3 (m1 & E1 & F1) (m2 & E2 & F2). exists (m1 ++ m2).
  split; [by rewrite E2, E1, app_assoc|by apply Forall_app].
Qed.

Lemma field_modifyClient {A} (R : relation A) `{!Reflexive R} g c x f :
  (x = c → ∀ cl, R (g cl) (g (f cl))) →
  preserves (field R g c) (modifyClient x f).
Proof.
  intros Hf. apply preserves_modify. intros w. unfold field.
  destruct (decide (x = c)) as [->|Hne].
  - rewrite deref_insert. by apply Hf.
  - by rewrite deref_insert_ne.
Qed.

Lemma field_server {A} (R : relation A) `{!Reflexive R} g c (f : World → World) :
  (∀ w, clientHeap (f w) = clientHeap w) →
  preserves (field R g c) (modify f).
Proof.
  intros Hf. apply preserves_modify. intros w. unfold field, deref.
  by rewrite Hf.
Qed.

Lemma spares_ne kind c op x :
  spares kind c op → target op = Some x → kind op = true → x ≠ c.
Proof.
  intros [_ Hk] Ht Hkind. unfold calls in Hk. rewrite Ht, Hkind in Hk.
  rewrite andb_true_r in Hk. by apply bool_decide_eq_false in Hk.
Qed.

Lemma spares_alloc kind c x conn : spares kind c (OpNewClient x conn) → x ≠ c.
Proof. intros [Ha _]. by apply bool_decide_eq_false in Ha. Qed.

Ltac field_side :=
  try (intros ->; done);
  try (intros _ ?;
       repeat match goal with
              | |- context [setTimer ?t _ _] => is_var t; destruct t
              end;
       simpl;
       first [ reflexivity
             | by apply prefix_app_r
             | done
             | by (unfold frozen, outbox; simpl; intros ->)
             | by (unfold hushed, anyActive; simpl;
                   destruct (isActive (loginTimer _)),
                            (isActive (idleTimer _)),
                            (isActive (quitTimer _))) ]).

Ltac field_prim :=
  idtac;
  match goal with
  | |- preserves _ (modifyClient _ _) =>
      apply field_modifyClient; [apply _|field_side]
  | |- preserves _ _ => apply field_server; [apply _|done]
  end.

Ltac frame_step prim :=
  match goal with
  | |- preserves _ (bind _ _) => apply preserves_bind; [apply _| |intros ?]
  | |- preserves _ (ret _) => apply preserves_ret; apply _
  | |- preserves _ (gets _) => apply preserves_gets; apply _
  | |- preserves _ (getClient _) => apply preserves_getClient; apply _
  | |- preserves _ panic => apply preserves_panic
  | |- preserves _ (forEach _ _) =>
      apply preserves_forEach; [apply _|apply _|intros ?]
  | |- preserves _ (emit _) => prim
  | |- preserves _ (modifyChannel _ _) => prim
  | |- preserves _ (modifyClient _ _) => prim
  | |- preserves _ (modify _) => prim
  | |- preserves _ (if ?b then _ else _) => destruct b
  | |- preserves _ (match ?x with _ => _ end) => destruct x
  | |- preserves _ (AfterFunc _ _ _ _) => unfold AfterFunc
  | |- preserves _ (Timer_Stop _ _) => unfold Timer_Stop
  | |- preserves _ (Timer_Reset _ _ _) => unfold Timer_Reset
  | |- preserves _ (Reply _ _) => unfold Reply
  | |- preserves _ (send_replies _ _) => unfold send_replies
  | |- preserves _ (send_commands _) => unfold send_commands
  | |- preserves _ (Touch _) => unfold Touch
  | |- preserves _ (Idle _) => unfold Idle
  | |- preserves _ (Active _) => unfold Active
  | |- preserves _ (Register _) => unfold Register
  | |- preserves _ (destroy _) => unfold destroy
  | |- preserves _ (Channel_Quit _ _) => unfold Channel_Quit
  | |- preserves _ (ClientNameMap_Remove _) => unfold ClientNameMap_Remove
  | |- preserves _ (ClientNameMap_Add _) => unfold ClientNameMap_Add
  | |- preserves _ (Friends _) => unfold Friends
  | |- preserves _ (SetNickname _ _) => unfold SetNickname
  | |- preserves _ (ChangeNickname _ _) => unfold ChangeNickname
  | |- preserves _ (Quit _ _) => unfold Quit
  | |- preserves _ (NewClient _ _) => unfold NewClient
  | |- preserves _ (connectionClosed _) => unfold connectionClosed
  | |- preserves _ (connectionTimeout _) => unfold connectionTimeout
  | |- preserves _ (connectionIdle _) => unfold connectionIdle
  | |- preserves _ (callTimerFunc _ _) => unfold callTimerFunc
  | |- preserves _ (fire _ _) => unfold fire
  | |- preserves _ (ErrNeedMoreParams _ _) => unfold ErrNeedMoreParams
  | |- preserves _ (Socket_Write _ _) => unfold Socket_Write
  | |- preserves _ (Socket_Close _) => unfold Socket_Close
  | |- preserves _ (readCommands _ _) => unfold readCommands
  | |- preserves _ (writeReplies _) => unfold writeReplies
  end.

Ltac frame_with extra prim := repeat first [extra | frame_step prim].
Ltac frame := frame_with ltac:(fail) ltac:(field_prim).

(** Puts the disequalities that [spares] gives in the context. *)
Ltac spared Hsp :=
  match type of Hsp with
  | spares _ _ (OpNewClient _ _) => pose proof (spares_alloc _ _ _ _ Hsp)
  | _ => try pose proof (spares_ne _ _ _ _ Hsp eq_refl eq_refl)
  end.

Section Field.
Context {A : Type} (R : relation A) `{!Reflexive R} `{!Transitive R}
        (g : Client → A) (kind : Op → bool) (c : ClientPtr).
Context (Hstep : ∀ op, spares kind c op → preserves (field R g c) (step op)).

Lemma run_field ops :
  Forall (spares kind c) ops → preserves (field R g c) (run ops).
Proof.
  intros Hops. unfold run. induction Hops as [|op ops Hop _ IH]; simpl.
  - apply preserves_ret. apply _.
  - apply preserves_bind; [apply _|by apply Hstep|intros _; apply IH].
Qed.
End Field.

(** atime *)
Lemma readLoop_atime c x ready : preserves (field eq atime c) (readLoop x ready).
Proof.
  induction ready as [|r ready IH]; simpl; [frame|].
  destruct r; frame; exact IH.
Qed.

Lemma writeLoop_atime c x queued : preserves (field eq atime c) (writeLoop x queued).
Proof.
  induction queued as [|r queued IH]; simpl; frame; exact IH.
Qed.

Lemma step_atime c op :
  spares isActiveCall c op → preserves (field eq atime c) (step op).
Proof.
  intros Hsp. destruct op; spared Hsp; simpl;
    frame; first [apply readLoop_atime|apply writeLoop_atime].
Qed.

(** The fields that only [NewClient] writes *)
Lemma readLoop_stamps c x ready : preserves (field eq stamps c) (readLoop x ready).
Proof.
  induction ready as [|r ready IH]; simpl; [frame|].
  destruct r; frame; exact IH.
Qed.

Lemma writeLoop_stamps c x queued : preserves (field eq stamps c) (writeLoop x queued).
Proof. induction queued as [|r queued IH]; simpl; frame; exact IH. Qed.

Lemma step_stamps c op :
  spares noCall c op → preserves (field eq stamps c) (step op).
Proof.
  intros Hsp. destruct op; spared Hsp; simpl;
    frame; first [apply readLoop_stamps|apply writeLoop_stamps].
Qed.

(** phase *)
Lemma readLoop_phase R `{!Reflexive R} `{!Transitive R} c x ready :
  preserves (field R phase c) (readLoop x ready).
Proof.
  induction ready as [|r ready IH]; simpl; [frame|].
  destruct r; frame; exact IH.
Qed.

Lemma writeLoop_phase R `{!Reflexive R} `{!Transitive R} c x queued :
  preserves (field R phase c) (writeLoop x queued).
Proof. induction queued as [|r queued IH]; simpl; frame; exact IH. Qed.

Lemma step_phase c op :
  spares isRegisterCall c op → preserves (field eq phase c) (step op).
Proof.
  intros Hsp. destruct op; spared Hsp; simpl;
    frame; first [apply readLoop_phase|apply writeLoop_phase]; apply _.
Qed.

Lemma step_settled c op :
  spares noCall c op → preserves (field settled phase c) (step op).
Proof.
  intros Hsp. destruct op; spared Hsp; simpl;
    frame; first [apply readLoop_phase|apply writeLoop_phase]; apply _.
Qed.

(** socket *)
Lemma readLoop_socket c x ready : preserves (field eq socket c) (readLoop x ready).
Proof.
  induction ready as [|r ready IH]; simpl; [frame|].
  destruct r; frame; exact IH.
Qed.

Lemma writeLoop_socket c x queued :
  x ≠ c → preserves (field eq socket c) (writeLoop x queued).
Proof. intros Hne. induction queued as [|r queued IH]; simpl; frame; exact IH. Qed.

Lemma step_socket c op :
  spares isWritePump c op → preserves (field eq socket c) (step op).
Proof.
  intros Hsp. destruct op; spared Hsp; simpl;
    frame; first [apply readLoop_socket|by apply writeLoop_socket].
Qed.

(** nick *)
Lemma readLoop_nick c x ready : preserves (field eq nick c) (readLoop x ready).
Proof.
  induction ready as [|r ready IH]; simpl; [frame|].
  destruct r; frame; exact IH.
Qed.

Lemma writeLoop_nick c x queued : preserves (field eq nick c) (writeLoop x queued).
Proof. induction queued as [|r queued IH]; simpl; frame; exact IH. Qed.

Lemma step_nick c op :
  spares isRename c op → preserves (field eq nick c) (step op).
Proof.
  intros Hsp. destruct op; spared Hsp; simpl;
    frame; first [apply readLoop_nick|apply writeLoop_nick].
Qed.

(** the reply queue *)
Lemma readLoop_replies c x ready :
  preserves (field prefix replies c) (readLoop x ready).
Proof.
  induction ready as [|r ready IH]; simpl; [frame|].
  destruct r; frame; exact IH.
Qed.

Lemma writeLoop_replies c x queued :
  x ≠ c → preserves (field prefix replies c) (writeLoop x queued).
Proof. intros Hne. induction queued as [|r queued IH]; simpl; frame; exact IH. Qed.

Lemma step_replies c op :
  spares isWritePump c op → preserves (field prefix replies c) (step op).
Proof.
  intros Hsp. destruct op; spared Hsp; simpl;
    frame; first [apply readLoop_replies|by apply writeLoop_replies].
Qed.

Lemma Reply_outbox c x reply : preserves (field frozen outbox c) (Reply x reply).
Proof.
  intros w [] w' Hrun. unfold field, frozen, outbox. simpl. intros Hq.
  destruct (hasQuit (deref w x)) eqn:Hx.
  - rewrite Reply_quit in Hrun by done. by inversion Hrun.
  - rewrite Reply_live in Hrun by done. inversion Hrun; subst.
    rewrite deref_commit_ne; [done|]. intros ->. congruence.
Qed.

Ltac Reply_frozen :=
  idtac;
  match goal with
  | |- preserves _ (Reply _ _) => apply Reply_outbox
  end.

Ltac frame_outbox := frame_with ltac:(Reply_frozen) ltac:(field_prim).

Lemma readLoop_outbox c x ready :
  preserves (field frozen outbox c) (readLoop x ready).
Proof.
  induction ready as [|r ready IH]; simpl; [frame_outbox|].
  destruct r; frame_outbox; exact IH.
Qed.

Lemma writeLoop_outbox c x queued :
  x ≠ c → preserves (field frozen outbox c) (writeLoop x queued).
Proof.
  intros Hne. induction queued as [|r queued IH]; simpl; frame_outbox; exact IH.
Qed.

Lemma step_outbox c op :
  spares isWritePump c op → preserves (field frozen outbox c) (step op).
Proof.
  intros Hsp. destruct op; spared Hsp; simpl;
    frame_outbox; first [apply readLoop_outbox|by apply writeLoop_outbox].
Qed.

(** timers *)
Lemma readLoop_hushed c x ready :
  preserves (field hushed anyActive c) (readLoop x ready).
Proof.
  induction ready as [|r ready IH]; simpl; [frame|].
  destruct r; frame; exact IH.
Qed.

Lemma writeLoop_hushed c x queued :
  preserves (field hushed anyActive c) (writeLoop x queued).
Proof. induction queued as [|r queued IH]; simpl; frame; exact IH. Qed.

Lemma step_hushed c op :
  spares armsTimer c op → preserves (field hushed anyActive c) (step op).
Proof.
  intros Hsp. destruct op; spared Hsp; simpl;
    frame; first [apply readLoop_hushed|apply writeLoop_hushed].
Qed.

Lemma run_cons op ops w :
  run (op :: ops) w = bind (step op) (λ _, run ops) w.
Proof. reflexivity. Qed.

(** the command intake queue *)
Lemma Command_client_SetClient x msg : Command_client (SetClient x msg) = Some x.
Proof. by destruct msg. Qed.

Lemma intake_same P (f : World → World) :
  (∀ w, commands (f w) = commands w) → preserves (intake P) (modify f).
Proof.
  intros Hf. apply preserves_modify. intros w. exists [].
  by rewrite Hf, app_nil_r.
Qed.

Lemma intake_send (P : Command → Prop) msg :
  P msg →
  preserves (intake P) (modify (λ w, set_commands (commands w ++ [msg]) w)).
Proof.
  intros Hmsg. apply preserves_modify. intros w. exists [msg].
  split; [done|by constructor].
Qed.

Ltac intake_prim :=
  idtac;
  unfold modifyClient, modifyChannel, emit;
  first [ apply intake_same; done
        | apply intake_send;
          first [ by auto
                | split; [reflexivity|];
                  first [reflexivity|apply Command_client_SetClient] ] ].

Ltac frame_intake := frame_with ltac:(fail) ltac:(intake_prim).

Lemma readLoop_intake (P : Command → Prop) x ready :
  (∀ msg, P (SetClient x msg)) → preserves (intake P) (readLoop x ready).
Proof.
  intros HP. induction ready as [|r ready IH]; simpl; [frame_intake|].
  destruct r; frame_intake; exact IH.
Qed.

Lemma writeLoop_intake P x queued : preserves (intake P) (writeLoop x queued).
Proof. induction queued as [|r queued IH]; simpl; frame_intake; exact IH. Qed.

Lemma step_intake op : preserves (intake (sentBy op)) (step op).
Proof.
  destruct op; simpl; frame_intake;
    first [ apply readLoop_intake; intros msg; split; [reflexivity|];
            apply Command_client_SetClient
          | apply writeLoop_intake ].
Qed.

Lemma run_intake ops w w' :
  run ops w = Ok tt w' →
  intake (λ msg, ∃ op, op ∈ ops ∧ sentBy op msg) w w'.
Proof.
  revert w. induction ops as [|op ops IH]; intros w Hrun.
  - inversion Hrun. exists []. by rewrite app_nil_r.
  - rewrite run_cons in Hrun. unfold bind in Hrun.
    destruct (step op w) as [[] w1|] eqn:Hstep; [|discriminate].
    destruct (step_intake op w tt w1 Hstep) as (m1 & E1 & F1).
    destruct (IH w1 Hrun) as (m2 & E2 & F2).
    exists (m1 ++ m2). split; [by rewrite E2, E1, app_assoc|].
    apply Forall_app. split.
    + eapply Forall_impl; [exact F1|]. intros msg Hmsg. exists op.
      split; [by left|done].
    + eapply Forall_impl; [exact F2|]. intros msg (op' & Hin & Hmsg).
      exists op'. split; [by right|done].
Qed.

(** *** What the schedules keep *)

Lemma spares_allocates kind c ops :
  Forall (spares kind c) ops → Forall (λ op, allocates c op = false) ops.
Proof. intros Hops. eapply Forall_impl; [exact Hops|]. by intros op [Ha _]. Qed.

Lemma Time_Sub_later t u :
  u ≤ t → Time_Sub t u = Z.min maxDuration (Z.of_nat (t - u)).
Proof.
  intros Hle. unfold Time_Sub, minDuration, maxDuration.
  change (2 ^ 63)%Z with 9223372036854775808%Z. lia.
Qed.

(** X13: [IdleTime] counts from the last [Active] call, or from
    [NewClient] when there was none: after any steps that are not [Active]
    on the client, [Touch] and [Idle] among them, it is the time elapsed
    since that call, within the range of a duration. *)
Theorem IdleTime_counts_from_Active (c : ClientPtr) (ops : list Op) (w w' : World) :
  Forall (spares isActiveCall c) ops →
  run (OpActive c :: ops) w = Ok tt w'
  ∨ (∃ conn, run (OpNewClient c conn :: ops) w = Ok tt w') →
  clock w ≤ clock w'
  ∧ atime (deref w' c) = clock w
  ∧ IdleTime c w' = Ok (Z.min maxDuration (Z.of_nat (clock w' - clock w))) w'.
Proof.
  intros Hops Hrun.
  assert (∃ w1, run ops w1 = Ok tt w' ∧ clock w1 = clock w
                ∧ atime (deref w1 c) = clock w) as (w1 & Hrest & Hclock & Hat).
  { destruct Hrun as [Hrun|[conn Hrun]]; rewrite run_cons in Hrun.
    - eexists. split; [exact Hrun|]. split; [done|]. simpl.
      by rewrite deref_insert.
    - simpl in Hrun. unfold bind at 1 2 in Hrun. rewrite NewClient_spec in Hrun.
      eexists. split; [exact Hrun|]. split; [done|]. by rewrite deref_commit. }
  pose proof (run_field eq atime isActiveCall c (step_atime c) ops Hops
                        w1 tt w' Hrest) as Hsame.
  pose proof (run_ages c ops (spares_allocates _ _ _ Hops) w1 tt w' Hrest)
    as (_ & _ & _ & _ & Hmono & _).
  unfold field in Hsame. rewrite Hat in Hsame. rewrite Hclock in Hmono.
  split; [done|]. split; [done|].
  unfold IdleTime, Since, bind, getClient, gets, ret.
  by rewrite <- Hsame, Time_Sub_later.
Qed.

(** X14: [SignonTime] is fixed by [NewClient]: whatever is called on the
    client afterwards, it is the Unix time of the construction.  client.go
    writes the creation time, the user name, the host name, the real name,
    the flags, the hop count and the away message in [NewClient] only. *)
Theorem SignonTime_fixed_at_construction (c : ClientPtr) (conn : Conn)
    (ops : list Op) (w w' : World) :
  Forall (spares noCall c) ops →
  run (OpNewClient c conn :: ops) w = Ok tt w' →
  ctime (deref w' c) = clock w
  ∧ SignonTime c w' = Ok (Time_Unix (clock w)) w'
  ∧ (username (deref w' c), hostname (deref w' c), realname (deref w' c),
     flags (deref w' c), hops (deref w' c), awayMessage (deref w' c))
    = (""%string, ""%string, ""%string, ∅, 0, ""%string).
Proof.
  intros Hops Hrun. rewrite run_cons in Hrun. simpl in Hrun.
  unfold bind at 1 2 in Hrun. rewrite NewClient_spec in Hrun.
  pose proof (run_field eq stamps noCall c (step_stamps c) ops Hops
                        _ tt w' Hrun) as Hsame.
  unfold field in Hsame. rewrite deref_commit in Hsame.
  unfold stamps in Hsame. simpl in Hsame.
  injection Hsame as H1 H2 H3 H4 H5 H6 H7.
  split; [done|]. split.
  - unfold SignonTime, bind, getClient, gets, ret. by rewrite <- H1.
  - by rewrite <- H2, <- H3, <- H4, <- H5, <- H6, <- H7.
Qed.

(** X12: the phase of a client changes only in [Register] (and in
    [NewClient] at the same address), and a client that is [Normal] stays
    [Normal]. *)
Theorem phase_moves_only_to_Normal (c : ClientPtr) (ops : list Op) (w w' : World) :
  run ops w = Ok tt w' →
  (Forall (spares isRegisterCall c) ops →
   phase (deref w' c) = phase (deref w c))
  ∧ (Forall (spares noCall c) ops →
     phase (deref w c) = Normal → phase (deref w' c) = Normal).
Proof.
  intros Hrun. split; intros Hops.
  - symmetry.
    exact (run_field eq phase isRegisterCall c (step_phase c) ops Hops
                     w tt w' Hrun).
  - exact (run_field settled phase noCall c (step_settled c) ops Hops
                     w tt w' Hrun).
Qed.

(** X7: only the write pump of a client writes to its socket or closes it:
    every other step, [Quit] included, leaves the socket as it is. *)
Theorem socket_belongs_to_the_write_pump (c : ClientPtr) (ops : list Op)
    (w w' : World) :
  Forall (spares isWritePump c) ops →
  run ops w = Ok tt w' →
  socket (deref w' c) = socket (deref w c).
Proof.
  intros Hops Hrun. symmetry.
  exact (run_field eq socket isWritePump c (step_socket c) ops Hops
                   w tt w' Hrun).
Qed.

(** X6: on a schedule where the write pump of the client does not run and
    its address is not allocated anew, the reply queue of the client only
    grows at its tail; and once the client has quit the queue stays exactly
    as it is, whoever among its friends quits or changes nickname. *)
Theorem reply_queue_only_grows (c : ClientPtr) (ops : list Op) (w w' : World) :
  Forall (spares isWritePump c) ops →
  run ops w = Ok tt w' →
  (∃ more, replies (deref w' c) = replies (deref w c) ++ more)
  ∧ (hasQuit (deref w c) = true →
     replies (deref w' c) = replies (deref w c)
     ∧ hasQuit (deref w' c) = true).
Proof.
  intros Hops Hrun. split.
  - exact (run_field prefix replies isWritePump c (step_replies c) ops Hops
                     w tt w' Hrun).
  - intros Hq.
    pose proof (run_field frozen outbox isWritePump c (step_outbox c) ops Hops
                          w tt w' Hrun) as Hsame.
    unfold field, frozen, outbox in Hsame. simpl in Hsame.
    specialize (Hsame Hq). injection Hsame as H1 H2. by rewrite H1, H2.
Qed.

(** X3: whatever the schedule, [server.commands] only grows at its
    tail, and every command that client.go puts on it carries the client
    it comes from: it was sent by a read pump or by a timer of the
    schedule, and it is tagged with the client of that pump or timer. *)
Theorem every_enqueued_command_is_tagged (ops : list Op) (w w' : World) :
  run ops w = Ok tt w' →
  ∃ more, commands w' = commands w ++ more
          ∧ Forall (λ msg, ∃ op, op ∈ ops ∧ enqueues op = true
                           ∧ Command_client msg = target op) more.
Proof. intros Hrun. exact (run_intake ops w w' Hrun). Qed.

Lemma anyActive_destroyed cl : anyActive (destroyed cl) = false.
Proof. unfold anyActive, destroyed. simpl. by rewrite !isActive_stopped. Qed.

Lemma anyActive_getTimer cl t :
  anyActive cl = false → isActive (getTimer t cl) = false.
Proof.
  unfold anyActive. intros Hany.
  apply orb_false_iff in Hany as [Hany Hq].
  apply orb_false_iff in Hany as [Hl Hi]. by destruct t.
Qed.

(** X8: after the first [Quit], no timer of the client is pending, and none
    fires, as long as [Touch], [Idle] and [Register] are not called on the
    client and its address is not allocated anew.  [Touch] itself does not
    look at [hasQuit]: called on the client that has quit, it arms the idle
    timer again. *)
Theorem timers_stay_silent_after_Quit (c : ClientPtr) (message : string)
    (ops : list Op) (w w' : World) :
  hasQuit (deref w c) = false →
  is_Some (loginTimer (deref w c)) →
  Forall (spares armsTimer c) ops →
  run (OpQuit c message :: ops) w = Ok tt w' →
  anyActive (deref w' c) = false
  ∧ (∀ t, fire c t w' = Ok false w')
  ∧ ∃ w2, Touch c w' = Ok tt w2 ∧ isActive (idleTimer (deref w2 c)) = true.
Proof.
  intros Hlive Hlogin Hops Hrun.
  destruct (Quit_spec w c message Hlive Hlogin)
    as (w1 & Hquit & _ & _ & _ & Hcl & _).
  rewrite run_cons in Hrun. simpl in Hrun. unfold bind at 1 in Hrun.
  rewrite Hquit in Hrun.
  pose proof (run_field hushed anyActive armsTimer c (step_hushed c) ops Hops
                        w1 tt w' Hrun) as Hsame.
  unfold field, hushed in Hsame. rewrite Hcl in Hsame.
  specialize (Hsame (anyActive_destroyed _)).
  split; [done|]. split.
  - intros t. rewrite fire_spec.
    pose proof (anyActive_getTimer _ t Hsame) as Hoff.
    destruct (getTimer t (deref w' c)) as [tm|]; [|done].
    simpl in Hoff. unfold due. by rewrite Hoff.
  - rewrite Touch_spec. eexists. split; [reflexivity|].
    by rewrite deref_commit.
Qed.

(** X15: the nickname given to [SetNickname] or [ChangeNickname] is the
    nickname of the client until the next of these calls on it; [HasNick]
    tells whether it is non-empty and [Nick] shows "*" for the empty
    one. *)
Theorem nickname_stays_until_renamed (c : ClientPtr) (n : string)
    (ops : list Op) (w w' : World) :
  Forall (spares isRename c) ops →
  run (OpSetNickname c n :: ops) w = Ok tt w'
  ∨ run (OpChangeNickname c n :: ops) w = Ok tt w' →
  nick (deref w' c) = n
  ∧ HasNick (deref w' c) = negb (String.eqb n "")
  ∧ Nick (deref w' c) = (if String.eqb n "" then "*" else n)%string.
Proof.
  intros Hops Hrun.
  assert (∃ w1, run ops w1 = Ok tt w' ∧ nick (deref w1 c) = n)
    as (w1 & Hrest & Hnick).
  { destruct Hrun as [Hrun|Hrun]; rewrite run_cons in Hrun; simpl in Hrun.
    - eexists. split; [exact Hrun|].
      unfold deref. simpl. by rewrite lookup_total_insert_eq.
    - destruct (ChangeNickname_spec w c n)
        as (? & ? & ? & w1 & _ & _ & _ & _ & Hch & _ & _ & _ & [Hn _] & _).
      unfold bind at 1 in Hrun. rewrite Hch in Hrun. by exists w1. }
  pose proof (run_field eq nick isRename c (step_nick c) ops Hops
                        w1 tt w' Hrest) as Hsame.
  unfold field in Hsame. rewrite Hnick in Hsame.
  unfold Nick, HasNick. rewrite <- Hsame. split; [done|]. split; [done|].
  by destruct (String.eqb n "").
Qed.

Lemma lineHandled_lookups c line w :
  lookups (deref (lineHandled c line w) c) = lookups (deref w c)
  ∧ hostnames (lineHandled c line w) = hostnames w.
Proof.
  unfold lineHandled. destruct (ParseCommand line) as [msg|[|e]]; [done| |done].
  destruct (hasQuit (deref w c)); [done|]. by rewrite deref_commit.
Qed.

Lemma readLoop_lookup_none c ready w :
  lookups (deref w c) = [] →
  ∃ r w', readLoop c ready w = Ok r w'
    ∧ hostnames w' = hostnames w ∧ lookups (deref w' c) = [].
Proof.
  revert w. induction ready as [|[|line] ready IH]; intros w Hl.
  - by exists None, w.
  - rewrite readLoop_lookup. unfold lookupForwarded. rewrite Hl. by apply IH.
  - destruct (decide (line = EOF)) as [->|Hne].
    + rewrite readLoop_EOF. by exists (Some ready), w.
    + rewrite readLoop_line by done.
      destruct (lineHandled_lookups c line w) as [Hl' Hh].
      destruct (IH (lineHandled c line w)) as (r & w' & Hrun & Hh' & Hl'').
      { by rewrite Hl'. }
      exists r, w'. split; [done|]. split; [congruence|done].
Qed.

Lemma lookupForwarded_pending c ip pending w :
  lookups (deref w c) = ip :: pending →
  hostnames (lookupForwarded c w) = hostnames w ++ [NewHostnameLookup c ip]
  ∧ lookups (deref (lookupForwarded c w) c) = pending.
Proof.
  intros Hl. unfold lookupForwarded. rewrite Hl. split; [done|].
  rewrite deref_set_trace. unfold deref. simpl.
  by rewrite lookup_total_insert_eq.
Qed.

Lemma readLoop_lookup_pending c ip ready w :
  lookups (deref w c) = [ip] →
  ∃ r w', readLoop c ready w = Ok r w'
    ∧ (hostnames w' = hostnames w
       ∨ hostnames w' = hostnames w ++ [NewHostnameLookup c ip]).
Proof.
  revert w. induction ready as [|[|line] ready IH]; intros w Hl.
  - exists None, w. split; [done|]. by left.
  - rewrite readLoop_lookup.
    destruct (lookupForwarded_pending c ip [] w Hl) as [Hh Hl'].
    destruct (readLoop_lookup_none c ready _ Hl') as (r & w' & Hrun & Hh' & _).
    exists r, w'. split; [done|]. right. congruence.
  - destruct (decide (line = EOF)) as [->|Hne].
    + rewrite readLoop_EOF. exists (Some ready), w. split; [done|]. by left.
    + rewrite readLoop_line by done.
      destruct (lineHandled_lookups c line w) as [Hl' Hh].
      destruct (IH (lineHandled c line w)) as (r & w' & Hrun & Hcases).
      { by rewrite Hl'. }
      exists r, w'. split; [done|]. by rewrite <- Hh.
Qed.

Lemma readLoop_lines c pre more w :
  Forall (λ r, ∃ line, r = ReadyLine line ∧ line ≠ EOF) pre →
  ∃ w1, readLoop c (pre ++ more) w = readLoop c more w1
    ∧ hostnames w1 = hostnames w
    ∧ lookups (deref w1 c) = lookups (deref w c).
Proof.
  intros Hpre. revert w.
  induction Hpre as [|r pre (line & -> & Hne) _ IH]; intros w.
  - by exists w.
  - simpl app. rewrite readLoop_line by done.
    destruct (lineHandled_lookups c line w) as [Hl Hh].
    destruct (IH (lineHandled c line w)) as (w1 & Hrun & Hh1 & Hl1).
    exists w1. split; [done|]. split; congruence.
Qed.

(** X1: [NewClient] leaves one hostname lookup pending, for the address of
    the connection.  The read pump forwards it on [server.hostnames] the
    first time it receives it, as a [HostnameLookup] naming the client and
    the resolved host, whatever lines it handled before; and whatever the
    read pump receives, that lookup is forwarded once at most. *)
Theorem hostname_lookup_is_forwarded_once (c : ClientPtr) (conn : Conn)
    (w : World) :
  let lookup := {| hl_client := c;
                   hl_hostname := LookupHostname (IPString (RemoteAddr conn)) |} in
  ∃ w1, NewClient c conn w = Ok c w1
    ∧ hostnames w1 = hostnames w
    ∧ (∀ pre rest,
         Forall (λ r, ∃ line, r = ReadyLine line ∧ line ≠ EOF) pre →
         ∃ r w', readLoop c (pre ++ ReadyLookup :: rest) w1 = Ok r w'
           ∧ hostnames w' = hostnames w ++ [lookup])
    ∧ (∀ ready,
         ∃ r w', readLoop c ready w1 = Ok r w'
           ∧ (hostnames w' = hostnames w
              ∨ hostnames w' = hostnames w ++ [lookup])).
Proof.
  intros lookup. eexists. split; [apply NewClient_spec|].
  set (w1 := commit _ _ _ _).
  assert (Hl : lookups (deref w1 c) = [IPString (RemoteAddr conn)]).
  { unfold w1. by rewrite deref_commit. }
  split; [done|]. split.
  - intros pre rest Hpre.
    destruct (readLoop_lines c pre (ReadyLookup :: rest) w1 Hpre)
      as (w2 & Hrun & Hh & Hl2).
    rewrite Hrun, readLoop_lookup. rewrite Hl in Hl2.
    destruct (lookupForwarded_pending c _ [] w2 Hl2) as [Hh3 Hl3].
    destruct (readLoop_lookup_none c rest _ Hl3) as (r & w' & Hrun' & Hh' & _).
    exists r, w'. split; [done|]. rewrite Hh', Hh3, Hh. done.
  - intros ready. apply (readLoop_lookup_pending c _ ready w1 Hl).
Qed.

Lemma cut_app sep a b :
  cut sep a = None → cut sep (a ++ String.String sep b)%string = Some (a, b).
Proof.
  induction a as [|x a IH]; simpl.
  - intros _. by rewrite Ascii.eqb_refl.
  - destruct (Ascii.eqb x sep); [done|].
    destruct (cut sep a) as [[before after]|]; [done|].
    intros _. by rewrite IH.
Qed.

(** X16: [UserHost] can be split back.  [Nick] and the user part are never
    empty; [Id] and [String] are [UserHost]; when the nickname has no "!"
    the first "!" of the result separates the nickname from the rest, and
    when the user name has no "@" the first "@" of the rest separates the
    user name from the host name. *)
Theorem UserHost_splits_back (c : Client) :
  let user := if HasUsername c then username c else "*"%string in
  Nick c ≠ ""%string
  ∧ user ≠ ""%string
  ∧ Id c = UserHost c
  ∧ String c = UserHost c
  ∧ (cut "!"%char (Nick c) = None →
     cut "!"%char (UserHost c)
     = Some (Nick c, (user ++ "@" ++ hostname c)%string))
  ∧ (cut "@"%char user = None →
     cut "@"%char (user ++ "@" ++ hostname c)%string = Some (user, hostname c)).
Proof.
  intros user. split; [|split; [|split; [done|split; [done|split]]]].
  - unfold Nick, HasNick.
    by destruct (String.eqb_spec (nick c) ""%string).
  - unfold user, HasUsername.
    by destruct (String.eqb_spec (username c) ""%string).
  - intros Hcut. unfold UserHost. fold user. by apply (cut_app "!"%char).
  - intros Hcut. by apply (cut_app "@"%char).
Qed.

Lemma writeReplies_until_EOF c pre post w :
  let cl := deref w c in
  replies cl = pre ++ EOF :: post →
  writable (socket cl) pre = true →
  ∃ w', writeReplies c w = Ok (Exited tt) w'
    ∧ onlyClient c
        (set_socket {| written := written (socket cl) ++ pre;
                       closed := S (closed (socket cl)) |}
                    (set_replies post cl))
        (map (λ line, EvSocketWrite c line false) pre ++ [EvSocketClose c])
        w w'.
Proof.
  intros cl Hq Hok.
  destruct (writeLoop_writable c pre (EOF :: post) w Hq Hok)
    as (w1 & Hrun & Honly).
  unfold writeReplies. unfold bind at 1, getClient at 1, gets. fold cl.
  rewrite Hq. unfold bind at 1. rewrite Hrun, writeLoop_EOF.
  erewrite bind_Ok by apply Socket_Close_spec. unfold ret.
  rewrite commit_commit, deref_commit.
  eexists. split; [reflexivity|].
  pose proof (onlyClient_trans _ _ _ _ _ _ _ _ Honly
                (onlyClient_commit c
                   (set_socket {| written := written (socket cl) ++ pre;
                        closed := S (closed (socket cl)) |}
                     (set_replies post cl)) [EvSocketClose c] w1)) as Hb.
  destruct Honly as (Hcl1 & _). rewrite Hcl1. simpl. exact Hb.
Qed.

Lemma writeReplies_drains c w :
  let cl := deref w c in
  writable (socket cl) (replies cl) = true →
  ∃ w', writeReplies c w = Ok Waiting w'
    ∧ onlyClient c
        (set_socket {| written := written (socket cl) ++ replies cl;
                       closed := closed (socket cl) |}
                    (set_replies [] cl))
        (map (λ line, EvSocketWrite c line false) (replies cl)) w w'.
Proof.
  intros cl Hok.
  destruct (writeLoop_writable c (replies cl) [] w) as (w1 & Hrun & Honly);
    [by rewrite app_nil_r|done|].
  unfold writeReplies. unfold bind at 1, getClient at 1, gets. fold cl.
  rewrite app_nil_r in Hrun. unfold bind at 1. rewrite Hrun, writeLoop_end.
  exists w1. split; [done|]. exact Honly.
Qed.

(** X5: [Quit] does not touch the socket; it is the write pump that, after
    the first [Quit], writes what was queued and then the closing error
    line, closes the socket once and returns.  This needs the pending lines
    and the error line to be writable: no write fails and none of them is
    the end marker. *)
Theorem Quit_makes_the_pump_flush_and_close (c : ClientPtr) (message : string)
    (w : World) :
  let cl := deref w c in
  let bye := RplError "connection closed" in
  hasQuit cl = false →
  is_Some (loginTimer cl) →
  writable (socket cl) (replies cl ++ [bye]) = true →
  ∃ w1 w2, Quit c message w = Ok tt w1
    ∧ socket (deref w1 c) = socket cl
    ∧ writeReplies c w1 = Ok (Exited tt) w2
    ∧ socket (deref w2 c)
      = {| written := written (socket cl) ++ replies cl ++ [bye];
           closed := S (closed (socket cl)) |}
    ∧ replies (deref w2 c) = []
    ∧ trace w2 = trace w1
        ++ map (λ line, EvSocketWrite c line false) (replies cl ++ [bye])
        ++ [EvSocketClose c].
Proof.
  intros cl bye Hlive Hlogin Hok.
  destruct (Quit_spec w c message Hlive Hlogin)
    as (w1 & Hquit & _ & _ & _ & Hcl & _).
  fold cl in Hcl.
  destruct (writeReplies_until_EOF c (replies cl ++ [bye]) [] w1)
    as (w2 & Hpump & Hcl2 & _ & Htr & _).
  { rewrite Hcl. simpl. by rewrite <- app_assoc. }
  { by rewrite Hcl. }
  exists w1, w2. rewrite Hcl in Hcl2. simpl in Hcl2.
  split; [done|]. split; [by rewrite Hcl|]. split; [done|].
  rewrite Hcl2. simpl. rewrite Htr. done.
Qed.

Lemma run_Reply c lines w :
  hasQuit (deref w c) = false →
  ∃ w', run (map (OpReply c) lines) w = Ok tt w'
    ∧ onlyClient c (pushed lines (deref w c)) (map (EvReply c) lines) w w'.
Proof.
  revert w. induction lines as [|line lines IH]; intros w Hlive.
  - exists w. split; [done|]. unfold onlyClient, sameServer, pushed.
    rewrite !app_nil_r. by destruct (deref w c).
  - simpl map. rewrite run_cons. simpl step. unfold bind at 1.
    rewrite Reply_live by done.
    destruct (IH (commit c (pushed [line] (deref w c)) [EvReply c line] w))
      as (w' & Hrun & Honly).
    { by rewrite deref_commit. }
    exists w'. split; [done|].
    pose proof (onlyClient_trans _ _ _ _ _ _ _ _
                  (onlyClient_commit c _ [EvReply c line] w) Honly) as Hb.
    rewrite deref_commit in Hb. unfold pushed in *. simpl in Hb.
    rewrite <- app_assoc in Hb. exact Hb.
Qed.

Lemma sendsFit_same len c (lines : list string) :
  len c + length lines ≤ repliesCapacity →
  sendsFit len (map (EvReply c) lines) = true.
Proof.
  revert len. induction lines as [|line lines IH]; intros len Hroom; [done|].
  simpl in *. apply andb_true_iff. split; [apply Nat.ltb_lt; lia|].
  apply IH. unfold bump. rewrite decide_True by done. lia.
Qed.

(** X4: what is replied is what is written.  Lines passed to [Reply] on a
    client that has not quit and whose reply queue has room for them join
    the queue in the order of the calls, each send finding room; when no
    write fails and no line is the end marker, the write pump then writes
    the whole queue to the socket in that order, leaves the queue empty
    and the socket open, and waits. *)
Theorem replies_reach_the_socket_in_order (c : ClientPtr) (lines : list string)
    (w : World) :
  let cl := deref w c in
  hasQuit cl = false →
  hasRoom (length lines) cl →
  writable (socket cl) (replies cl ++ lines) = true →
  ∃ w1 w2, run (map (OpReply c) lines) w = Ok tt w1
    ∧ trace w1 = trace w ++ map (EvReply c) lines
    ∧ sendsFit (queued w) (map (EvReply c) lines) = true
    ∧ replies (deref w1 c) = replies cl ++ lines
    ∧ length (replies (deref w1 c)) ≤ repliesCapacity
    ∧ writeReplies c w1 = Ok Waiting w2
    ∧ socket (deref w2 c)
      = {| written := written (socket cl) ++ replies cl ++ lines;
           closed := closed (socket cl) |}
    ∧ replies (deref w2 c) = [].
Proof.
  intros cl Hlive Hroom Hok. unfold hasRoom in Hroom.
  destruct (run_Reply c lines w Hlive) as (w1 & Hrun & Hcl & _ & Htr & _).
  fold cl in Hcl.
  destruct (writeReplies_drains c w1) as (w2 & Hpump & Hcl2 & _).
  { by rewrite Hcl. }
  exists w1, w2. rewrite Hcl in Hcl2. simpl in Hcl2.
  split; [done|]. split; [done|].
  split; [by apply sendsFit_same|].
  split; [by rewrite Hcl|].
  split; [rewrite Hcl; simpl; rewrite length_app; lia|].
  split; [done|]. by rewrite Hcl2.
Qed.

(** X9: [Touch] puts the idle notice off by the idle timeout.  Before
    [IDLE_TIMEOUT] has elapsed since the call the idle timer does not fire;
    from then on it fires, once: the client is sent on [server.idle], no
    command is enqueued, and the timer does not fire a second time. *)
Theorem Touch_postpones_the_idle_notice (c : ClientPtr) (d : nat) (w : World) :
  wired (deref w c) →
  ∃ later, run [OpTouch c; OpElapse d] w = Ok tt later
    ∧ (d < IDLE_TIMEOUT → fire c idleTimerF later = Ok false later)
    ∧ (IDLE_TIMEOUT ≤ d →
       ∃ w', fire c idleTimerF later = Ok true w'
         ∧ idle w' = idle w ++ [c]
         ∧ commands w' = commands w
         ∧ fire c idleTimerF w' = Ok false w').
Proof.
  intros Hwired. rewrite run_cons. simpl step. unfold bind at 1.
  rewrite Touch_spec. unfold run. simpl. unfold bind, ret, modify.
  eexists. split; [reflexivity|].
  set (w1 := commit c _ _ w).
  set (later := set_clock _ w1).
  assert (Hcl : deref later c = touched (clock w) (deref w c)).
  { unfold later. unfold deref. simpl. by rewrite lookup_total_insert_eq. }
  assert (Hfn : (if idleTimer (deref w c) is Some it then fn it
                 else connectionIdleFunc) = connectionIdleFunc).
  { destruct Hwired as (_ & Hi & _).
    by destruct (idleTimer (deref w c)). }
  split.
  - intros Hd. rewrite fire_spec, Hcl. simpl. unfold due. simpl.
    replace (clock w + IDLE_TIMEOUT <=? clock w + d) with false; [done|].
    symmetry. apply Nat.leb_gt. lia.
  - intros Hd. rewrite fire_spec, Hcl. simpl. unfold due. simpl.
    replace (clock w + IDLE_TIMEOUT <=? clock w + d) with true
      by (symmetry; apply Nat.leb_le; lia).
    eexists. split; [reflexivity|]. unfold fired. cbn [fn]. rewrite Hfn.
    split; [done|]. split; [done|].
    rewrite fire_spec. unfold deref at 1. simpl.
    by rewrite lookup_total_insert_eq.
Qed.

(** X18: when channels and clients agree on who is a member of what,
    [Friends] is symmetric: a client is among the friends of each of its
    friends. *)
Theorem Friends_is_symmetric (w : World) (a b : ClientPtr) :
  membershipAgrees w → b ∈ Friends_of w a → a ∈ Friends_of w b.
Proof.
  intros Hagree. rewrite !Friends_of_elem. intros [->|(ch & Hch & Hb)].
  - by left.
  - right. exists ch. split; [by apply Hagree|by apply Hagree].
Qed.

Lemma lineHandled_commands c line w :
  commands (lineHandled c line w) = commands w ++ parsedOf c [line].
Proof.
  unfold lineHandled, parsedOf. simpl.
  destruct (ParseCommand line) as [msg|[|e]]; simpl.
  - done.
  - rewrite app_nil_r. by destruct (hasQuit (deref w c)).
  - by rewrite app_nil_r.
Qed.

Lemma parsedOf_cons c line lines :
  parsedOf c (line :: lines) = parsedOf c [line] ++ parsedOf c lines.
Proof. unfold parsedOf. simpl. by destruct (ParseCommand line). Qed.

Lemma readLoop_in_order c lines more w :
  Forall (λ line, line ≠ EOF) lines →
  ∃ w1, readLoop c (map ReadyLine lines ++ more) w = readLoop c more w1
    ∧ commands w1 = commands w ++ parsedOf c lines.
Proof.
  intros Hlines. revert w.
  induction Hlines as [|line lines Hne _ IH]; intros w.
  - exists w. by rewrite app_nil_r.
  - rewrite map_cons, <- app_comm_cons, readLoop_line by done.
    destruct (IH (lineHandled c line w)) as (w1 & Hrun & Hcmd).
    exists w1. split; [done|].
    by rewrite Hcmd, lineHandled_commands, (parsedOf_cons c line lines),
         app_assoc.
Qed.

(** X2: the read pump sends the commands on [server.commands] in the order
    in which it read their lines: after lines none of which is the end
    marker, the queue has gained the commands of the lines that parse,
    tagged with the client, in the order of the lines, and nothing for the
    lines that do not parse; at the end marker the closing quit comes
    last. *)
Theorem read_pump_keeps_the_order (c : ClientPtr) (lines : list string)
    (rest : list Ready) (w : World) :
  Forall (λ line, line ≠ EOF) lines →
  (∃ w1, readCommands c (map ReadyLine lines) w = Ok Waiting w1
     ∧ commands w1 = commands w ++ parsedOf c lines)
  ∧ (∃ w2, readCommands c (map ReadyLine lines ++ ReadyLine EOF :: rest) w
           = Ok (Exited rest) w2
       ∧ commands w2 = commands w ++ parsedOf c lines
                       ++ [QuitCommand (Some c) "connection closed"]).
Proof.
  intros Hlines. split.
  - destruct (readLoop_in_order c lines [] w Hlines) as (w1 & Hrun & Hcmd).
    rewrite app_nil_r in Hrun. exists w1. split; [|done].
    unfold readCommands, bind. by rewrite Hrun.
  - destruct (readLoop_in_order c lines (ReadyLine EOF :: rest) w Hlines)
      as (w1 & Hrun & Hcmd).
    eexists. split.
    + unfold readCommands, bind at 1. rewrite Hrun, readLoop_EOF. reflexivity.
    + simpl. by rewrite Hcmd, app_assoc.
Qed.

Lemma readLoop_timers c x ready : preserves (field eq timers c) (readLoop x ready).
Proof.
  induction ready as [|r ready IH]; simpl; [frame|].
  destruct r; frame; exact IH.
Qed.

Lemma writeLoop_timers c x queued : preserves (field eq timers c) (writeLoop x queued).
Proof. induction queued as [|r queued IH]; simpl; frame; exact IH. Qed.

Lemma step_timers c op :
  spares isTimerCall c op → preserves (field eq timers c) (step op).
Proof.
  intros Hsp. destruct op; spared Hsp; simpl;
    frame; first [apply readLoop_timers|apply writeLoop_timers].
Qed.

(** X10: the three timers of a client change only through [Touch], [Idle],
    [Register], [Quit] and their own firing (and [NewClient] at the same
    address).  [Active], [Reply], the nickname changes and both pumps leave
    them alone: reading a line does not put the idle timeout off. *)
Theorem timers_change_only_by_timer_calls (c : ClientPtr) (ops : list Op)
    (w w' : World) :
  Forall (spares isTimerCall c) ops →
  run ops w = Ok tt w' →
  loginTimer (deref w' c) = loginTimer (deref w c)
  ∧ idleTimer (deref w' c) = idleTimer (deref w c)
  ∧ quitTimer (deref w' c) = quitTimer (deref w c).
Proof.
  intros Hops Hrun.
  pose proof (run_field eq timers isTimerCall c (step_timers c) ops Hops
                        w tt w' Hrun) as Hsame.
  unfold field, timers in Hsame. injection Hsame as H1 H2 H3. done.
Qed.

#[local] Instance circle_refl c : Reflexive (circle c).
Proof. by intros w. Qed.
#[local] Instance circle_trans c : Transitive (circle c).
Proof. intros w1 w2 w3 [A1 A2] [B1 B2]. split; congruence. Qed.

Lemma circle_modifyClient c x f :
  (x = c → ∀ cl, channels (f cl) = channels cl) →
  preserves (circle c) (modifyClient x f).
Proof.
  intros Hf. apply preserves_modify. intros w. split; [|done].
  destruct (decide (x = c)) as [->|Hne].
  - rewrite deref_insert. symmetry. by apply Hf.
  - by rewrite deref_insert_ne.
Qed.

Lemma circle_server c (f : World → World) :
  (∀ w, clientHeap (f w) = clientHeap w ∧ channelHeap (f w) = channelHeap w) →
  preserves (circle c) (modify f).
Proof.
  intros Hf. apply preserves_modify. intros w. destruct (Hf w) as [Hc Hch].
  unfold circle, deref. by rewrite Hc, Hch.
Qed.

Ltac circle_prim :=
  idtac;
  match goal with
  | |- preserves _ (modifyClient _ _) =>
      apply circle_modifyClient; field_side
  | |- preserves _ _ => apply circle_server; done
  end.

Ltac frame_circle := frame_with ltac:(fail) ltac:(circle_prim).

Lemma readLoop_circle c x ready : preserves (circle c) (readLoop x ready).
Proof.
  induction ready as [|r ready IH]; simpl; [frame_circle|].
  destruct r; frame_circle; exact IH.
Qed.

Lemma writeLoop_circle c x queued : preserves (circle c) (writeLoop x queued).
Proof. induction queued as [|r queued IH]; simpl; frame_circle; exact IH. Qed.

Lemma step_circle c op :
  isQuitCall op = false → allocates c op = false →
  preserves (circle c) (step op).
Proof.
  intros Hq Ha. destruct op; try discriminate; simpl;
    try apply bool_decide_eq_false in Ha;
    frame_circle; first [apply readLoop_circle|apply writeLoop_circle].
Qed.

(** *** The idle timer and the quit timer *)

Lemma atMostOnePending_same cl cl' :
  idleTimer cl' = idleTimer cl → quitTimer cl' = quitTimer cl →
  atMostOnePending cl → atMostOnePending cl'.
Proof. unfold atMostOnePending. by intros -> ->. Qed.

Lemma atMostOnePending_quit_off cl :
  isActive (quitTimer cl) = false → atMostOnePending cl.
Proof. unfold atMostOnePending. intros Hq [_ Hq']. congruence. Qed.

Lemma atMostOnePending_idle_off cl :
  isActive (idleTimer cl) = false → atMostOnePending cl.
Proof. unfold atMostOnePending. intros Hi [Hi' _]. congruence. Qed.

Lemma pending_frame c op w w' :
  spares isTimerCall c op →
  atMostOnePending (deref w c) →
  step op w = Ok tt w' →
  atMostOnePending (deref w' c).
Proof.
  intros Hsp Hinv Hstep.
  pose proof (step_timers c op Hsp w tt w' Hstep) as Hsame.
  unfold field, timers in Hsame. injection Hsame as Hl Hi Hq.
  by apply (atMostOnePending_same (deref w c)).
Qed.

Lemma spares_other kind c op x :
  target op = Some x → x ≠ c → spares kind c op.
Proof.
  intros Ht Hne. split.
  - destruct op; simpl in *; try done. injection Ht as ->.
    by apply bool_decide_eq_false.
  - unfold calls. rewrite Ht. by rewrite bool_decide_eq_false_2.
Qed.

Lemma step_pending c op w w' :
  atMostOnePending (deref w c) →
  (op = OpIdle c → isActive (idleTimer (deref w c)) = false) →
  step op w = Ok tt w' →
  atMostOnePending (deref w' c).
Proof.
  intros Hinv Hguard Hstep.
  destruct (target op) as [x|] eqn:Ht.
  2: { apply (pending_frame c op w w'); [|done..].
       destruct op; try discriminate. by split. }
  destruct (decide (x = c)) as [->|Hne].
  2: { by apply (pending_frame c op w w'); [apply (spares_other _ _ _ x)|..]. }
  destruct op; simpl in Ht; try discriminate; injection Ht as ->;
    try (match type of Hstep with
         | step ?op _ = _ =>
             by apply (pending_frame c op w w');
               [split; [done|apply andb_false_r]|..]
         end);
    cbn [step] in Hstep.
  - (* NewClient *)
    unfold bind in Hstep. rewrite NewClient_spec in Hstep.
    cbv beta iota in Hstep. unfold ret in Hstep.
    injection Hstep as <-. rewrite deref_commit.
    by apply atMostOnePending_quit_off.
  - (* Quit *)
    destruct (hasQuit (deref w c)) eqn:Hq.
    { rewrite Quit_quit in Hstep by done. by injection Hstep as <-. }
    destruct (loginTimer (deref w c)) as [lt|] eqn:Hl.
    + destruct (Quit_spec w c message Hq) as (w1 & Hrun & _ & _ & _ & Hcl & _);
        [by rewrite Hl|].
      rewrite Hrun in Hstep. injection Hstep as <-. rewrite Hcl.
      apply atMostOnePending_quit_off. unfold quitted, destroyed. simpl.
      apply isActive_stopped.
    + by rewrite Quit_nil in Hstep.
  - (* Touch *)
    rewrite Touch_spec in Hstep. injection Hstep as <-. rewrite deref_commit.
    apply atMostOnePending_quit_off. unfold touched. simpl.
    apply isActive_stopped.
  - (* Idle *)
    specialize (Hguard eq_refl). rewrite Idle_spec in Hstep.
    injection Hstep as <-. apply atMostOnePending_idle_off.
    by destruct (hasQuit (deref w c)); rewrite deref_commit.
  - (* Register *)
    destruct (loginTimer (deref w c)) as [lt|] eqn:Hl.
    + rewrite Register_spec in Hstep by (by rewrite Hl).
      injection Hstep as <-. rewrite deref_commit.
      apply atMostOnePending_quit_off. unfold registered, touched. simpl.
      apply isActive_stopped.
    + by rewrite Register_nil in Hstep.
  - (* a timer fires *)
    unfold bind in Hstep. rewrite fire_spec in Hstep.
    destruct (getTimer t (deref w c)) as [tm|] eqn:Htm;
      [destruct (due (clock w) tm)|]; cbv beta iota in Hstep;
      unfold ret in Hstep; injection Hstep as <-; try done.
    rewrite deref_fired. destruct t; simpl.
    + by apply (atMostOnePending_same (deref w c)).
    + by apply atMostOnePending_idle_off.
    + by apply atMostOnePending_quit_off.
Qed.

(** C7, amended: [NewClient] leaves the idle timer and the quit timer nil.
    [Touch()] stops the quit timer when it is set and arms the idle timer,
    or resets it, to [IDLE_TIMEOUT] from now, so that at most one of the
    two is pending after it, whatever the state before.  When the idle
    timer fires, the client is sent on [server.idle] and the idle timer is
    no longer pending; nothing else changes.  [Idle()], on a client that has
    not quit and whose reply queue has room for a line, sends the client
    exactly one ping and arms the quit timer, or resets it, to
    [QUIT_TIMEOUT] from now; it leaves the idle timer as it is, so that at
    most one of the two is pending after it exactly when the idle timer was
    not pending at the call.  Every step keeps "at most one pending" but a
    call of [Idle()] made while the idle timer is pending; so does every
    schedule in which each [Idle()] finds the idle timer not pending. *)
Theorem timers_at_most_one_pending (client : ClientPtr) :
  (∀ conn w, ∃ w', NewClient client conn w = Ok client w'
                   ∧ idleTimer (deref w' client) = None
                   ∧ quitTimer (deref w' client) = None
                   ∧ atMostOnePending (deref w' client))
  ∧ (∀ w, ∃ w', Touch client w = Ok tt w'
            ∧ trace w' = trace w ++ touchEvents client (deref w client)
            ∧ isActive (quitTimer (deref w' client)) = false
            ∧ (∃ it, idleTimer (deref w' client) = Some it
                     ∧ active it = true
                     ∧ when it = clock w + IDLE_TIMEOUT)
            ∧ atMostOnePending (deref w' client))
  ∧ (∀ w it,
       idleTimer (deref w client) = Some it →
       wired (deref w client) →
       due (clock w) it = true →
       ∃ w', fire client idleTimerF w = Ok true w'
         ∧ trace w' = trace w ++ [EvIdle client]
         ∧ idle w' = idle w ++ [client]
         ∧ isActive (idleTimer (deref w' client)) = false
         ∧ quitTimer (deref w' client) = quitTimer (deref w client)
         ∧ replies (deref w' client) = replies (deref w client))
  ∧ (∀ w, hasQuit (deref w client) = false →
          hasRoom 1 (deref w client) →
          ∃ w', Idle client w = Ok tt w'
            ∧ trace w' = trace w
                ++ [EvReply client (RplPing (deref w client));
                    quitArmEvent client (deref w client)]
            ∧ replies (deref w' client)
              = replies (deref w client) ++ [RplPing (deref w client)]
            ∧ idleTimer (deref w' client) = idleTimer (deref w client)
            ∧ (∃ qt, quitTimer (deref w' client) = Some qt
                     ∧ active qt = true
                     ∧ when qt = clock w + QUIT_TIMEOUT)
            ∧ (atMostOnePending (deref w' client)
               ↔ isActive (idleTimer (deref w client)) = false))
  ∧ (∀ op w w',
       atMostOnePending (deref w client) →
       (op = OpIdle client → isActive (idleTimer (deref w client)) = false) →
       step op w = Ok tt w' →
       atMostOnePending (deref w' client))
  ∧ (∀ ops w w',
       atMostOnePending (deref w client) →
       idleInTurn client ops w = true →
       run ops w = Ok tt w' →
       atMostOnePending (deref w' client)).
Proof.
  split; [|split; [|split; [|split; [|split]]]].
  - intros conn w. eexists. split; [apply NewClient_spec|].
    rewrite deref_commit. split; [done|]. split; [done|].
    by apply atMostOnePending_quit_off.
  - intros w. rewrite Touch_spec. eexists. split; [reflexivity|].
    rewrite deref_commit. split; [done|].
    assert (Hoff : isActive (quitTimer (touched (clock w) (deref w client)))
                   = false).
    { unfold touched; simpl. apply isActive_stopped. }
    split; [done|]. split; [eexists; by split|].
    by apply atMostOnePending_quit_off.
  - intros w it Hit Hwired Hdue. rewrite fire_spec. cbn [getTimer].
    rewrite Hit, Hdue. eexists. split; [reflexivity|].
    rewrite deref_fired. unfold fired.
    rewrite (wired_getTimer _ idleTimerF it Hwired Hit). by simpl.
  - intros w Hlive Hroom. rewrite Idle_spec, Hlive. eexists.
    split; [reflexivity|]. rewrite deref_commit.
    split; [done|]. split; [done|]. split; [done|].
    split; [eexists; by split|].
    unfold atMostOnePending, quitArmed. simpl. split.
    + intros Hinv. destruct (isActive (idleTimer (deref w client))); [|done].
      by destruct Hinv.
    + intros Hoff [Hon _]. congruence.
  - intros op w w'. apply step_pending.
  - intros ops. induction ops as [|op ops IH]; intros w w' Hinv Hturn Hrun.
    + inversion Hrun. by subst.
    + rewrite run_cons in Hrun. unfold bind in Hrun. simpl in Hturn.
      destruct (step op w) as [[] w1|] eqn:Hstep; [|discriminate].
      apply andb_true_iff in Hturn as [Hnow Hrest].
      apply (IH w1 w'); [|done..].
      apply (step_pending client op w w1); [done| |done].
      intros ->. rewrite bool_decide_eq_true_2 in Hnow by done.
      by apply negb_true_iff.
Qed.

(** X19: as long as nobody quits and the address of the client is not
    allocated anew, [Friends] of the client stays the same: no other
    operation of client.go changes a channel set or the members of a
    channel. *)
Theorem Friends_changes_only_by_Quit (c : ClientPtr) (ops : list Op)
    (w w' : World) :
  Forall (λ op, isQuitCall op = false ∧ allocates c op = false) ops →
  run ops w = Ok tt w' →
  Friends_of w' c = Friends_of w c.
Proof.
  intros Hops Hrun.
  assert (Hcircle : circle c w w').
  { revert w Hrun. unfold run.
    induction Hops as [|op ops [Hq Ha] _ IH]; intros w Hrun; simpl in Hrun.
    - inversion Hrun. reflexivity.
    - unfold bind in Hrun. destruct (step op w) as [[] w1|] eqn:Hstep;
        [|discriminate].
      transitivity w1; [exact (step_circle c op Hq Ha w tt w1 Hstep)|by apply IH]. }
  destruct Hcircle as [Hch Hheap]. by apply Friends_of_ext.
Qed.

End Further.

Section ModeStrings.
Context (UserMode_String : nat → string) (range_flags : gset nat → list nat).
Context (range_flags_perm : ∀ s, range_flags s ≡ₚ elements s).
#[local] Open Scope nat_scope.

Lemma length_append (a b : string) :
  String.length (a ++ b)%string = String.length a + String.length b.
Proof. induction a as [|x a IH]; simpl; [done|by rewrite IH]. Qed.

Lemma foldl_append_length (acc : string) (l : list nat) :
  String.length (foldl (λ str flag, (str ++ UserMode_String flag)%string) acc l)
  = String.length acc
    + sum_list_with (λ flag, String.length (UserMode_String flag)) l.
Proof.
  revert acc. induction l as [|x l IH]; intros acc; simpl; [lia|].
  rewrite IH, length_append. lia.
Qed.

(** X17: [ModeString] is empty for a client without flags; otherwise its
    length is one more than the sum of the lengths of the flags' names,
    whatever the order in which the flags are visited, unless all the names
    are empty; and it is either empty or "+" followed by a non-empty
    string. *)
Theorem ModeString_is_empty_or_plus (c : Client) :
  let total := sum_list_with (λ flag, String.length (UserMode_String flag))
                             (elements (flags c)) in
  (flags c = ∅ → ModeString UserMode_String range_flags c = ""%string)
  ∧ String.length (ModeString UserMode_String range_flags c)
    = (if total is 0 then 0 else S total)
  ∧ (ModeString UserMode_String range_flags c = ""%string
     ∨ ∃ str, str ≠ ""%string
              ∧ ModeString UserMode_String range_flags c
                = ("+" ++ str)%string).
Proof.
  intros total.
  assert (Hlen : ∀ l, l ≡ₚ elements (flags c) →
            String.length
              (foldl (λ str flag, (str ++ UserMode_String flag)%string)
                     ""%string l) = total).
  { intros l Hl. rewrite foldl_append_length. simpl. unfold total.
    by rewrite Hl. }
  specialize (Hlen _ (range_flags_perm (flags c))).
  unfold ModeString.
  set (str := foldl _ _ _) in *.
  split; [|split].
  - intros Hnone. unfold total in Hlen. rewrite Hnone, elements_empty in Hlen.
    simpl in Hlen. destruct str; [done|discriminate].
  - rewrite <- Hlen. by destruct str.
  - destruct str as [|x str'] eqn:Hstr; [by left|]. right. simpl.
    exists (String.String x str'). done.
Qed.

End ModeStrings.

(** ** Examples *)

Import Demo.
#[local] Open Scope list_scope.


(** Example: after alice has quit, replies and further quits change nothing, and [destroy()] ran once. *)
Lemma hasQuit_is_terminal_witness :
  let gone := after [OpQuit 1 "bye"] world in
  let ops := [OpReply 1 "early"; OpQuit 1 "bye"; OpQuit 1 "again";
              OpReply 1 "late"; OpQuit 2 "me too"; OpQuit 1 "and again"] in
  hasQuit (deref gone 1) = true
  ∧ Reply 1 "late" gone = Ok tt gone
  ∧ Quit 1 "again" gone = Ok tt gone
  ∧ run ops world = Ok tt (after ops world)
  ∧ destroyCount 1 world = 0
  ∧ destroyCount 1 (after ops world) = 1
  ∧ ∃ w', Quit 1 "bye" world = Ok tt w'
      ∧ run (map (OpQuit 1) ["bye"; "again"; "and again"]) world = Ok tt w'
      ∧ destroyCount 1 w' = destroyCount 1 world + 1.
Proof.
  intros gone ops.
  destruct (hasQuit_is_terminal 1) as (Hreply & Hquit & Hrun & Hmany).
  assert (Hgone : hasQuit (deref gone 1) = true) by (vm_compute; reflexivity).
  assert (Hops : run ops world = Ok tt (after ops world))
    by (vm_compute; reflexivity).
  split; [exact Hgone|]. split; [exact (Hreply gone "late" Hgone)|].
  split; [exact (Hquit gone "again" Hgone)|]. split; [exact Hops|].
  split; [vm_compute; reflexivity|]. split.
  - destruct (Hrun ops world (after ops world)) as [_ Hcount];
      [repeat constructor|exact Hops|].
    assert (Hfresh : destroyCount 1 world = b2n (hasQuit (deref world 1)))
      by (vm_compute; reflexivity).
    transitivity (b2n (hasQuit (deref (after ops world) 1)));
      [exact (Hcount Hfresh)|vm_compute; reflexivity].
  - destruct (Hmany world "bye" ["again"; "and again"])
      as (w' & Hfirst & Hall & _ & Hcount);
      [vm_compute; reflexivity|vm_compute; eexists; reflexivity|].
    exists w'. split; [exact Hfirst|]. split; [exact Hall|exact Hcount].
Defined.

(** Example: the friends of alice, of bob and of a client in no channel. *)
Lemma Friends_is_self_and_channel_members_witness :
  channels (deref world 1) = {[10; 11]}
  ∧ Friends_of world 1 = {[1; 2; 3]}
  ∧ channels (deref world 2) = {[10]}
  ∧ Friends_of world 2 = {[1; 2]}
  ∧ channels (deref emptyWorld 7) = ∅
  ∧ Friends_of emptyWorld 7 = {[7]}.
Proof.
  assert (H1 : channels (deref world 1) = {[10; 11]}) by (vm_compute; reflexivity).
  assert (H7 : channels (deref emptyWorld 7) = ∅) by (vm_compute; reflexivity).
  destruct (Friends_is_self_and_channel_members world 1) as (_ & _ & _ & Hab & _).
  destruct (Friends_is_self_and_channel_members world 2) as (_ & _ & Hunion & _).
  destruct (Friends_is_self_and_channel_members emptyWorld 7) as (_ & _ & _ & _ & Hnone).
  split; [exact H1|]. split; [rewrite (Hab 10 11 H1); vm_compute; reflexivity|].
  split; [vm_compute; reflexivity|].
  split; [rewrite Hunion; vm_compute; reflexivity|].
  split; [exact H7|]. exact (Hnone H7).
Defined.


(** Example: carol's login timer fires; alice's connection ends after two lines. *)
Lemma timeouts_and_hangup_enqueue_quit_witness :
  let late := after [OpElapse 30] world in
  (∃ w', fire 3 loginTimerF late = Ok true w'
     ∧ commands w' = [QuitCommand (Some 3) "connection timeout"]
     ∧ hasQuit (deref w' 3) = false)
  ∧ ∃ w1, readCommands 1 [ReadyLine "NICK dave"; ReadyLine "BOGUS"] world
          = Ok Waiting w1
      ∧ readCommands 1 [ReadyLine "NICK dave"; ReadyLine "BOGUS";
                        ReadyLine ""; ReadyLine "JOIN #x"] world
        = Ok (Exited [ReadyLine "JOIN #x"])
             (sent (QuitCommand (Some 1) "connection closed") w1)
      ∧ commands (sent (QuitCommand (Some 1) "connection closed") w1)
        = [ParsedCommand (Some 1) "NICK" ["dave"];
           QuitCommand (Some 1) "connection closed"].
Proof.
  intros late.
  destruct (timeouts_and_hangup_enqueue_quit 3) as (_ & _ & Hfire & _).
  destruct (timeouts_and_hangup_enqueue_quit 1) as (_ & _ & _ & Hread).
  split.
  - destruct (Hfire loginTimerF
                {| fn := connectionTimeoutFunc; when := 30; active := true |}
                late)
      as (w' & Hrun & Hcmd & _ & _ & Hq & _);
      [by left|vm_compute; auto|vm_compute; reflexivity..|].
    exists w'. split; [exact Hrun|]. split; [by rewrite Hcmd|].
    rewrite Hq. vm_compute. reflexivity.
  - destruct (Hread [ReadyLine "NICK dave"; ReadyLine "BOGUS"]
                    [ReadyLine "JOIN #x"] world)
      as (w1 & Hpre & Hall & Hcmd & _).
    { intros Hin. repeat (apply elem_of_cons in Hin as [Hin|Hin];
                           [discriminate|]). by inversion Hin. }
    exists w1. split; [exact Hpre|]. split; [exact Hall|].
    rewrite Hcmd.
    assert (Hw1 : readCommands 1 [ReadyLine "NICK dave"; ReadyLine "BOGUS"] world
                  = Ok Waiting (after [OpRead 1 [ReadyLine "NICK dave";
                                                 ReadyLine "BOGUS"]] world))
      by (vm_compute; reflexivity).
    rewrite Hw1 in Hpre. injection Hpre as <-. vm_compute. reflexivity.
Defined.

(** Example: a line with too few arguments, a line that parses, a line that does not. *)
Lemma readCommands_per_line_witness :
  "PING" ≠ EOF
  ∧ ParseCommand "PING" = inr NotEnoughArgsError
  ∧ readLoop 1 [ReadyLine "PING"] world
    = Ok None (commit 1 (pushed ["461 alice PING :Not enough parameters"]
                                (deref world 1))
                      [EvReply 1 "461 alice PING :Not enough parameters"] world)
  ∧ ParseCommand "NICK dave" = inl (ParsedCommand None "NICK" ["dave"])
  ∧ readLoop 1 [ReadyLine "NICK dave"] world
    = Ok None (sent (ParsedCommand (Some 1) "NICK" ["dave"]) world)
  ∧ ParseCommand "BOGUS" = inr (OtherParseError "BOGUS")
  ∧ readLoop 1 [ReadyLine "BOGUS"] world = Ok None world.
Proof.
  assert (Hping : "PING" ≠ EOF) by discriminate.
  assert (Hnick : "NICK dave" ≠ EOF) by discriminate.
  assert (Hbogus : "BOGUS" ≠ EOF) by discriminate.
  destruct (readCommands_per_line 1 "PING" [] world Hping) as (_ & Hneed & _).
  destruct (readCommands_per_line 1 "NICK dave" [] world Hnick) as (Hparsed & _).
  destruct (readCommands_per_line 1 "BOGUS" [] world Hbogus) as (_ & _ & Hother).
  split; [exact Hping|]. split; [reflexivity|]. split.
  { destruct (Hneed eq_refl) as (_ & Hlive & _).
    destruct Hlive as [Hrun _]; [vm_compute; reflexivity|].
    rewrite Hrun. vm_compute. reflexivity. }
  split; [reflexivity|]. split.
  { destruct (Hparsed (ParsedCommand None "NICK" ["dave"]) eq_refl) as [Hrun _].
    rewrite Hrun. reflexivity. }
  split; [reflexivity|]. rewrite (Hother "BOGUS" eq_refl). reflexivity.
Defined.

(** Example: the write pump at an end marker, at a failing write, and on an open queue. *)
Lemma writeReplies_fifo_and_close_witness :
  let closing := after [OpReply 1 "one"; OpReply 1 "two"; OpQuit 1 "bye"] world in
  let failing := after [OpReply 2 "one"; OpReply 2 "boom"; OpReply 2 "two"] world in
  let open := after [OpReply 3 "one"; OpReply 3 "two"] world in
  (∃ w', writeReplies 1 closing = Ok (Exited tt) w'
     ∧ trace w' = trace closing
         ++ [EvSocketWrite 1 "one" false; EvSocketWrite 1 "two" false;
             EvSocketWrite 1 "ERROR :connection closed" false;
             EvSocketClose 1]
     ∧ socket (deref w' 1)
       = {| written := ["one"; "two"; "ERROR :connection closed"];
            closed := 1 |})
  ∧ (∃ w', writeReplies 2 failing = Ok (Exited tt) w'
       ∧ trace w' = trace failing
           ++ [EvSocketWrite 2 "one" false; EvSocketWrite 2 "boom" true;
               EvSocketClose 2]
       ∧ socket (deref w' 2) = {| written := ["one"]; closed := 1 |}
       ∧ replies (deref w' 2) = ["two"])
  ∧ ∃ w', writeReplies 3 open = Ok Waiting w'
      ∧ trace w' = trace open
          ++ [EvSocketWrite 3 "one" false; EvSocketWrite 3 "two" false]
      ∧ socket (deref w' 3) = {| written := ["one"; "two"]; closed := 0 |}.
Proof.
  intros closing failing open.
  destruct (writeReplies_fifo_and_close 1 closing) as (Heof & _).
  destruct (writeReplies_fifo_and_close 2 failing) as (_ & Hfail & _).
  destruct (writeReplies_fifo_and_close 3 open) as (_ & _ & Hopen & _).
  split; [|split].
  - destruct (Heof ["one"; "two"; "ERROR :connection closed"] [])
      as (w' & Hrun & Hcl & _ & Htr & _); [vm_compute; reflexivity..|].
    exists w'. split; [exact Hrun|]. split; [exact Htr|].
    rewrite Hcl. vm_compute. reflexivity.
  - destruct (Hfail ["one"] "boom" ["two"])
      as (w' & Hrun & Hcl & _ & Htr & _);
      [vm_compute; reflexivity|vm_compute; reflexivity|discriminate
      |vm_compute; reflexivity|].
    exists w'. split; [exact Hrun|]. split; [exact Htr|].
    rewrite Hcl. split; vm_compute; reflexivity.
  - destruct Hopen as (w' & Hrun & Hcl & _ & Htr & _); [vm_compute; reflexivity|].
    exists w'. split; [exact Hrun|]. split; [rewrite Htr; vm_compute; reflexivity|].
    rewrite Hcl. vm_compute. reflexivity.
Defined.

(** Example: carol registers; a client left alone for the login timeout is timed out. *)
Lemma Register_and_login_timeout_witness :
  let built := after [OpNewClient 3 (conn "10.0.0.3")] emptyWorld in
  let ops := [OpSetNickname 3 "carol"; OpReply 3 "hello"; OpTouch 3;
              OpNewClient 1 (conn "10.0.0.1"); OpRegister 1; OpElapse 30] in
  (∃ w', Register 3 world = Ok tt w'
     ∧ phase (deref w' 3) = Normal
     ∧ isActive (loginTimer (deref w' 3)) = false
     ∧ ∀ w'', run [OpElapse 30; OpTouch 3; OpIdle 3] w' = Ok tt w'' →
              fire 3 loginTimerF w'' = Ok false w'')
  ∧ NewClient 3 (conn "10.0.0.3") emptyWorld = Ok 3 built
  ∧ run ops built = Ok tt (after ops built)
  ∧ ∃ w3, fire 3 loginTimerF (after ops built) = Ok true w3
      ∧ commands w3 = commands (after ops built)
                      ++ [QuitCommand (Some 3) "connection timeout"].
Proof.
  intros built ops.
  destruct (Register_and_login_timeout 3) as (Hreg & Hnever & Hfires).
  assert (Hnew : NewClient 3 (conn "10.0.0.3") emptyWorld = Ok 3 built)
    by (vm_compute; reflexivity).
  assert (Hrun : run ops built = Ok tt (after ops built))
    by (vm_compute; reflexivity).
  split; [|split; [exact Hnew|split; [exact Hrun|]]].
  - destruct (Hreg world) as (w1 & w' & _ & _ & Hreg' & Hphase & Hoff & _);
      [vm_compute; eexists; reflexivity|].
    exists w'. split; [exact Hreg'|]. split; [exact Hphase|].
    split; [exact Hoff|]. intros w'' Hrun'.
    apply (Hnever [OpElapse 30; OpTouch 3; OpIdle 3] w' w'' Hoff);
      [repeat constructor|exact Hrun'].
  - destruct (Hfires (conn "10.0.0.3") emptyWorld ops built (after ops built))
      as (w3 & Hfire & Hcmd & _);
      [exact Hnew|repeat constructor|exact Hrun|vm_compute; lia|].
    exists w3. split; [exact Hfire|exact Hcmd].
Defined.

(** Example: a client that quits before the login timeout is never timed out, although [Register()] was never called. *)
Lemma login_timeout_unless_registered_fails :
  ¬ login_timeout_unless_registered.
Proof.
  intros Hclaim.
  pose (built := after [OpNewClient 1 (conn "10.0.0.1")] emptyWorld).
  pose (ops := [OpQuit 1 "bye"; OpElapse 30]).
  destruct (Hclaim 1 (conn "10.0.0.1") emptyWorld ops built (after ops built))
    as [Hin|[w3 Hfire]];
    [vm_compute; reflexivity|repeat constructor|vm_compute; reflexivity
    |vm_compute; lia|..].
  - vm_compute in Hin. inversion Hin.
  - vm_compute in Hfire. discriminate Hfire.
Qed.

(** Example: a client quits right after it was built, and after a whole idle cycle; the zero client panics. *)
Lemma Quit_safe_whatever_the_phase_witness :
  let built := after [OpNewClient 1 (conn "10.0.0.1")] emptyWorld in
  let ops := [OpSetNickname 1 "alice"; OpRegister 1; OpElapse 60;
              OpFire 1 idleTimerF; OpIdle 1; OpElapse 60;
              OpFire 1 quitTimerF] in
  (∃ w1 w2, NewClient 4 (conn "10.0.0.4") world = Ok 4 w1
     ∧ Quit 4 "bye" w1 = Ok tt w2
     ∧ trace w2 = trace w1
         ++ [EvReply 4 "ERROR :connection closed"; EvReply 4 ""; EvHasQuit 4;
             EvDestroy 4; EvTimerStop 4 loginTimerF; EvRegistryRemove 4 ""])
  ∧ (∃ w3, Quit 1 "bye" (after ops built) = Ok tt w3)
  ∧ Quit 7 "bye" emptyWorld = NilPanic.
Proof.
  intros built ops.
  destruct (Quit_safe_whatever_the_phase 4) as (Hnew & _).
  destruct (Quit_safe_whatever_the_phase 1) as (_ & Hany & _).
  destruct (Quit_safe_whatever_the_phase 7) as (_ & _ & _ & Hnil & _).
  split; [|split].
  - destruct (Hnew (conn "10.0.0.4") world) as (w1 & Hrun & _ & _ & _ & _ & Hquit).
    destruct (Hquit "bye") as (w2 & Hrun2 & Htr).
    exists w1, w2. split; [exact Hrun|]. split; [exact Hrun2|].
    rewrite Htr. reflexivity.
  - destruct (Hany (conn "10.0.0.1") emptyWorld ops built (after ops built) "bye")
      as (w3 & Hrun); [vm_compute; reflexivity..|].
    exists w3. exact Hrun.
  - apply Hnil; vm_compute; reflexivity.
Defined.

(** Example: alice's idle timer fires after a minute, the server calls [Idle()], and later she is touched. *)
Lemma timers_at_most_one_pending_witness :
  let ops := [OpElapse 60; OpFire 1 idleTimerF; OpIdle 1; OpElapse 10;
              OpTouch 1; OpElapse 60; OpFire 1 idleTimerF; OpIdle 1] in
  atMostOnePending (deref world 1)
  ∧ idleInTurn 1 ops world = true
  ∧ run ops world = Ok tt (after ops world)
  ∧ atMostOnePending (deref (after ops world) 1).
Proof.
  intros ops.
  destruct (timers_at_most_one_pending 1) as (_ & _ & _ & _ & _ & Hrun).
  assert (Hinv : atMostOnePending (deref world 1)).
  { intros [_ Hq]. vm_compute in Hq. discriminate Hq. }
  assert (Hturn : idleInTurn 1 ops world = true) by (vm_compute; reflexivity).
  assert (Hops : run ops world = Ok tt (after ops world))
    by (vm_compute; reflexivity).
  split; [exact Hinv|]. split; [exact Hturn|]. split; [exact Hops|].
  exact (Hrun ops world (after ops world) Hinv Hturn Hops).
Defined.

(** Example: alice's idle timer fires, she is touched before the server calls [Idle()]: the idle timer and the quit timer are both pending. *)
Lemma timers_invariant_kept_fails :
  ¬ timers_invariant_kept.
Proof.
  intros Hclaim.
  pose (ops := [OpElapse 60; OpFire 1 idleTimerF; OpTouch 1; OpIdle 1]).
  apply (Hclaim 1 ops world (after ops world)).
  - repeat constructor.
  - intros [_ Hq]. vm_compute in Hq. discriminate Hq.
  - vm_compute. reflexivity.
  - split; vm_compute; reflexivity.
Qed.

(** *** Further examples *)

Import Stdlib.Strings.Ascii.
#[local] Open Scope nat_scope.

(** Example: alice is marked active, then touched, replied to and pinged while five units pass. *)
Lemma IdleTime_counts_from_Active_witness :
  let ops := [OpTouch 1; OpElapse 5; OpReply 1 "hi"; OpIdle 1] in
  let w' := after (OpActive 1 :: ops) world in
  clock world ≤ clock w'
  ∧ atime (deref w' 1) = clock world
  ∧ IdleTime 1 w'
    = Ok (Z.min maxDuration (Z.of_nat (clock w' - clock world))) w'.
Proof.
  intros ops w'.
  apply (IdleTime_counts_from_Active 1 ops world w').
  - repeat constructor.
  - left. vm_compute. reflexivity.
Defined.

(** Example: dave connects, picks a nickname, registers and is marked active. *)
Lemma SignonTime_fixed_at_construction_witness :
  let ops := [OpElapse 7; OpSetNickname 4 "dave"; OpRegister 4; OpActive 4] in
  let w' := after (OpNewClient 4 (conn "10.0.0.4") :: ops) world in
  ctime (deref w' 4) = clock world
  ∧ SignonTime 4 w' = Ok (Time_Unix (clock world)) w'
  ∧ (username (deref w' 4), hostname (deref w' 4), realname (deref w' 4),
     flags (deref w' 4), hops (deref w' 4), awayMessage (deref w' 4))
    = (""%string, ""%string, ""%string, ∅, 0, ""%string).
Proof.
  intros ops w'.
  apply (SignonTime_fixed_at_construction 4 (conn "10.0.0.4") ops world w').
  - repeat constructor.
  - vm_compute. reflexivity.
Defined.

(** Example: carol, never registered, keeps her phase; alice stays Normal through a second Register and a Quit. *)
Lemma phase_moves_only_to_Normal_witness :
  let ops := [OpTouch 3; OpIdle 3; OpElapse 9; OpQuit 3 "bye"] in
  let more := [OpRegister 1; OpTouch 1; OpQuit 1 "bye"] in
  phase (deref (after ops world) 3) = phase (deref world 3)
  ∧ phase (deref (after more world) 1) = Normal.
Proof.
  intros ops more. split.
  - apply (phase_moves_only_to_Normal 3 ops world (after ops world)).
    + vm_compute. reflexivity.
    + repeat constructor.
  - apply (phase_moves_only_to_Normal 1 more world (after more world)).
    + vm_compute. reflexivity.
    + repeat constructor.
    + vm_compute. reflexivity.
Defined.

(** Example: alice is replied to and quits while only bob's write pump runs. *)
Lemma socket_belongs_to_the_write_pump_witness :
  let ops := [OpReply 1 "hi"; OpQuit 1 "bye"; OpWrite 2; OpElapse 3] in
  socket (deref (after ops world) 1) = socket (deref world 1).
Proof.
  intros ops.
  apply (socket_belongs_to_the_write_pump 1 ops world (after ops world)).
  - repeat constructor.
  - vm_compute. reflexivity.
Defined.

(** Example: the queue of alice grows while she is live and is frozen after she quit. *)
Lemma reply_queue_only_grows_witness :
  let ops := [OpReply 1 "hi"; OpChangeNickname 2 "rob"; OpWrite 2] in
  let quit := after [OpQuit 1 "bye"] world in
  let late := [OpReply 1 "hi"; OpChangeNickname 2 "rob"; OpQuit 3 "bye";
               OpIdle 1] in
  (∃ more, replies (deref (after ops world) 1)
           = replies (deref world 1) ++ more)
  ∧ replies (deref (after late quit) 1) = replies (deref quit 1)
  ∧ hasQuit (deref (after late quit) 1) = true.
Proof.
  intros ops quit late. split.
  - apply (reply_queue_only_grows 1 ops world (after ops world)).
    + repeat constructor.
    + vm_compute. reflexivity.
  - apply (reply_queue_only_grows 1 late quit (after late quit)).
    + repeat constructor.
    + vm_compute. reflexivity.
    + vm_compute. reflexivity.
Defined.

(** Example: alice's read pump and carol's login timer feed the command queue. *)
Lemma every_enqueued_command_is_tagged_witness :
  let ops := [OpRead 1 [ReadyLine "NICK dave"; ReadyLine "QUIT"; ReadyLine ""];
              OpElapse 30; OpFire 3 loginTimerF] in
  (∃ more, commands (after ops world) = commands world ++ more
           ∧ Forall (λ msg, ∃ op, op ∈ ops ∧ enqueues op = true
                            ∧ Command_client msg = target op) more)
  ∧ commands (after ops world)
    = [ParsedCommand (Some 1) "NICK" ["dave"]; QuitCommand (Some 1) "";
       QuitCommand (Some 1) "connection closed";
       QuitCommand (Some 3) "connection timeout"].
Proof.
  intros ops. split; [|vm_compute; reflexivity].
  apply (every_enqueued_command_is_tagged ops world (after ops world)).
  vm_compute. reflexivity.
Defined.

(** Example: alice quits; later her idle timer is asked to fire. *)
Lemma timers_stay_silent_after_Quit_witness :
  let ops := [OpElapse 100; OpFire 1 idleTimerF; OpReply 1 "hi";
              OpTouch 2; OpChangeNickname 1 "al"] in
  let w' := after (OpQuit 1 "bye" :: ops) world in
  anyActive (deref w' 1) = false
  ∧ (∀ t, fire 1 t w' = Ok false w')
  ∧ ∃ w2, Touch 1 w' = Ok tt w2 ∧ isActive (idleTimer (deref w2 1)) = true.
Proof.
  intros ops w'.
  apply (timers_stay_silent_after_Quit 1 "bye" ops world w').
  - vm_compute. reflexivity.
  - vm_compute. by eexists.
  - repeat constructor.
  - vm_compute. reflexivity.
Defined.

(** Example: alice becomes al and stays al through her own Register and Quit. *)
Lemma nickname_stays_until_renamed_witness :
  let ops := [OpRegister 1; OpChangeNickname 2 "al"; OpQuit 1 "bye"] in
  let w' := after (OpChangeNickname 1 "al" :: ops) world in
  nick (deref w' 1) = "al"%string
  ∧ HasNick (deref w' 1) = negb (String.eqb "al" "")
  ∧ Nick (deref w' 1) = (if String.eqb "al" "" then "*" else "al")%string.
Proof.
  intros ops w'.
  apply (nickname_stays_until_renamed 1 "al" ops world w').
  - repeat constructor.
  - right. vm_compute. reflexivity.
Defined.

(** Example: dave connects; his read pump gets a line, then the lookup twice. *)
Lemma hostname_lookup_is_forwarded_once_witness :
  ∃ w1, NewClient 4 (conn "10.0.0.4") world = Ok 4 w1
    ∧ ∃ r w', readLoop 4 ([ReadyLine "NICK dave"]
                          ++ ReadyLookup :: [ReadyLookup; ReadyLine "BOGUS"]) w1
              = Ok r w'
        ∧ hostnames w'
          = hostnames world
            ++ [{| hl_client := 4; hl_hostname := "host-10.0.0.4" |}].
Proof.
  destruct (hostname_lookup_is_forwarded_once 4 (conn "10.0.0.4") world)
    as (w1 & Hnew & _ & Honce & _).
  exists w1. split; [exact Hnew|].
  apply (Honce [ReadyLine "NICK dave"] [ReadyLookup; ReadyLine "BOGUS"]).
  constructor; [|constructor]. exists "NICK dave"%string. split; [reflexivity|].
  discriminate.
Defined.

(** Example: alice's id splits at the first ! and the first @. *)
Lemma UserHost_splits_back_witness :
  cut "!"%char (UserHost (deref world 1))
  = Some (Nick (deref world 1), ("*" ++ "@" ++ hostname (deref world 1))%string)
  ∧ cut "@"%char ("*" ++ "@" ++ hostname (deref world 1))%string
    = Some ("*"%string, hostname (deref world 1)).
Proof.
  destruct (UserHost_splits_back (deref world 1))
    as (_ & _ & _ & _ & Hnick & Huser).
  split.
  - apply Hnick. vm_compute. reflexivity.
  - apply Huser. vm_compute. reflexivity.
Defined.

(** Example: alice has no flags. *)
Lemma ModeString_is_empty_or_plus_witness :
  let name := λ flag : nat, if Nat.eqb flag 0 then "i"%string else "o"%string in
  let c := deref world 1 in
  ModeString name elements c = ""%string
  ∧ String.length (ModeString name elements c) = 0.
Proof.
  intros name c.
  destruct (ModeString_is_empty_or_plus name elements
              (λ s, reflexivity (elements s)) c) as (Hnone & Hlen & _).
  split.
  - apply Hnone. vm_compute. reflexivity.
  - exact Hlen.
Defined.

(** Example: alice quits with one line pending. *)
Lemma Quit_makes_the_pump_flush_and_close_witness :
  let w := after [OpReply 1 "hello"] world in
  ∃ w1 w2, Quit 1 "bye" w = Ok tt w1
    ∧ socket (deref w1 1) = socket (deref w 1)
    ∧ writeReplies 1 w1 = Ok (Exited tt) w2
    ∧ socket (deref w2 1)
      = {| written := written (socket (deref w 1))
                      ++ replies (deref w 1) ++ [RplError "connection closed"];
           closed := S (closed (socket (deref w 1))) |}
    ∧ replies (deref w2 1) = []
    ∧ trace w2 = trace w1
        ++ map (λ line, EvSocketWrite 1 line false)
               (replies (deref w 1) ++ [RplError "connection closed"])
        ++ [EvSocketClose 1].
Proof.
  intros w.
  apply (Quit_makes_the_pump_flush_and_close 1 "bye" w).
  - vm_compute. reflexivity.
  - vm_compute. by eexists.
  - vm_compute. reflexivity.
Defined.

(** Example: three lines for bob. *)
Lemma replies_reach_the_socket_in_order_witness :
  let lines := ["one"; "two"; "three"]%string in
  ∃ w1 w2, run (map (OpReply 2) lines) world = Ok tt w1
    ∧ trace w1 = trace world ++ map (EvReply 2) lines
    ∧ sendsFit (queued world) (map (EvReply 2) lines) = true
    ∧ replies (deref w1 2) = replies (deref world 2) ++ lines
    ∧ length (replies (deref w1 2)) ≤ repliesCapacity
    ∧ writeReplies 2 w1 = Ok Waiting w2
    ∧ socket (deref w2 2)
      = {| written := written (socket (deref world 2))
                      ++ replies (deref world 2) ++ lines;
           closed := closed (socket (deref world 2)) |}
    ∧ replies (deref w2 2) = [].
Proof.
  intros lines.
  apply (replies_reach_the_socket_in_order 2 lines world).
  - vm_compute. reflexivity.
  - vm_compute. lia.
  - vm_compute. reflexivity.
Defined.

(** Example: alice is touched; 59 units later the idle timer is not due. *)
Lemma Touch_postpones_the_idle_notice_witness :
  ∃ later, run [OpTouch 1; OpElapse 59] world = Ok tt later
    ∧ fire 1 idleTimerF later = Ok false later.
Proof.
  destruct (Touch_postpones_the_idle_notice 1 59 world)
    as (later & Hrun & Hearly & _).
  - vm_compute. auto.
  - exists later. split; [exact Hrun|]. apply Hearly. vm_compute. lia.
Defined.

(** Example: two clients in one channel. *)
Lemma Friends_is_symmetric_witness :
  let w := joined 10 2 (joined 10 1 emptyWorld) in
  membershipAgrees w ∧ 1 ∈ Friends_of w 2.
Proof.
  intros w.
  assert (Hagree : membershipAgrees w).
  { intros x ch. unfold w, joined, deref, derefChannel. simpl.
    destruct (decide (ch = 10)) as [->|Hch];
      destruct (decide (x = 2)) as [->|H2];
      try destruct (decide (x = 1)) as [->|H1];
      repeat first [ rewrite lookup_total_insert_eq
                   | rewrite lookup_total_insert_ne by done
                   | rewrite lookup_total_empty ];
      simpl; set_solver. }
  split; [exact Hagree|].
  apply (Friends_is_symmetric w 1 2 Hagree). vm_compute. set_solver.
Defined.

(** Example: four lines from alice, two of which parse. *)
Lemma read_pump_keeps_the_order_witness :
  let lines := ["NICK dave"; "BOGUS"; "PING"; "JOIN #x"]%string in
  (∃ w1, readCommands 1 (map ReadyLine lines) world = Ok Waiting w1
     ∧ commands w1 = commands world ++ parsedOf 1 lines)
  ∧ parsedOf 1 lines
    = [ParsedCommand (Some 1) "NICK" ["dave"];
       ParsedCommand (Some 1) "JOIN" ["#x"]].
Proof.
  intros lines. split; [|vm_compute; reflexivity].
  apply (read_pump_keeps_the_order 1 lines [] world).
  repeat constructor; discriminate.
Defined.

(** Example: alice's timers through replies, a rename and both pumps. *)
Lemma timers_change_only_by_timer_calls_witness :
  let ops := [OpActive 1; OpReply 1 "hi"; OpChangeNickname 1 "al";
              OpRead 1 [ReadyLine "NICK dave"]; OpWrite 1; OpTouch 2;
              OpElapse 5] in
  loginTimer (deref (after ops world) 1) = loginTimer (deref world 1)
  ∧ idleTimer (deref (after ops world) 1) = idleTimer (deref world 1)
  ∧ quitTimer (deref (after ops world) 1) = quitTimer (deref world 1).
Proof.
  intros ops.
  apply (timers_change_only_by_timer_calls 1 ops world (after ops world)).
  - repeat constructor.
  - vm_compute. reflexivity.
Defined.

(** Example: alice's friends through a rename, a Register, a ping and a new client. *)
Lemma Friends_changes_only_by_Quit_witness :
  let ops := [OpChangeNickname 2 "rob"; OpRegister 3; OpIdle 1;
              OpNewClient 4 (conn "10.0.0.4")] in
  Friends_of (after ops world) 1 = Friends_of world 1.
Proof.
  intros ops.
  apply (Friends_changes_only_by_Quit 1 ops world (after ops world)).
  - repeat constructor.
  - vm_compute. reflexivity.
Defined.
